(** * Network MIDI controller: the server's jitter buffer and playback queue

    A shallow embedding of the JCMP part of the relay server (the module that
    owns [clients], [playbackQueue], [counters], [percentile], [insertEvent],
    the 5 ms dispatcher timer, [ensureClient], [setupPeerForClient],
    [handlePerformancePacket] and the WebSocket message handler), followed by
    the properties of the specification that concern it.

    Modelling conventions.
    - A JavaScript number is a binary64 value.  Every finite binary64 value is
      an integer multiple of 2^-1074, so a [number] is the integer that counts
      these units: 999.5 is a number as much as 1030 is, and comparison, [+],
      [-], Math.max and Math.min are those of [Z], Math.round is the
      rounding to the nearest integer with ties going up.  A sum or a
      difference is kept exact; the engine rounds it to 53 significant bits,
      which changes nothing as long as the operands are multiples of one
      power of two and less than 2^53 of them apart, as clock readings and
      the timestamps a client takes from its clock are.  NaN and the
      infinities (a JSON literal beyond the binary64 range) are not numbers
      of the model.  The one computation where rounding matters for every
      input, the index [(p / 100) * (sorted.length - 1)] of [percentile], is
      modelled bit-exactly in [Module Binary64], and so is the quotient of
      the stats frame's [rttAvg].
    - Values read from a parsed JSON object are [jsval]s, so that the
      [typeof x === 'number'] test and the [x || d] defaults of the source
      keep their meaning.
    - Date.now() is an input: every function that reads the clock takes the
      value it reads as an argument.
    - A peer connection and a data channel are handles of the WebRTC
      library: a client record holds whether its [pc] and [dc] fields are
      set, and the negotiation itself (the promise setupPeerForClient
      returns, ICE candidates) is outside the model, as are console.log
      output (with [lastPlaybackDispatchAt], which only feeds the JCMP_DEBUG
      log), the sockets the replies and the stats frame are written to, and
      the easymidi device.  Every call of sendNoteOn, sendNoteOff,
      sendControlChange or sendProgramChange is recorded in [sinkLog], and so
      is every transport message handed to the device.
    - Beside the scheduling core, the file models the object the stats timer
      builds, connectMIDI, getLocalIP, and sendMIDI of the client's useJCMP
      hook; what these read from the operating system, the MIDI library or
      the browser is an argument. *)

From Stdlib Require Import ZArith Lia.
From stdpp Require Import base tactics option list sorting gmap strings.

Local Open Scope Z_scope.

(** ** IEEE 754 binary64 arithmetic for the percentile index *)

Module Binary64.

(** [rne a b] is the integer nearest to [a / b] ([b > 0], [a >= 0]), ties
    going to the even one. *)
Definition rne (a b : Z) : Z :=
  let q := a / b in
  let r := a mod b in
  if 2 * r <? b then q
  else if b <? 2 * r then q + 1
  else if Z.even q then q else q + 1.

(** [scaled a b e] is [rne] of [(a / b) / 2^e]. *)
Definition scaled (a b e : Z) : Z :=
  if 0 <=? e then rne a (b * 2 ^ e) else rne (a * 2 ^ (- e)) b.

(** A finite positive double is [m * 2^e] with [2^52 <= m < 2^53]; zero is
    [(0, 0)].  [of_ratio a b] is the double nearest to [a / b] (normal
    range, [a >= 0], [b > 0]). *)
Definition of_ratio (a b : Z) : Z * Z :=
  if a =? 0 then (0, 0)
  else
    let e := Z.log2 a - Z.log2 b - 53 in
    let pick e := let m := scaled a b e in
                  if m <? 2 ^ 53 then Some (m, e) else None in
    match pick e, pick (e + 1) with
    | Some r, _ => r
    | None, Some r => r
    | None, None => (scaled a b (e + 2), e + 2)
    end.

Definition div (a b : Z) : Z * Z := of_ratio a b.

(** The product of a double with a (small, exactly representable)
    integer. *)
Definition mul_int (x : Z * Z) (n : Z) : Z * Z :=
  let '(m, e) := x in
  if 0 <=? e then of_ratio (m * n * 2 ^ e) 1 else of_ratio (m * n) (2 ^ (- e)).

(** Math.floor of a nonnegative double. *)
Definition floor (x : Z * Z) : Z :=
  let '(m, e) := x in
  if 0 <=? e then m * 2 ^ e else m / 2 ^ (- e).

(** [Math.floor((p / 100) * n)] as the engine computes it. *)
Definition floor_percent_of (p n : Z) : Z := floor (mul_int (div p 100) n).

(** Math.round of a nonnegative double: the nearest integer, a tie going
    up. *)
Definition round (x : Z * Z) : Z :=
  let '(m, e) := x in
  if 0 <=? e then m * 2 ^ e else (2 * m + 2 ^ (- e)) / 2 ^ (- e + 1).

End Binary64.

(** ** JavaScript numbers *)

(** A number, counted in units of 2^-1074. *)
Abbreviation number := Z (only parsing).

(** The number 0.5. *)
Definition half : number := 2 ^ 1073.

(** The integer [n] as a number. *)
Definition int (n : Z) : number := n * (2 * half).

Global Arguments half : simpl never.
Global Arguments int : simpl never.

(** Math.round: the nearest integer, a tie going up. *)
Definition Math_round (x : number) : number := int ((x + half) / (2 * half)).

(** ** JavaScript values *)

Inductive jsval : Type :=
  | JUndefined
  | JNull
  | JBool (b : bool)
  | JNum (n : number)
  | JStr (s : string)
  | JObject.   (* an array or an object: opaque, always truthy *)

Global Instance jsval_eq_dec : EqDecision jsval.
Proof. solve_decision. Defined.

(** An integer literal of the program, such as the [1] of [channel || 1]. *)
Definition JInt (n : Z) : jsval := JNum (int n).

(** ToBoolean. *)
Definition truthy (v : jsval) : bool :=
  match v with
  | JUndefined | JNull => false
  | JBool b => b
  | JNum n => negb (n =? 0)
  | JStr s => match s with EmptyString => false | _ => true end
  | JObject => true
  end.

(** [a || b]. *)
Definition js_or (a b : jsval) : jsval := if truthy a then a else b.

(** The fields the server reads from a parsed message.  A JSON number,
    string, boolean or array has none of them (every field [JUndefined]). *)
Record message : Type := Message {
  msg_type : jsval;
  msg_timestamp : jsval;
  msg_channel : jsval;
  msg_note : jsval;
  msg_velocity : jsval;
  msg_control : jsval;
  msg_value : jsval;
  msg_program : jsval;
  msg_action : jsval
}.

(** What JSON.parse makes of a frame: it throws, or returns [null] (on which
    a property access throws a TypeError), or returns a value whose fields
    can be read. *)
Inductive parsed : Type :=
  | SyntaxError
  | ParsedNull
  | Parsed (obj : message).

(** ** Scheduled events and the MIDI sink *)

Inductive event_type : Type :=
  | EvNoteOn (channel note velocity : jsval)
  | EvNoteOff (channel note : jsval)
  | EvCc (channel control value : jsval)
  | EvProgram (channel program : jsval).

Record event : Type := Event { playAt : number; type : event_type }.

Global Instance event_type_eq_dec : EqDecision event_type.
Proof. solve_decision. Defined.
Global Instance event_eq_dec : EqDecision event.
Proof. solve_decision. Defined.

Inductive sink_call : Type :=
  | sendNoteOn (channel note velocity : jsval)
  | sendNoteOff (channel note velocity : jsval)
  | sendControlChange (channel control value : jsval)
  | sendProgramChange (channel program : jsval)
  | sendTransport (what : string).   (* midiOutput.send('start' | 'stop' | 'continue') *)

Global Instance sink_call_eq_dec : EqDecision sink_call.
Proof. solve_decision. Defined.

(** Who called the sink: the WebSocket handler, or the dispatcher in the
    tick that read [now] from the clock. *)
Inductive caller : Type :=
  | Immediate
  | Dispatcher (now : number).

(** One sink invocation, with the playback queue as it was at the call. *)
Record sink_entry : Type := SinkEntry {
  call : sink_call;
  from : caller;
  queue_at_call : list event
}.

(** ** Constants *)

Definition LATE_DROP_MS : number := int 50.
Definition SAFETY_MARGIN_MS : number := int 15.

(** ** percentile *)

(** [Math.floor((p / 100) * (sorted.length - 1))] for a percentage [p] that
    is a nonnegative integer, as double arithmetic computes it. *)
Definition percentile_index (p : Z) (len : nat) : nat :=
  Z.to_nat (Binary64.floor_percent_of p (Z.of_nat len - 1)).

(** [sorted[idx]] is [undefined] when [idx] is beyond the array, which takes
    a [p] above 100; the model gives 0 there. *)
Definition percentile (arr : list number) (p : Z) : number :=
  match arr with
  | [] => 0
  | _ =>
    let sorted := merge_sort Z.le arr in
    nth (percentile_index p (length sorted)) sorted 0
  end.

(** ** insertEvent *)

(** The loop [while (i >= 0 && playbackQueue[i].playAt > evt.playAt) i--],
    started at [i = k - 1]; the result is the final [i + 1]. *)
Fixpoint insert_position (playbackQueue : list event) (evt : event) (k : nat) : nat :=
  match k with
  | O => O
  | S i =>
    match playbackQueue !! i with
    | Some x => if playAt evt <? playAt x then insert_position playbackQueue evt i else S i
    | None => S i
    end
  end.

(** [playbackQueue.splice(i + 1, 0, evt)]. *)
Definition insertEvent (playbackQueue : list event) (evt : event) : list event :=
  let k := insert_position playbackQueue evt (length playbackQueue) in
  take k playbackQueue ++ evt :: drop k playbackQueue.

(** ** Process state *)

(** A client record.  [pc] and [dc] tell whether the field holds a handle
    (a peer connection, a data channel) or is null; the [ws] field is the
    socket of the connection and never changes. *)
Record client : Type := Client {
  id : nat;
  pc : bool;
  dc : bool;
  latencyHistory : list number;
  bufferSizeMs : number;
  lastSeen : option number
}.

Record counters_t : Type := Counters { wsImmediate : nat; rtcPerf : nat }.

(** The module-level variables.  Client records are objects: [records] is
    the store that holds every record allocated so far under its [id], and
    [clients] is the set of keys of the Map of the same name, whose value
    at [i] is the record stored at [i].  A record deleted from the Map stays
    reachable from the closures of its socket and of its peer connection. *)
Record state : Type := State {
  midiOutput : bool;
  nextClientId : nat;
  records : gmap nat client;
  clients : gset nat;
  playbackQueue : list event;
  counters : counters_t;
  sinkLog : list sink_entry
}.

Definition initial_state (midi : bool) : state :=
  State midi 1 ∅ ∅ [] (Counters 0 0) [].

Definition set_queue (q : list event) (s : state) : state :=
  State (midiOutput s) (nextClientId s) (records s) (clients s) q (counters s) (sinkLog s).

Definition set_counters (k : counters_t) (s : state) : state :=
  State (midiOutput s) (nextClientId s) (records s) (clients s) (playbackQueue s) k (sinkLog s).

(** The record stored at [i] is overwritten: a mutation of that object. *)
Definition set_record (i : nat) (c : client) (s : state) : state :=
  State (midiOutput s) (nextClientId s) (<[i := c]> (records s)) (clients s)
        (playbackQueue s) (counters s) (sinkLog s).

(** A sink function is entered: the call is recorded together with the
    queue of that moment. *)
Definition invoke (who : caller) (f : sink_call) (s : state) : state :=
  State (midiOutput s) (nextClientId s) (records s) (clients s) (playbackQueue s)
        (counters s) (sinkLog s ++ [SinkEntry f who (playbackQueue s)]).

(** [clients.get(i)]. *)
Definition clients_get (s : state) (i : nat) : option client :=
  if decide (i ∈ clients s) then records s !! i else None.

(** ** The dispatcher (the 5 ms timer) *)

(** The [switch (evt.type)] of the dispatcher. *)
Definition dispatch_call (evt : event) : sink_call :=
  match type evt with
  | EvNoteOn channel note velocity =>
      sendNoteOn (js_or channel (JInt 1)) note (js_or velocity (JInt 100))
  | EvNoteOff channel note =>
      sendNoteOff (js_or channel (JInt 1)) note (JInt 0)
  | EvCc channel control value =>
      sendControlChange (js_or channel (JInt 1)) control value
  | EvProgram channel program =>
      sendProgramChange (js_or channel (JInt 1)) program
  end.

(** The [while] loop of one tick, by recursion on the queue: every
    iteration shifts the head off the queue. *)
Fixpoint dispatch_loop (now : number) (queue : list event) (log : list sink_entry)
  : list event * list sink_entry :=
  match queue with
  | [] => ([], log)
  | evt :: rest =>
    if playAt evt <=? now then
      let playbackError := now - playAt evt in
      if LATE_DROP_MS <? playbackError then dispatch_loop now rest log
      else dispatch_loop now rest (log ++ [SinkEntry (dispatch_call evt) (Dispatcher now) rest])
    else (queue, log)
  end.

Definition dispatcher_tick (now : number) (s : state) : state :=
  let '(q, log) := dispatch_loop now (playbackQueue s) (sinkLog s) in
  State (midiOutput s) (nextClientId s) (records s) (clients s) q (counters s) log.

(** The 5 s summary timer. *)
Definition summary_tick (s : state) : state := set_counters (Counters 0 0) s.

(** ** ensureClient and the registry *)

Definition ensureClient (ws_clientId : option nat) (s : state) : nat * state :=
  let create :=
    let i := nextClientId s in
    (i, State (midiOutput s) (S i) (<[i := Client i false false [] (int 40) None]> (records s))
              ({[i]} ∪ clients s) (playbackQueue s) (counters s) (sinkLog s)) in
  match ws_clientId with
  | Some i =>
    if negb (Nat.eqb i 0) && bool_decide (i ∈ clients s) then (i, s) else create
  | None => create
  end.

(** The [close] handler of a socket: [clients.delete(ws._clientId)].  The
    peer connection of the record is closed, its [pc] field is not reset. *)
Definition onClose (ws_clientId : option nat) (s : state) : state :=
  match ws_clientId with
  | Some i =>
    State (midiOutput s) (nextClientId s) (records s) (clients s ∖ {[i]})
          (playbackQueue s) (counters s) (sinkLog s)
  | None => s
  end.

(** ** setupPeerForClient *)

(** [setupPeerForClient(c, offer)], as far as the record goes: a peer
    connection the record holds is closed and forgotten together with its
    data channel, and the new one is stored.  [created] tells whether
    [new RTCPeerConnection] returns; when it throws, the handler that made
    the call catches the exception. *)
Definition setupPeerForClient (c : client) (created : bool) : client :=
  let c1 := if pc c
            then Client (id c) false false (latencyHistory c) (bufferSizeMs c) (lastSeen c)
            else c in
  if created
  then Client (id c1) true (dc c1) (latencyHistory c1) (bufferSizeMs c1) (lastSeen c1)
  else c1.

(** [pc.ondatachannel] of the peer connection made for the record stored at
    [i]: [c.dc = evt.channel]. *)
Definition onDataChannel (i : nat) (s : state) : state :=
  match records s !! i with
  | Some c =>
    set_record i (Client (id c) (pc c) true (latencyHistory c) (bufferSizeMs c) (lastSeen c)) s
  | None => s
  end.

(** ** handlePerformancePacket *)

Definition is_type (v : jsval) (name : string) : bool := bool_decide (v = JStr name).

(** The events the [switch (obj.type)] inserts, in the order of the calls
    of insertEvent. *)
Definition scheduled_events (playAt : number) (obj : message) : list event :=
  let channel := js_or (msg_channel obj) (JInt 1) in
  if is_type (msg_type obj) "noteOn" then
    [ Event playAt (EvNoteOn channel (msg_note obj) (js_or (msg_velocity obj) (JInt 100)));
      Event (playAt + int 800) (EvNoteOff channel (msg_note obj)) ]
  else if is_type (msg_type obj) "noteOff" then
    [ Event playAt (EvNoteOff channel (msg_note obj)) ]
  else if is_type (msg_type obj) "controlChange" then
    [ Event playAt (EvCc channel (msg_control obj) (msg_value obj)) ]
  else if is_type (msg_type obj) "programChange" then
    [ Event playAt (EvProgram channel (msg_program obj)) ]
  else [].

(** [typeof obj.timestamp === 'number' ? obj.timestamp : now]. *)
Definition packet_timestamp (obj : message) (now : number) : number :=
  match msg_timestamp obj with
  | JNum t => t
  | _ => now
  end.

(** [push] followed by the trim to the last 200 samples. *)
Definition push_latency (history : list number) (latency : number) : list number :=
  let h := history ++ [latency] in
  if (200 <? length h)%nat then drop (length h - 200) h else h.

Definition buffer_for (history : list number) : number :=
  Z.max (int 10) (Z.min (int 300) (Math_round (percentile history 95 + SAFETY_MARGIN_MS))).

(** [handlePerformancePacket(c, msg)] for the record stored at [i] (no
    data channel routes to a record that was never allocated: the state is
    then left alone).  The clock is read twice: [seen] for [lastSeen] and
    [now] after parsing.  [None] is an exception that leaves the handler. *)
Definition handlePerformancePacket (i : nat) (seen now : number) (data : parsed) (s : state)
  : option state :=
  match records s !! i with
  | None => Some s
  | Some c =>
    let c1 := Client (id c) (pc c) (dc c) (latencyHistory c) (bufferSizeMs c) (Some seen) in
    let s1 := set_counters (Counters (wsImmediate (counters s)) (S (rtcPerf (counters s))))
                           (set_record i c1 s) in
    match data with
    | SyntaxError => Some s1
    | ParsedNull => None
    | Parsed obj =>
      let ts := packet_timestamp obj now in
      let latency := Z.max 0 (now - ts) in
      let history := push_latency (latencyHistory c1) latency in
      let c2 := Client (id c1) (pc c1) (dc c1) history (buffer_for history) (lastSeen c1) in
      let playAt := ts + bufferSizeMs c2 in
      Some (set_queue (foldl insertEvent (playbackQueue s1) (scheduled_events playAt obj))
                      (set_record i c2 s1))
    end
  end.

(** ** The WebSocket message handler *)

Definition bump_wsImmediate (s : state) : state :=
  set_counters (Counters (S (wsImmediate (counters s))) (rtcPerf (counters s))) s.

Definition handleTransportControl (action : jsval) (s : state) : state :=
  if negb (midiOutput s) then s
  else if is_type action "play" then invoke Immediate (sendTransport "start") s
  else if is_type action "stop" then invoke Immediate (sendTransport "stop") s
  else if is_type action "pause" then invoke Immediate (sendTransport "continue") s
  else if is_type action "record" then
    invoke Immediate (sendControlChange (JInt 1) (JInt 119) (JInt 127)) s
  else s.

(** [ws.on('message')] of the socket whose connection handler holds the
    record stored at [i] in its variable [client].  A webrtc-offer goes to
    setupPeerForClient, within a try block; client-hello (a reply on the
    socket), webrtc-ice-candidate (a call into the peer connection) and
    unknown types touch none of the modelled variables.  [None] is an
    exception that leaves the handler. *)
Definition onMessage (i : nat) (created : bool) (data : parsed) (s : state) : option state :=
  match data with
  | SyntaxError => Some s
  | ParsedNull => None
  | Parsed message =>
    let channel := js_or (msg_channel message) (JInt 1) in
    let t := msg_type message in
    if is_type t "noteOn" then
      Some (invoke Immediate
              (sendNoteOn channel (msg_note message) (js_or (msg_velocity message) (JInt 127)))
              (bump_wsImmediate s))
    else if is_type t "noteOff" then
      Some (invoke Immediate (sendNoteOff channel (msg_note message) (JInt 0))
              (bump_wsImmediate s))
    else if is_type t "controlChange" then
      Some (invoke Immediate
              (sendControlChange channel (msg_control message) (msg_value message))
              (bump_wsImmediate s))
    else if is_type t "programChange" then
      Some (invoke Immediate (sendProgramChange channel (msg_program message))
              (bump_wsImmediate s))
    else if is_type t "transport" then Some (handleTransportControl (msg_action message) s)
    else if is_type t "webrtc-offer" then
      match records s !! i with
      | Some c => Some (set_record i (setupPeerForClient c created) s)
      | None => Some s
      end
    else Some s
  end.

(** ** Runs of the server *)

Inductive input : Type :=
  | Connection (ws_clientId : option nat)
  | WsMessage (i : nat) (created : bool) (data : parsed)
  | WsClose (ws_clientId : option nat)
  | PeerDataChannel (i : nat)
  | DataChannelMessage (i : nat) (seen now : number) (data : parsed)
  | DispatcherTick (now : number)
  | SummaryTick.

(** One turn of the event loop; [None] when an exception escapes the
    handler (the process then exits). *)
Definition step (s : state) (e : input) : option state :=
  match e with
  | Connection ws => Some (ensureClient ws s).2
  | WsMessage i created data => onMessage i created data s
  | WsClose ws => Some (onClose ws s)
  | PeerDataChannel i => Some (onDataChannel i s)
  | DataChannelMessage i seen now data => handlePerformancePacket i seen now data s
  | DispatcherTick now => Some (dispatcher_tick now s)
  | SummaryTick => Some (summary_tick s)
  end.

Fixpoint run (s : state) (inputs : list input) : option state :=
  match inputs with
  | [] => Some s
  | e :: rest =>
    match step s e with
    | Some s' => run s' rest
    | None => None
    end
  end.

(** ** Telemetry: the 1 s stats broadcast *)

(** One entry of [clients] in a jcmp-stats frame.  [dcState] reads the
    state of the data channel from the WebRTC library and is left out. *)
Record client_stats : Type := ClientStats {
  stat_id : nat;
  stat_bufferSizeMs : number;
  stat_rttP95 : number;
  stat_rttAvg : number;
  stat_latencyHistory : list number;
  stat_lastSeen : option number
}.

(** [arr.slice(-n)]. *)
Definition slice_last (n : nat) (arr : list number) : list number :=
  drop (length arr - n) arr.

(** [Math.round(history.reduce((a, b) => a + b, 0) / history.length)], the
    quotient being the double nearest to the exact one. *)
Definition rtt_average (history : list number) : number :=
  match history with
  | [] => 0
  | _ => int (Binary64.round (Binary64.div (foldl Z.add 0 history)
                                           (Z.of_nat (length history) * (2 * half))))
  end.

Definition stats_of_client (c : client) : client_stats :=
  ClientStats (id c)
    (if bufferSizeMs c =? 0 then 0 else bufferSizeMs c)        (* c.bufferSizeMs || 0 *)
    (percentile (latencyHistory c) 95)
    (rtt_average (latencyHistory c))
    (slice_last 50 (latencyHistory c))
    (match lastSeen c with Some 0 => None | seen => seen end).  (* c.lastSeen || null *)

(** [Array.from(clients.values())].  A Map iterates in insertion order;
    keys are only ever inserted by ensureClient, as [nextClientId++], so
    that is the ascending order of the ids. *)
Definition clients_values (s : state) : list client :=
  omap (fun i => records s !! i) (merge_sort Nat.le (elements (clients s))).

Record stats_snapshot : Type := StatsSnapshot {
  serverTime : number;
  queueLength : nat;
  laneCounters : counters_t;
  stat_clients : list client_stats
}.

(** The object the 1 s timer serializes to every open socket. *)
Definition snapshot (now : number) (s : state) : stats_snapshot :=
  StatsSnapshot now (length (playbackQueue s)) (counters s)
                (map stats_of_client (clients_values s)).

(** ** connectMIDI *)

(** [name.includes(part)]. *)
Definition includes (name part : string) : bool :=
  match String.index 0 part name with
  | Some _ => true
  | None => false
  end.

Definition preferred_output (outputName : string) : bool :=
  includes outputName "loopMIDI" || includes outputName "MIDI Controller"
  || includes outputName "Virtual" || includes outputName "IAC".

(** What [midiOutput] ends up bound to. *)
Inductive midi_port : Type :=
  | ExistingOutput (name : string)
  | VirtualOutput (name : string).

(** The [for] loop over the enumerated outputs.  [opens k] tells whether
    [new easymidi.Output(outputs[k])] returns (it may throw); [k] is the
    position of the output the loop stands at. *)
Fixpoint connect_preferred (opens : nat -> bool) (k : nat) (outputs : list string)
  : option midi_port :=
  match outputs with
  | [] => None
  | outputName :: rest =>
    if preferred_output outputName && opens k then Some (ExistingOutput outputName)
    else connect_preferred opens (S k) rest
  end.

(** [connectMIDI()]: the port bound to [midiOutput], [None] when the
    function returns false.  [virtual_opens] and [fallback_opens] tell
    whether the virtual port and the fallback [outputs[0]] can be opened. *)
Definition connectMIDI (outputs : list string) (opens : nat -> bool)
           (virtual_opens fallback_opens : bool) : option midi_port :=
  match connect_preferred opens 0 outputs with
  | Some port => Some port
  | None =>
    if virtual_opens then Some (VirtualOutput "Web MIDI Controller")
    else
      match outputs with
      | first :: _ => if fallback_opens then Some (ExistingOutput first) else None
      | [] => None
      end
  end.

(** ** getLocalIP *)

Record net_address : Type := NetAddress {
  family : string;
  internal : bool;
  address : string
}.

Definition external_ipv4 (net : net_address) : bool :=
  bool_decide (family net = "IPv4") && negb (internal net).

(** The inner [for] loop, over the addresses of one interface. *)
Fixpoint first_external (nets : list net_address) : option string :=
  match nets with
  | [] => None
  | net :: rest => if external_ipv4 net then Some (address net) else first_external rest
  end.

(** [getLocalIP()]; [interfaces] is [os.networkInterfaces()] in the order
    of [Object.keys]. *)
Fixpoint getLocalIP (interfaces : list (string * list net_address)) : string :=
  match interfaces with
  | [] => "localhost"
  | (_, nets) :: rest =>
    match first_external nets with
    | Some a => a
    | None => getLocalIP rest
    end
  end.

(** ** The client: sendMIDI of the useJCMP hook *)

(** [msg.type === 'noteOn' || msg.type === 'noteOff' || msg.type ===
    'controlChange' || msg.type === 'programChange']. *)
Definition midi_type (t : jsval) : bool :=
  is_type t "noteOn" || is_type t "noteOff"
  || is_type t "controlChange" || is_type t "programChange".

(** What one call of sendMIDI reads from its surroundings: whether the data
    channel exists and is open, whether [dc.send] returns (it may throw),
    the [allowWSFallback] flag, and whether the WebSocket is open. *)
Record client_env : Type := ClientEnv {
  dc_open : bool;
  dc_send_returns : bool;
  allowWSFallback : bool;
  ws_ready : bool
}.

(** What the call does with the message. *)
Inductive client_action : Type :=
  | SentRTC (packet : message)     (* dcRef.current.send(JSON.stringify(packet)) *)
  | SentWS (msg : message)         (* ws.send(JSON.stringify(msg)) *)
  | Queued (packet : message)      (* pendingPerfRef.current.push(packet) *)
  | DroppedQueueFull (packet : message)
  | NotSent (msg : message).       (* safeSend on a socket that is not open *)

(** [{ ...msg, timestamp: Date.now() }]. *)
Definition with_timestamp (now : number) (msg : message) : message :=
  Message (msg_type msg) (JNum now) (msg_channel msg) (msg_note msg) (msg_velocity msg)
          (msg_control msg) (msg_value msg) (msg_program msg) (msg_action msg).

Definition safeSend (ready : bool) (obj : message) : client_action :=
  if ready then SentWS obj else NotSent obj.

Definition rtcOnly : bool := true.

(** [sendMIDI(msg)] with the queue [pendingPerfRef.current] before and
    after. *)
Definition sendMIDI (env : client_env) (now : number) (msg : message) (pending : list message)
  : client_action * list message :=
  if midi_type (msg_type msg) then
    let packet := with_timestamp now msg in
    if dc_open env && dc_send_returns env then (SentRTC packet, pending)
    else if rtcOnly && negb (allowWSFallback env) then
      if (length pending <? 256)%nat then (Queued packet, pending ++ [packet])
      else (DroppedQueueFull packet, pending)
    else (safeSend (ws_ready env) msg, pending)
  else (safeSend (ws_ready env) msg, pending).

(** A sequence of calls, each with what it reads. *)
Fixpoint sendMIDI_calls (calls : list (client_env * number * message)) (pending : list message)
  : list client_action * list message :=
  match calls with
  | [] => ([], pending)
  | (env, now, msg) :: rest =>
    let '(action, pending1) := sendMIDI env now msg pending in
    let '(actions, pending2) := sendMIDI_calls rest pending1 in
    (action :: actions, pending2)
  end.

(** * Notions used in the statements *)

Definition by_playAt (a b : event) : Prop := playAt a <= playAt b.

Definition queue_sorted (q : list event) : Prop := Sorted by_playAt q.

Definition not_late (now : number) (evt : event) : Prop := now - playAt evt <= LATE_DROP_MS.

Global Instance not_late_dec now evt : Decision (not_late now evt).
Proof. unfold not_late. apply _. Defined.

(** What the sink can observe of one call made by the tick that read [now],
    started on queue [q]. *)
Definition dispatched_from (now : number) (q : list event) (x : sink_entry) : Prop :=
  from x = Dispatcher now
  /\ exists pre evt,
       q = pre ++ evt :: queue_at_call x
       /\ call x = dispatch_call evt
       /\ playAt evt <= now <= playAt evt + LATE_DROP_MS.

Definition head_not_due (now : number) (q : list event) : Prop :=
  match q with
  | [] => True
  | evt :: _ => now < playAt evt
  end.

Definition buffers_in_range (s : state) : Prop :=
  forall i c, records s !! i = Some c -> int 10 <= bufferSizeMs c <= int 300.

Definition ids_below_next (s : state) : Prop :=
  forall i c, records s !! i = Some c -> (i < nextClientId s)%nat.

Definition clamp (x lo hi : number) : number :=
  if x <? lo then lo else if hi <? x then hi else x.

Definition ws_noteOn (channel note velocity : jsval) : message :=
  Message (JStr "noteOn") JUndefined channel note velocity
          JUndefined JUndefined JUndefined JUndefined.

(** A noteOn for [note] on channel 1 with velocity 100, stamped
    [timestamp]. *)
Definition perf_noteOn (timestamp : number) (note : Z) : message :=
  Message (JStr "noteOn") (JNum timestamp) (JInt 1) (JInt note) (JInt 100)
          JUndefined JUndefined JUndefined JUndefined.

(** A burst of noteOn packets for the record at [i]: the [k]-th arrives at
    clock [k] and carries a timestamp [ahead] milliseconds in the future. *)
Definition noteOn_burst (i : nat) (ahead : Z) (n : nat) : list input :=
  map (fun k => DataChannelMessage i (int (Z.of_nat k)) (int (Z.of_nat k))
                  (Parsed (perf_noteOn (int (ahead + Z.of_nat k)) 60)))
      (seq 0 n).

(** An offer on the WebSocket. *)
Definition webrtc_offer : message :=
  Message (JStr "webrtc-offer") JUndefined JUndefined JUndefined JUndefined
          JUndefined JUndefined JUndefined JUndefined.

(** A client connects, the server answers its offer, and the data channel
    of the client opens. *)
Definition joined : list input :=
  [ Connection None; WsMessage 1 true (Parsed webrtc_offer); PeerDataChannel 1 ].

(** One client is connected, its data channel is open. *)
Definition connected : state :=
  default (initial_state true) (run (initial_state true) joined).

(** The record of that client. *)
Definition new_client : client := Client 1 true true [] (int 40) None.

(** Scenario S2: a noteOn stamped 1000 arrives at server time 1030. *)
Definition s2_packet : message := perf_noteOn (int 1000) 60.

Definition s2_inputs : list input :=
  joined ++ [ DataChannelMessage 1 (int 1030) (int 1030) (Parsed s2_packet) ].

Definition s2_scheduled : state :=
  default connected (handlePerformancePacket 1 (int 1030) (int 1030) (Parsed s2_packet) connected).

(** The record of the client of scenario S2 after its first packet. *)
Definition s2_client : client :=
  Client 1 true true [int 30] (int 45) (Some (int 1030)).

(** The same packet stamped half a millisecond earlier, at 999.5. *)
Definition fractional_packet : message := perf_noteOn (int 999 + half) 60.

(** Scenario S5: packets stamped 1020 and 1000 arrive in that order. *)
Definition s5_inputs : list input :=
  joined
  ++ [ DataChannelMessage 1 (int 1020) (int 1020) (Parsed (perf_noteOn (int 1020) 62));
       DataChannelMessage 1 (int 1021) (int 1021) (Parsed (perf_noteOn (int 1000) 60)) ].

Definition s5_queued : state := default connected (run (initial_state true) s5_inputs).

(** The events of the two packets of scenario S5, the one stamped 1000 and
    the one stamped 1020. *)
Definition s5_stamped_1000 : event :=
  Event (int 1015) (EvNoteOn (JInt 1) (JInt 60) (JInt 100)).

Definition s5_stamped_1020 : event :=
  Event (int 1035) (EvNoteOn (JInt 1) (JInt 62) (JInt 100)).

(** Scenario S5 after a dispatcher tick at 1016. *)
Definition s5_ticked : state := dispatcher_tick (int 1016) s5_queued.

(** Scenario S1: the first message on the immediate lane. *)
Definition s1_message : message := ws_noteOn (JInt 1) (JInt 60) (JInt 100).

(** A NoteOff due together with the NoteOn of scenario S2. *)
Definition s2_tie : event := Event (int 1045) (EvNoteOff (JInt 1) (JInt 60)).

(** The inputs of a run that the lane counters count: the data-channel
    messages for a record that exists, and the WebSocket messages of one of
    the four MIDI types. *)
Definition counts_as_rtcPerf (allocated : gmap nat client) (e : input) : bool :=
  match e with
  | DataChannelMessage i _ _ _ => bool_decide (is_Some (allocated !! i))
  | _ => false
  end.

Definition counts_as_wsImmediate (e : input) : bool :=
  match e with
  | WsMessage _ _ (Parsed message) => midi_type (msg_type message)
  | _ => false
  end.

(** Inputs that neither reset the counters nor allocate a record. *)
Definition plain_traffic (e : input) : bool :=
  match e with
  | Connection _ | SummaryTick => false
  | _ => true
  end.

Definition registry_ok (s : state) : Prop :=
  (1 <= nextClientId s)%nat
  /\ (forall i c, records s !! i = Some c -> (1 <= i)%nat)
  /\ (forall i, i ∈ clients s -> is_Some (records s !! i)).

(** The fields of a record that the jitter buffer owns are those of
    another record. *)
Definition same_buffer_state (c c' : client) : Prop :=
  id c' = id c
  /\ latencyHistory c' = latencyHistory c
  /\ bufferSizeMs c' = bufferSizeMs c
  /\ lastSeen c' = lastSeen c.

(** Two notes played while the data channel is still closed. *)
Definition calls_before_open : list (client_env * number * message) :=
  [ (ClientEnv false false false true, int 10, perf_noteOn 0 60);
    (ClientEnv false false false true, int 20, perf_noteOn 0 62) ].

(** Some traffic after scenario S2: a datagram that is not JSON, a noteOn
    on the WebSocket, a noteOn datagram, a broken WebSocket frame, a tick,
    the close of the socket, a datagram on the channel that outlives it. *)
Definition s2_traffic : list input :=
  [ DataChannelMessage 1 (int 2000) (int 2000) SyntaxError;
    WsMessage 1 true (Parsed (ws_noteOn (JInt 1) (JInt 60) (JInt 100)));
    DataChannelMessage 1 (int 2010) (int 2010) (Parsed (perf_noteOn (int 2000) 64));
    WsMessage 1 true SyntaxError;
    DispatcherTick (int 2020);
    WsClose (Some 1%nat);
    DataChannelMessage 1 (int 2030) (int 2030) (Parsed (perf_noteOn (int 2025) 65)) ].

Definition s2_after_traffic : state :=
  default connected (run s2_scheduled (SummaryTick :: s2_traffic)).


(** A hello and a transport command on the WebSocket, and a datagram that
    has a timestamp and no type. *)
Definition client_hello : message :=
  Message (JStr "client-hello") JUndefined JUndefined JUndefined JUndefined
          JUndefined JUndefined JUndefined JUndefined.

Definition transport_pause : message :=
  Message (JStr "transport") JUndefined JUndefined JUndefined JUndefined
          JUndefined JUndefined JUndefined (JStr "pause").

Definition untyped_packet : message :=
  Message JUndefined (JInt 1000) JUndefined JUndefined JUndefined
          JUndefined JUndefined JUndefined JUndefined.

(** Scenario S2 after a second offer of the client has been answered. *)
Definition s2_offered : state :=
  set_record 1 (setupPeerForClient s2_client true) s2_scheduled.

(** What the summary reports about the client of scenario S2. *)
Definition s2_entry : client_stats :=
  ClientStats 1 (int 45) (int 30) (int 30) [int 30] (Some (int 1030)).

(** A window of four samples with one spike. *)
Definition calm_samples : list number := [int 20; int 31; int 25].

Definition spiked_window : list number := [int 20; int 900; int 31; int 25].

(** The outputs of a machine on which the second port is busy. *)
Definition midi_outputs : list string :=
  ["Microsoft GS Wavetable Synth"; "loopMIDI Port"; "IAC Driver Bus 1"].

Definition second_busy (k : nat) : bool := negb (k =? 1)%nat.

(** A browser whose data channel is open and whose fallback is off. *)
Definition rtc_env : client_env := ClientEnv true true false true.

(** * Properties *)

(** ** Numbers *)

Lemma half_pos : 0 < half.
Proof. unfold half. apply Z.pow_pos_nonneg; lia. Qed.

(** Linear arithmetic on numbers: integers are multiples of [2 * half]. *)
Ltac nlia :=
  pose proof half_pos;
  unfold LATE_DROP_MS, SAFETY_MARGIN_MS, int in *;
  lia.

Lemma int_inj (m n : Z) : int m = int n -> m = n.
Proof.
  unfold int. intros H. apply Z.mul_cancel_r in H; [done|]. pose proof half_pos. lia.
Qed.

Lemma int_le (m n : Z) : int m <= int n <-> m <= n.
Proof. unfold int. pose proof half_pos. symmetry. apply Z.mul_le_mono_pos_r. lia. Qed.

Lemma int_lt (m n : Z) : int m < int n <-> m < n.
Proof. unfold int. pose proof half_pos. symmetry. apply Z.mul_lt_mono_pos_r. lia. Qed.

Lemma Math_round_bounds (x : number) : x - half < Math_round x <= x + half.
Proof.
  unfold Math_round, int. pose proof half_pos.
  pose proof (Z.div_mod (x + half) (2 * half) ltac:(lia)).
  pose proof (Z.mod_pos_bound (x + half) (2 * half) ltac:(lia)).
  lia.
Qed.

Lemma Math_round_int (n : Z) : Math_round (int n) = int n.
Proof.
  unfold Math_round. f_equal. unfold int. pose proof half_pos.
  symmetry. apply (Z.div_unique _ _ n half); lia.
Qed.

Lemma Math_round_le_int (x : number) (n : Z) : x <= int n -> Math_round x <= int n.
Proof.
  intros Hx. unfold Math_round. pose proof half_pos.
  assert ((x + half) / (2 * half) <= n).
  { apply Z.lt_succ_r. apply Z.div_lt_upper_bound; [lia|]. unfold int in *. lia. }
  unfold int. nia.
Qed.

Lemma Math_round_ge_int (x : number) (n : Z) : int n <= x -> int n <= Math_round x.
Proof.
  intros Hx. unfold Math_round. pose proof half_pos.
  assert (n <= (x + half) / (2 * half)).
  { apply Z.div_le_lower_bound; [lia|]. unfold int in *. lia. }
  unfold int. nia.
Qed.

(** Math.round on two familiar values: 45.5 goes up to 46, and so does
    -2.5, to -2. *)
Example Math_round_45_5 : Math_round (int 45 + half) = int 46.
Proof. vm_compute. reflexivity. Qed.

Example Math_round_minus_2_5 : Math_round (- int 2 - half) = - int 2.
Proof. vm_compute. reflexivity. Qed.

(** ** The percentile index in double arithmetic *)

(** The model of binary64 on two familiar values: 0.95 is
    [0x1.e666666666666p-1], and [0.1 * 3] is [0.30000000000000004]. *)
Example binary64_095 : Binary64.div 95 100 = (8556839292003942, -53).
Proof. vm_compute. reflexivity. Qed.

Example binary64_01_times_3 :
  Binary64.mul_int (Binary64.div 1 10) 3 = (5404319552844596, -54).
Proof. vm_compute. reflexivity. Qed.

(** Double arithmetic does not always give the exact floor: for the 29th
    percentile of 101 samples it gives index 28, the exact one being 29. *)
Example binary64_index_29_of_101 :
  percentile_index 29 101 = 28%nat /\ 29 * (101 - 1) / 100 = 29.
Proof. split; vm_compute; reflexivity. Qed.

(** For every window the server can hold (1 to 200 samples), the index that
    [percentile(arr, 95)] computes is the exact
    [floor(95 * (len - 1) / 100)]. *)
Lemma percentile_index_binary64 (len : nat) :
  (1 <= len <= 200)%nat ->
  Binary64.floor_percent_of 95 (Z.of_nat len - 1) = 95 * (Z.of_nat len - 1) / 100.
Proof.
  intros Hlen.
  assert (Hall : forallb (fun n => Binary64.floor_percent_of 95 (Z.of_nat n - 1)
                                   =? 95 * (Z.of_nat n - 1) / 100) (seq 1 200) = true)
    by (vm_compute; reflexivity).
  rewrite forallb_forall in Hall.
  apply Z.eqb_eq, Hall, in_seq. lia.
Qed.

Lemma rne_le (a b K : Z) : 0 < b -> a <= K * b -> Binary64.rne a b <= K.
Proof.
  intros Hb Ha. unfold Binary64.rne.
  pose proof (Z.div_mod a b ltac:(lia)) as Hdm.
  pose proof (Z.mod_pos_bound a b Hb) as Hr.
  assert (Hq : a / b <= K) by (apply Z.div_le_upper_bound; lia).
  destruct (Z.eq_dec (a / b) K) as [Heq|Hne].
  - assert (a mod b = 0) by nia.
    replace (2 * (a mod b) <? b) with true by (symmetry; apply Z.ltb_lt; lia). lia.
  - repeat case_match; lia.
Qed.

Lemma rne_le_succ (a b : Z) : 0 < b -> Binary64.rne a b <= a / b + 1.
Proof. intros Hb. unfold Binary64.rne. repeat case_match; lia. Qed.

(** Whatever exponent the rounding settles on, 0.95 times [n] is not
    rounded beyond [n]. *)
Lemma floor_scaled_le (n e : Z) :
  0 <= n ->
  (0 <= e -> 2 ^ (e + 104) <= 8556839292003942 * n) ->
  Binary64.floor (Binary64.scaled (8556839292003942 * n) (2 ^ 53) e, e) <= n.
Proof.
  intros Hn Hbig. unfold Binary64.floor, Binary64.scaled.
  destruct (0 <=? e) eqn:He.
  - apply Z.leb_le in He. specialize (Hbig He).
    rewrite Z.pow_add_r in Hbig by lia.
    assert (HP : 0 < 2 ^ e) by (apply Z.pow_pos_nonneg; lia).
    set (P := 2 ^ e) in *.
    pose proof (rne_le_succ (8556839292003942 * n) (2 ^ 53 * P) ltac:(lia)) as Hm.
    set (m := Binary64.rne _ _) in *.
    pose proof (Z.mul_div_le (8556839292003942 * n) (2 ^ 53 * P) ltac:(lia)) as Hq.
    set (q := _ / _) in *.
    change (2 ^ 53) with 9007199254740992 in *.
    change (2 ^ 104) with 20282409603651670423947251286016 in *.
    assert (m * P <= q * P + P) by nia.
    nia.
  - apply Z.leb_gt in He.
    assert (HP : 0 < 2 ^ (- e)) by (apply Z.pow_pos_nonneg; lia).
    apply Z.div_le_upper_bound; [done|].
    apply rne_le; [lia|]. change (2 ^ 53) with 9007199254740992. nia.
Qed.

Lemma floor_percent_of_95_le (n : Z) : 0 <= n -> Binary64.floor_percent_of 95 n <= n.
Proof.
  intros Hn. unfold Binary64.floor_percent_of.
  replace (Binary64.div 95 100) with (8556839292003942, -53) by (vm_compute; reflexivity).
  unfold Binary64.mul_int.
  replace (0 <=? -53) with false by reflexivity.
  replace (- -53) with 53 by reflexivity.
  unfold Binary64.of_ratio.
  destruct (8556839292003942 * n =? 0) eqn:Hz; [simpl; lia|].
  apply Z.eqb_neq in Hz.
  assert (Hpos : 0 < 8556839292003942 * n) by lia.
  pose proof (Z.log2_spec _ Hpos) as [Hlog _].
  replace (Z.log2 (2 ^ 53)) with 53 by reflexivity.
  set (a := 8556839292003942 * n) in *.
  set (e := Z.log2 a - 53 - 53).
  assert (Hbig : forall e', e' <= e + 2 -> 0 <= e' -> 2 ^ (e' + 104) <= a).
  { intros e' He' H0. etransitivity; [|exact Hlog].
    apply Z.pow_le_mono_r; lia. }
  repeat case_match; simplify_eq; apply floor_scaled_le; try done; intros; apply Hbig; lia.
Qed.

(** The index is inside the array, however long the array is. *)
Lemma percentile_index_lt (len : nat) :
  (0 < len)%nat -> (percentile_index 95 len < len)%nat.
Proof.
  intros Hlen. unfold percentile_index.
  pose proof (floor_percent_of_95_le (Z.of_nat len - 1) ltac:(lia)). lia.
Qed.

(** ** The playback queue *)

Global Instance by_playAt_trans : Transitive by_playAt.
Proof. unfold by_playAt. intros a b c ? ?. lia. Qed.

Lemma insert_position_spec (q : list event) (evt : event) (k : nat) :
  let p := insert_position q evt k in
  (p <= k)%nat
  /\ (forall j x, (p <= j < k)%nat -> q !! j = Some x -> playAt evt < playAt x)
  /\ (forall x, q !! (p - 1)%nat = Some x -> (0 < p)%nat -> (k <= length q)%nat ->
                playAt x <= playAt evt).
Proof.
  induction k as [|i IH]; simpl.
  - repeat split; intros; lia.
  - destruct (q !! i) as [x|] eqn:Hx.
    + destruct (playAt evt <? playAt x) eqn:Hcmp.
      * destruct IH as (Hle & Habove & Hbelow).
        split; [lia|]. split.
        -- intros j y Hj Hy. destruct (decide (j = i)) as [->|Hne].
           ++ rewrite Hx in Hy. inversion Hy; subst. lia.
           ++ apply (Habove j y); [lia|done].
        -- intros y Hy Hp Hk. apply Hbelow; [done|done|lia].
      * split; [lia|]. split.
        -- intros j y Hj. lia.
        -- intros y Hy _ _. replace (S i - 1)%nat with i in Hy by lia.
           rewrite Hx in Hy. inversion Hy; subst. lia.
    + split; [lia|]. split.
      * intros j y Hj. lia.
      * intros y Hy _ Hk. apply lookup_ge_None in Hx. lia.
Qed.

(** insertEvent splits the queue in two and puts the event in between: the
    part behind it is strictly later, the entry just before it is not. *)
Lemma insertEvent_split (q : list event) (evt : event) :
  exists l1 l2,
    q = l1 ++ l2
    /\ insertEvent q evt = l1 ++ evt :: l2
    /\ Forall (fun x => playAt evt < playAt x) l2
    /\ (forall x, last l1 = Some x -> playAt x <= playAt evt).
Proof.
  unfold insertEvent.
  destruct (insert_position_spec q evt (length q)) as (Hle & Habove & Hbelow).
  set (p := insert_position q evt (length q)) in *.
  exists (take p q), (drop p q).
  split; [by rewrite take_drop|]. split; [done|]. split.
  - apply Forall_lookup. intros j x Hj. rewrite lookup_drop in Hj.
    apply (Habove (p + j)%nat x); [|done].
    apply lookup_lt_Some in Hj. lia.
  - intros x Hx. rewrite last_lookup in Hx.
    rewrite length_take in Hx.
    replace (Nat.pred (p `min` length q)) with (p - 1)%nat in Hx by lia.
    destruct (decide (p = 0%nat)) as [Hp|Hp].
    + rewrite Hp in Hx. by rewrite take_0 in Hx.
    + rewrite lookup_take_lt in Hx by lia. apply Hbelow; [done|lia|lia].
Qed.

Lemma insertEvent_Permutation (q : list event) (evt : event) :
  insertEvent q evt ≡ₚ evt :: q.
Proof.
  destruct (insertEvent_split q evt) as (l1 & l2 & -> & -> & _).
  by rewrite Permutation_middle.
Qed.

Lemma insertEvent_length (q : list event) (evt : event) :
  length (insertEvent q evt) = S (length q).
Proof. by rewrite insertEvent_Permutation. Qed.

Lemma sorted_strongly (q : list event) : queue_sorted q <-> StronglySorted by_playAt q.
Proof.
  split; [apply Sorted_StronglySorted, _ | apply StronglySorted_Sorted].
Qed.

Lemma strongly_sorted_last_bound (l1 l2 : list event) (b : Z) :
  StronglySorted by_playAt (l1 ++ l2) ->
  (forall x, last l1 = Some x -> playAt x <= b) ->
  Forall (fun x => playAt x <= b) l1.
Proof.
  intros Hs Hlast.
  destruct (last l1) as [y|] eqn:Hy.
  - apply last_Some in Hy as [l' ->].
    specialize (Hlast y eq_refl).
    apply StronglySorted_app_1_l in Hs.
    apply StronglySorted_app in Hs as (Hcross & _ & _).
    apply Forall_app. split; [|by repeat constructor].
    apply Forall_forall. intros x Hx.
    specialize (Hcross x y Hx). unfold by_playAt in Hcross.
    assert (playAt x <= playAt y) by (apply Hcross, list_elem_of_here). lia.
  - apply last_None in Hy. subst. constructor.
Qed.

Lemma insertEvent_split_sorted (q : list event) (evt : event) :
  queue_sorted q ->
  exists l1 l2,
    q = l1 ++ l2
    /\ insertEvent q evt = l1 ++ evt :: l2
    /\ Forall (fun x => playAt x <= playAt evt) l1
    /\ Forall (fun x => playAt evt < playAt x) l2.
Proof.
  intros Hs. apply sorted_strongly in Hs.
  destruct (insertEvent_split q evt) as (l1 & l2 & Hq & Hins & Hl2 & Hlast).
  exists l1, l2. repeat split; try done.
  subst q. by eapply strongly_sorted_last_bound.
Qed.

Lemma insertEvent_sorted (q : list event) (evt : event) :
  queue_sorted q -> queue_sorted (insertEvent q evt).
Proof.
  intros Hs.
  destruct (insertEvent_split_sorted q evt Hs) as (l1 & l2 & Hq & -> & Hl1 & Hl2).
  apply sorted_strongly in Hs. apply sorted_strongly. subst q.
  apply StronglySorted_app in Hs as (Hcross & Hs1 & Hs2).
  apply StronglySorted_app. repeat split; try done.
  - intros x1 x2 Hx1 Hx2. apply elem_of_cons in Hx2 as [->|Hx2].
    + by eapply (proj1 (Forall_forall _ _) Hl1).
    + by apply Hcross.
  - constructor; [done|].
    eapply Forall_impl; [exact Hl2|]. unfold by_playAt. intros; simpl in *; lia.
Qed.

(** ** The dispatcher loop *)

Lemma dispatch_loop_spec (now : number) (q : list event) :
  forall log q' log',
    dispatch_loop now q log = (q', log') ->
    exists popped entries,
      q = popped ++ q'
      /\ log' = log ++ entries
      /\ Forall (fun evt => playAt evt <= now) popped
      /\ head_not_due now q'
      /\ map call entries = map dispatch_call (filter (not_late now) popped)
      /\ Forall (dispatched_from now q) entries.
Proof.
  induction q as [|evt rest IH]; intros log q' log' Hrun; simpl in Hrun.
  - inversion Hrun; subst. exists [], [].
    repeat split; simpl; rewrite ?app_nil_r; auto.
  - destruct (playAt evt <=? now) eqn:Hdue.
    + apply Z.leb_le in Hdue.
      assert (Hlift : forall entries,
                 Forall (dispatched_from now rest) entries ->
                 Forall (dispatched_from now (evt :: rest)) entries).
      { intros entries Hent. eapply Forall_impl; [exact Hent|].
        intros x (Hfrom & pre & e & Hq & Hcall & Hwin).
        split; [done|]. exists (evt :: pre), e. by rewrite Hq. }
      destruct (LATE_DROP_MS <? now - playAt evt) eqn:Hlate.
      * apply Z.ltb_lt in Hlate.
        destruct (IH _ _ _ Hrun) as (popped & entries & Hq & Hlog & Hpop & Hhd & Hcalls & Hent).
        exists (evt :: popped), entries. repeat split; try done.
        -- by rewrite Hq.
        -- by constructor.
        -- rewrite filter_cons_False; [done|]. unfold not_late. lia.
        -- by apply Hlift.
      * apply Z.ltb_ge in Hlate.
        destruct (IH _ _ _ Hrun) as (popped & entries & Hq & Hlog & Hpop & Hhd & Hcalls & Hent).
        exists (evt :: popped),
               (SinkEntry (dispatch_call evt) (Dispatcher now) rest :: entries).
        repeat split; try done.
        -- by rewrite Hq.
        -- rewrite Hlog, <- app_assoc. done.
        -- by constructor.
        -- rewrite filter_cons_True by done. simpl. by rewrite Hcalls.
        -- constructor; [|by apply Hlift].
           split; [done|]. exists [], evt. simpl. repeat split; try done. lia.
    + apply Z.leb_gt in Hdue. inversion Hrun; subst.
      exists [], []. repeat split; simpl; rewrite ?app_nil_r; auto.
Qed.

(** On a sorted queue the loop leaves nothing that is due. *)
Lemma head_not_due_sorted (now : number) (q : list event) :
  queue_sorted q -> head_not_due now q -> Forall (fun evt => now < playAt evt) q.
Proof.
  intros Hs Hhd. apply sorted_strongly in Hs.
  destruct q as [|evt rest]; [constructor|].
  simpl in Hhd. apply StronglySorted_cons in Hs as [Hall _].
  constructor; [done|].
  eapply Forall_impl; [exact Hall|]. unfold by_playAt. intros; simpl in *; lia.
Qed.

Lemma queue_sorted_suffix (l1 l2 : list event) :
  queue_sorted (l1 ++ l2) -> queue_sorted l2.
Proof.
  intros Hs. apply sorted_strongly in Hs. apply sorted_strongly.
  by apply StronglySorted_app_1_r in Hs.
Qed.

Lemma dispatcher_tick_spec (now : number) (s : state) :
  exists popped entries,
    playbackQueue s = popped ++ playbackQueue (dispatcher_tick now s)
    /\ sinkLog (dispatcher_tick now s) = sinkLog s ++ entries
    /\ Forall (fun evt => playAt evt <= now) popped
    /\ head_not_due now (playbackQueue (dispatcher_tick now s))
    /\ map call entries = map dispatch_call (filter (not_late now) popped)
    /\ Forall (dispatched_from now (playbackQueue s)) entries.
Proof.
  unfold dispatcher_tick.
  destruct (dispatch_loop now (playbackQueue s) (sinkLog s)) as [q' log'] eqn:Hloop.
  simpl. by apply dispatch_loop_spec.
Qed.

(** ** Invariants of the runs *)

Lemma buffer_for_range (history : list number) :
  int 10 <= buffer_for history <= int 300.
Proof. unfold buffer_for. nlia. Qed.

Lemma foldl_insertEvent_sorted (evts q : list event) :
  queue_sorted q -> queue_sorted (foldl insertEvent q evts).
Proof.
  revert q. induction evts as [|e evts IH]; intros q Hs; simpl; [done|].
  by apply IH, insertEvent_sorted.
Qed.

Lemma foldl_insertEvent_Permutation (evts q : list event) :
  foldl insertEvent q evts ≡ₚ evts ++ q.
Proof.
  revert q. induction evts as [|e evts IH]; intros q; simpl; [done|].
  rewrite IH, insertEvent_Permutation. by rewrite Permutation_middle.
Qed.

(** What a frame on the WebSocket can change: the sink log, [wsImmediate],
    and, through setupPeerForClient, the record of its socket. *)
Lemma onMessage_frame (i : nat) (created : bool) (data : parsed) (s s' : state) :
  onMessage i created data s = Some s' ->
  playbackQueue s' = playbackQueue s
  /\ clients s' = clients s
  /\ nextClientId s' = nextClientId s
  /\ (records s' = records s
      \/ exists c message,
           data = Parsed message
           /\ msg_type message = JStr "webrtc-offer"
           /\ records s !! i = Some c
           /\ records s' = <[i := setupPeerForClient c created]> (records s)).
Proof.
  unfold onMessage. intros H.
  destruct data as [| |m]; [inversion H; subst; split_and!; auto|done|].
  destruct (is_type (msg_type m) "noteOn");
    [inversion H; subst; simpl; split_and!; auto|].
  destruct (is_type (msg_type m) "noteOff");
    [inversion H; subst; simpl; split_and!; auto|].
  destruct (is_type (msg_type m) "controlChange");
    [inversion H; subst; simpl; split_and!; auto|].
  destruct (is_type (msg_type m) "programChange");
    [inversion H; subst; simpl; split_and!; auto|].
  destruct (is_type (msg_type m) "transport").
  { unfold handleTransportControl in H.
    repeat case_match; inversion H; subst; simpl; split_and!; auto. }
  destruct (is_type (msg_type m) "webrtc-offer") eqn:Hoffer;
    [|inversion H; subst; split_and!; auto].
  apply bool_decide_eq_true in Hoffer.
  destruct (records s !! i) as [c|] eqn:Hc; inversion H; subst; simpl;
    split_and!; auto.
  right. by exists c, m.
Qed.

Lemma setupPeerForClient_fields (c : client) (created : bool) :
  same_buffer_state c (setupPeerForClient c created).
Proof. unfold setupPeerForClient, same_buffer_state. by repeat case_match. Qed.

Lemma onMessage_unchanged (i : nat) (created : bool) (data : parsed) (s s' : state) :
  onMessage i created data s = Some s' ->
  playbackQueue s' = playbackQueue s
  /\ forall j c', records s' !! j = Some c' ->
                  exists c, records s !! j = Some c /\ same_buffer_state c c'.
Proof.
  intros H. destruct (onMessage_frame _ _ _ _ _ H) as (Hq & _ & _ & Hr).
  split; [done|]. intros j c' Hj.
  destruct Hr as [Hr|(c & m & _ & _ & Hc & Hr)]; rewrite Hr in Hj.
  - exists c'. by split.
  - rewrite lookup_insert in Hj. case_decide.
    + inversion Hj; subst. exists c. split; [done|apply setupPeerForClient_fields].
    + exists c'. by split.
Qed.

Lemma onDataChannel_unchanged (i : nat) (s : state) :
  playbackQueue (onDataChannel i s) = playbackQueue s
  /\ clients (onDataChannel i s) = clients s
  /\ nextClientId (onDataChannel i s) = nextClientId s
  /\ counters (onDataChannel i s) = counters s
  /\ sinkLog (onDataChannel i s) = sinkLog s
  /\ forall j c', records (onDataChannel i s) !! j = Some c' ->
                  exists c, records s !! j = Some c /\ same_buffer_state c c'.
Proof.
  unfold onDataChannel. destruct (records s !! i) as [c|] eqn:Hc; simpl.
  - repeat split; try done. intros j c' Hj.
    rewrite lookup_insert in Hj. case_decide.
    + inversion Hj; subst. by exists c.
    + exists c'. by split.
  - repeat split; try done. intros j c' Hj. exists c'. by split.
Qed.

Lemma step_sorted (s s' : state) (e : input) :
  queue_sorted (playbackQueue s) -> step s e = Some s' -> queue_sorted (playbackQueue s').
Proof.
  intros Hs Hstep.
  destruct e as [ws|i created data|ws|i|i seen now data|now|]; simpl in Hstep.
  - inversion Hstep; subst. unfold ensureClient. by repeat case_match.
  - apply onMessage_unchanged in Hstep as [-> _]. done.
  - inversion Hstep; subst. unfold onClose. by case_match.
  - inversion Hstep; subst. by destruct (onDataChannel_unchanged i s) as [-> _].
  - unfold handlePerformancePacket in Hstep.
    destruct (records s !! i) as [c|]; [|by inversion Hstep; subst].
    destruct data as [| |obj]; [by inversion Hstep; subst|done|].
    inversion Hstep; subst. simpl. by apply foldl_insertEvent_sorted.
  - inversion Hstep; subst.
    destruct (dispatcher_tick_spec now s) as (popped & entries & Hq & _).
    rewrite Hq in Hs. by eapply queue_sorted_suffix.
  - by inversion Hstep; subst.
Qed.

Lemma step_buffers (s s' : state) (e : input) :
  buffers_in_range s -> step s e = Some s' -> buffers_in_range s'.
Proof.
  intros Hb Hstep.
  destruct e as [ws|i created data|ws|i|i seen now data|now|]; simpl in Hstep.
  - inversion Hstep; subst. unfold ensureClient.
    assert (Hnew : buffers_in_range
              (State (midiOutput s) (S (nextClientId s))
                 (<[nextClientId s := Client (nextClientId s) false false [] (int 40) None]>
                    (records s))
                 ({[nextClientId s]} ∪ clients s) (playbackQueue s) (counters s) (sinkLog s))).
    { intros j c. simpl. rewrite lookup_insert. case_decide.
      - intros [= <-]. simpl. nlia.
      - apply Hb. }
    by repeat case_match.
  - apply onMessage_unchanged in Hstep as [_ Hr]. intros j c' Hj.
    destruct (Hr j c' Hj) as (c & Hc & _ & _ & -> & _). by apply (Hb j).
  - inversion Hstep; subst. unfold onClose. by case_match.
  - inversion Hstep; subst. intros j c' Hj.
    destruct (onDataChannel_unchanged i s) as (_ & _ & _ & _ & _ & Hr).
    destruct (Hr j c' Hj) as (c & Hc & _ & _ & -> & _). by apply (Hb j).
  - unfold handlePerformancePacket in Hstep.
    destruct (records s !! i) as [c|] eqn:Hc; [|by inversion Hstep; subst].
    destruct data as [| |obj]; [|done|].
    + inversion Hstep; subst. intros j c'. simpl. rewrite lookup_insert. case_decide.
      * intros [= <-]. simpl. by apply (Hb i).
      * apply Hb.
    + inversion Hstep; subst. intros j c'. simpl.
      rewrite lookup_insert. case_decide.
      * intros [= <-]. simpl. apply buffer_for_range.
      * rewrite lookup_insert. case_decide; [done|]. apply Hb.
  - inversion Hstep; subst. unfold dispatcher_tick.
    destruct (dispatch_loop now (playbackQueue s) (sinkLog s)). done.
  - by inversion Hstep; subst.
Qed.

Lemma run_invariant (P : state -> Prop) :
  (forall s e s', P s -> step s e = Some s' -> P s') ->
  forall inputs s s', P s -> run s inputs = Some s' -> P s'.
Proof.
  intros Hstep. induction inputs as [|e rest IH]; intros s s' HP Hrun; simpl in Hrun.
  - by inversion Hrun; subst.
  - destruct (step s e) as [s1|] eqn:Hs1; [|done]. eauto.
Qed.

Lemma run_sorted (midi : bool) (inputs : list input) (s : state) :
  run (initial_state midi) inputs = Some s -> queue_sorted (playbackQueue s).
Proof.
  apply (run_invariant (fun s => queue_sorted (playbackQueue s))).
  - intros ? ? ?. apply step_sorted.
  - constructor.
Qed.

Lemma run_buffers (midi : bool) (inputs : list input) (s : state) :
  run (initial_state midi) inputs = Some s -> buffers_in_range s.
Proof.
  apply (run_invariant buffers_in_range).
  - intros ? ? ?. apply step_buffers.
  - intros i c. simpl. by rewrite lookup_empty.
Qed.

(** ** C1: dispatch window, late drop, removal before the sink call *)

(** C1.  One tick of the dispatcher, reading [now] from the clock, shifts a
    prefix [popped] of the queue, all of it due.  The sink calls it makes
    are those of the popped events that are at most 50 ms late, in queue
    order; a popped event that is more than 50 ms late produces no call.
    Every call is made at dispatch time [now] with
    [playAt <= now <= playAt + 50] for its event, and at the moment of the
    call the queue holds only what followed that event: the event has
    already been removed. *)
Theorem dispatcher_window_and_late_drop (now : number) (s : state) :
  exists popped entries,
    playbackQueue s = popped ++ playbackQueue (dispatcher_tick now s)
    /\ sinkLog (dispatcher_tick now s) = sinkLog s ++ entries
    /\ Forall (fun evt => playAt evt <= now) popped
    /\ head_not_due now (playbackQueue (dispatcher_tick now s))
    /\ map call entries
       = map dispatch_call (filter (fun evt => now - playAt evt <= int 50) popped)
    /\ Forall (fun x =>
          from x = Dispatcher now
          /\ exists pre evt,
               playbackQueue s = pre ++ evt :: queue_at_call x
               /\ call x = dispatch_call evt
               /\ playAt evt <= now <= playAt evt + int 50) entries.
Proof.
  destruct (dispatcher_tick_spec now s)
    as (popped & entries & Hq & Hlog & Hdue & Hhd & Hcalls & Hent).
  exists popped, entries. repeat split; try done.
Qed.

(** ** C3: the buffer depth after a latency sample *)

Lemma clamp_max_min (x : number) :
  Z.max (int 10) (Z.min (int 300) x) = clamp x (int 10) (int 300).
Proof. unfold clamp. repeat case_match; nlia. Qed.

Lemma push_latency_length (history : list number) (latency : number) :
  (1 <= length (push_latency history latency) <= 200)%nat.
Proof.
  unfold push_latency. case_match eqn:Hlen.
  - apply Nat.ltb_lt in Hlen. rewrite length_drop. rewrite length_app in *. simpl in *. lia.
  - apply Nat.ltb_ge in Hlen. rewrite length_app in *. simpl in *. lia.
Qed.

Lemma push_latency_last (history : list number) (latency : number) :
  last (push_latency history latency) = Some latency.
Proof.
  unfold push_latency. case_match eqn:Hlen.
  - apply Nat.ltb_lt in Hlen. rewrite last_lookup, length_drop, lookup_drop.
    rewrite length_app in *. simpl in *.
    replace (length history + 1 - 200 + Nat.pred (length history + 1 - (length history + 1 - 200)))%nat
      with (length history) by lia.
    by rewrite list_lookup_middle.
  - by rewrite last_snoc.
Qed.

(** [percentile] returns the entry of the sorted window at the index double
    arithmetic gives for [Math.floor(0.95 * (len - 1))]. *)
Lemma percentile_spec (arr : list number) :
  arr <> [] ->
  exists sorted,
    Sorted Z.le sorted
    /\ sorted ≡ₚ arr
    /\ sorted !! Z.to_nat (Binary64.floor_percent_of 95 (Z.of_nat (length sorted) - 1))
       = Some (percentile arr 95).
Proof.
  intros Hne. exists (merge_sort Z.le arr).
  split; [apply (Sorted_merge_sort Z.le)|].
  split; [apply merge_sort_Permutation|].
  unfold percentile. destruct arr as [|a arr]; [done|].
  set (sorted := merge_sort Z.le (a :: arr)).
  assert (Hlen : (0 < length sorted)%nat).
  { unfold sorted. rewrite merge_sort_Permutation. simpl. lia. }
  pose proof (percentile_index_lt _ Hlen) as Hidx.
  unfold percentile_index in *.
  apply lookup_lt_is_Some_2 in Hidx as [x Hx].
  rewrite Hx. f_equal. symmetry. by apply nth_lookup_Some with (d := 0).
Qed.

Lemma percentile_singleton (sample : number) : percentile [sample] 95 = sample.
Proof. reflexivity. Qed.

(** What a well-formed packet does to the record it arrives for. *)
Lemma handlePerformancePacket_parsed (i : nat) (seen now : number) (obj : message)
      (s : state) (c : client) :
  records s !! i = Some c ->
  let ts := packet_timestamp obj now in
  let history := push_latency (latencyHistory c) (Z.max 0 (now - ts)) in
  let c' := Client (id c) (pc c) (dc c) history (buffer_for history) (Some seen) in
  handlePerformancePacket i seen now (Parsed obj) s
  = Some (State (midiOutput s) (nextClientId s)
            (<[i := c']>
               (<[i := Client (id c) (pc c) (dc c) (latencyHistory c) (bufferSizeMs c)
                              (Some seen)]> (records s)))
            (clients s)
            (foldl insertEvent (playbackQueue s)
                   (scheduled_events (ts + buffer_for history) obj))
            (Counters (wsImmediate (counters s)) (S (rtcPerf (counters s))))
            (sinkLog s)).
Proof. intros Hc. unfold handlePerformancePacket. rewrite Hc. reflexivity. Qed.

(** A packet stamped 999.5 that arrives at 1030 is the first sample of the
    window, 30.5: the buffer depth becomes 46, which is not
    [clamp(sample + 15, 10, 300)] = 45.5. *)
Lemma fractional_sample_counterexample :
  exists s' c',
    handlePerformancePacket 1 (int 1030) (int 1030) (Parsed fractional_packet) connected
    = Some s'
    /\ records s' !! 1%nat = Some c'
    /\ latencyHistory c' = [int 30 + half]
    /\ bufferSizeMs c' = int 46
    /\ clamp (int 30 + half + int 15) (int 10) (int 300) = int 45 + half
    /\ bufferSizeMs c' <> clamp (int 30 + half + int 15) (int 10) (int 300).
Proof.
  eexists _, _. split; [vm_compute; reflexivity|].
  split; [vm_compute; reflexivity|]. cbn [latencyHistory bufferSizeMs].
  split; [vm_compute; reflexivity|]. split; [vm_compute; reflexivity|].
  assert (Hclamp : clamp (int 30 + half + int 15) (int 10) (int 300) = int 45 + half)
    by (vm_compute; reflexivity).
  split; [exact Hclamp|]. rewrite Hclamp.
  replace (buffer_for (push_latency [] (Z.max 0 (int 1030 - packet_timestamp fractional_packet (int 1030)))))
    with (int 46) by (vm_compute; reflexivity).
  nlia.
Qed.

(** C3 (amended).  After a performance packet has added its latency sample
    to the window of the client it arrived for, that client's
    [bufferSizeMs] is [clamp(round(p95 + 15), 10, 300)], where [p95] is the
    entry at index [floor(0.95 * (len - 1))] of the sorted window; the
    index is the one double arithmetic gives.  For a window of one sample,
    [p95] is that sample and the buffer is
    [clamp(round(sample + 15), 10, 300)], which is
    [clamp(sample + 15, 10, 300)] when the sample is a whole number of
    milliseconds. *)
Theorem buffer_depth_after_sample (i : nat) (seen now : number) (obj : message)
        (s : state) (c : client) :
  records s !! i = Some c ->
  exists s' c' sorted p95,
    handlePerformancePacket i seen now (Parsed obj) s = Some s'
    /\ records s' !! i = Some c'
    /\ latencyHistory c'
       = push_latency (latencyHistory c) (Z.max 0 (now - packet_timestamp obj now))
    /\ Sorted Z.le sorted
    /\ sorted ≡ₚ latencyHistory c'
    /\ sorted !! Z.to_nat (95 * (Z.of_nat (length sorted) - 1) / 100) = Some p95
    /\ Binary64.floor_percent_of 95 (Z.of_nat (length sorted) - 1)
       = 95 * (Z.of_nat (length sorted) - 1) / 100
    /\ p95 = percentile (latencyHistory c') 95
    /\ bufferSizeMs c' = clamp (Math_round (p95 + int 15)) (int 10) (int 300)
    /\ (forall sample, latencyHistory c' = [sample] ->
          p95 = sample
          /\ bufferSizeMs c' = clamp (Math_round (sample + int 15)) (int 10) (int 300)
          /\ (forall n, sample = int n ->
                bufferSizeMs c' = clamp (sample + int 15) (int 10) (int 300))).
Proof.
  intros Hc. rewrite (handlePerformancePacket_parsed _ _ _ _ _ _ Hc).
  set (history := push_latency (latencyHistory c) (Z.max 0 (now - packet_timestamp obj now))).
  pose proof (push_latency_length (latencyHistory c)
                (Z.max 0 (now - packet_timestamp obj now))) as Hlen.
  fold history in Hlen.
  assert (Hne : history <> []) by (intros E; rewrite E in Hlen; simpl in Hlen; lia).
  destruct (percentile_spec history Hne) as (sorted & Hsorted & Hperm & Hidx).
  assert (Hslen : length sorted = length history) by (by rewrite Hperm).
  assert (Hexact : Binary64.floor_percent_of 95 (Z.of_nat (length sorted) - 1)
                   = 95 * (Z.of_nat (length sorted) - 1) / 100)
    by (apply percentile_index_binary64; lia).
  assert (Hbuf : buffer_for history
                 = clamp (Math_round (percentile history 95 + int 15)) (int 10) (int 300))
    by (unfold buffer_for, SAFETY_MARGIN_MS; apply clamp_max_min).
  eexists _, _, sorted, (percentile history 95).
  split; [reflexivity|]. cbn [records].
  split; [apply lookup_insert_eq|]. cbn [latencyHistory bufferSizeMs].
  split; [done|]. split; [done|]. split; [done|].
  split; [by rewrite <- Hexact|]. split; [done|]. split; [done|]. split; [done|].
  intros sample Hs1. rewrite Hbuf, Hs1, percentile_singleton.
  split; [done|]. split; [done|].
  intros n ->. replace (int n + int 15) with (int (n + 15)) by nlia.
  by rewrite Math_round_int.
Qed.

(** ** C4: the queue stays sorted, ties in insertion order *)

Lemma insertEvent_tie (q : list event) (a b : event) :
  queue_sorted q ->
  playAt a = playAt b ->
  exists l1 l2 l3, insertEvent (insertEvent q a) b = l1 ++ a :: l2 ++ b :: l3.
Proof.
  intros Hs Htie.
  pose proof (insertEvent_sorted q a Hs) as Hs1.
  pose proof (insertEvent_Permutation q a) as Hperm.
  destruct (insertEvent_split_sorted (insertEvent q a) b Hs1)
    as (m1 & m2 & Hq1 & -> & Hm1 & Hm2).
  assert (Ha : a ∈ m1 ++ m2) by (rewrite <- Hq1, Hperm; apply list_elem_of_here).
  apply elem_of_app in Ha as [Ha|Ha].
  - apply list_elem_of_split in Ha as (l1 & l2 & ->).
    exists l1, l2, m2. by rewrite <- app_assoc.
  - rewrite Forall_forall in Hm2. specialize (Hm2 a Ha). lia.
Qed.

(** C4.  In every state the server reaches the playback queue is sorted by
    [playAt], nondecreasing, and it is so again after any insertion.  The
    inserted event is placed behind every queued event whose [playAt] is
    at most its own (so behind its equals) and in front of every strictly
    later one; hence of two events with equal [playAt] inserted one after
    the other (a NoteOn and then its NoteOff) the first stays in front. *)
Theorem insertEvent_sorted_stable (midi : bool) (inputs : list input) (s : state)
        (evt : event) :
  run (initial_state midi) inputs = Some s ->
  queue_sorted (playbackQueue s)
  /\ queue_sorted (insertEvent (playbackQueue s) evt)
  /\ (exists l1 l2,
        playbackQueue s = l1 ++ l2
        /\ insertEvent (playbackQueue s) evt = l1 ++ evt :: l2
        /\ Forall (fun x => playAt x <= playAt evt) l1
        /\ Forall (fun x => playAt evt < playAt x) l2)
  /\ (forall off : event,
        playAt evt = playAt off ->
        exists l1 l2 l3,
          insertEvent (insertEvent (playbackQueue s) evt) off
          = l1 ++ evt :: l2 ++ off :: l3).
Proof.
  intros Hrun. pose proof (run_sorted _ _ _ Hrun) as Hs.
  split; [done|]. split; [by apply insertEvent_sorted|].
  split; [by apply insertEvent_split_sorted|].
  intros off Htie. by apply insertEvent_tie.
Qed.

(** ** C5 and C6: what a performance packet schedules *)

Lemma is_type_true (v : jsval) (name : string) : v = JStr name -> is_type v name = true.
Proof. intros ->. unfold is_type. by rewrite bool_decide_eq_true_2. Qed.

Lemma is_type_other (name other : string) :
  name <> other -> is_type (JStr name) other = false.
Proof. intros Hne. unfold is_type. rewrite bool_decide_eq_false_2; [done|]. by intros [=]. Qed.

Lemma head_scheduled_events_playAt (p : number) (obj : message) (evt : event) :
  head (scheduled_events p obj) = Some evt -> playAt evt = p.
Proof.
  unfold scheduled_events. repeat case_match; simpl; intros [= <-]; done.
Qed.

(** Membership in a short explicit list, by cases. *)
Ltac list_cases H :=
  repeat (apply elem_of_cons in H as [H|H]; [try (inversion H; subst; clear H)|]);
  try (by apply elem_of_nil in H).

Lemma scheduled_events_noteOn (p t : number) (obj : message)
      (channel note velocity : jsval) :
  Event t (EvNoteOn channel note velocity) ∈ scheduled_events p obj ->
  is_type (msg_type obj) "noteOn" = true
  /\ t = p
  /\ channel = js_or (msg_channel obj) (JInt 1)
  /\ note = msg_note obj
  /\ velocity = js_or (msg_velocity obj) (JInt 100).
Proof.
  unfold scheduled_events. intros Hin.
  destruct (is_type (msg_type obj) "noteOn"); [list_cases Hin; done|].
  repeat case_match; list_cases Hin.
Qed.

(** C5.  The events a performance packet enqueues are exactly
    [scheduled_events]: the queue afterwards is the old queue plus these.
    For a packet of type noteOn they are the NoteOn at [playAt] and a
    NoteOff for the same channel and note at [playAt + 800], whatever the
    state of the server and whatever else is queued; and whenever a NoteOn
    with deadline [t] is among the events enqueued, so is the NoteOff for
    its channel and note with deadline [t + 800]. *)
Theorem noteOn_schedules_safety_noteOff (i : nat) (seen now : number) (obj : message)
        (s : state) (c : client) :
  records s !! i = Some c ->
  exists s' playAt0 added,
    handlePerformancePacket i seen now (Parsed obj) s = Some s'
    /\ added = scheduled_events playAt0 obj
    /\ playbackQueue s' = foldl insertEvent (playbackQueue s) added
    /\ playbackQueue s' ≡ₚ added ++ playbackQueue s
    /\ (msg_type obj = JStr "noteOn" ->
        added = [ Event playAt0
                    (EvNoteOn (js_or (msg_channel obj) (JInt 1)) (msg_note obj)
                              (js_or (msg_velocity obj) (JInt 100)));
                  Event (playAt0 + int 800)
                    (EvNoteOff (js_or (msg_channel obj) (JInt 1)) (msg_note obj)) ])
    /\ (forall t channel note velocity,
          Event t (EvNoteOn channel note velocity) ∈ added ->
          t = playAt0 /\ Event (t + int 800) (EvNoteOff channel note) ∈ added).
Proof.
  intros Hc. rewrite (handlePerformancePacket_parsed _ _ _ _ _ _ Hc).
  eexists _, _, _. split; [reflexivity|]. split; [reflexivity|].
  cbn [playbackQueue]. split; [reflexivity|].
  split; [apply foldl_insertEvent_Permutation|]. split.
  - intros Hty. unfold scheduled_events, is_type. rewrite Hty.
    by rewrite bool_decide_eq_true_2.
  - intros t channel note velocity Hin.
    apply scheduled_events_noteOn in Hin as (Hty & -> & -> & -> & ->).
    split; [done|].
    unfold scheduled_events. rewrite Hty. apply list_elem_of_further, list_elem_of_here.
Qed.

(** The events a packet of each of the four types schedules. *)
Lemma scheduled_events_by_type (p : number) (obj : message) :
  (msg_type obj = JStr "noteOn" ->
   scheduled_events p obj
   = [ Event p (EvNoteOn (js_or (msg_channel obj) (JInt 1)) (msg_note obj)
                         (js_or (msg_velocity obj) (JInt 100)));
       Event (p + int 800) (EvNoteOff (js_or (msg_channel obj) (JInt 1)) (msg_note obj)) ])
  /\ (msg_type obj = JStr "noteOff" ->
      scheduled_events p obj
      = [ Event p (EvNoteOff (js_or (msg_channel obj) (JInt 1)) (msg_note obj)) ])
  /\ (msg_type obj = JStr "controlChange" ->
      scheduled_events p obj
      = [ Event p (EvCc (js_or (msg_channel obj) (JInt 1)) (msg_control obj)
                        (msg_value obj)) ])
  /\ (msg_type obj = JStr "programChange" ->
      scheduled_events p obj
      = [ Event p (EvProgram (js_or (msg_channel obj) (JInt 1)) (msg_program obj)) ]).
Proof.
  unfold scheduled_events. split_and!; intros ->.
  - by rewrite (is_type_true _ "noteOn").
  - by rewrite (is_type_other "noteOff" "noteOn"), (is_type_true _ "noteOff").
  - by rewrite (is_type_other "controlChange" "noteOn"),
               (is_type_other "controlChange" "noteOff"), (is_type_true _ "controlChange").
  - by rewrite (is_type_other "programChange" "noteOn"),
               (is_type_other "programChange" "noteOff"),
               (is_type_other "programChange" "controlChange"),
               (is_type_true _ "programChange").
Qed.

(** Whatever is scheduled is in the queue afterwards. *)
Lemma scheduled_events_queued (q : list event) (evts : list event) (e : event) :
  e ∈ evts -> e ∈ foldl insertEvent q evts.
Proof.
  intros He. rewrite foldl_insertEvent_Permutation. apply elem_of_app. by left.
Qed.

(** C6.  The sample a performance packet appends to the window is
    [max(0, now - timestamp)], where a timestamp that is not a number
    counts as [now]: then the sample is 0, as it is for a timestamp in the
    future.  The event the packet schedules is in the playback queue
    afterwards, with the timestamp plus the buffer depth as set by this
    very packet for its deadline: the NoteOn of a noteOn, the NoteOff of a
    noteOff, the control change, the program change. *)
Theorem latency_sample_and_deadline (i : nat) (seen now : number) (obj : message)
        (s : state) (c : client) :
  records s !! i = Some c ->
  exists s' c' timestamp sample,
    handlePerformancePacket i seen now (Parsed obj) s = Some s'
    /\ records s' !! i = Some c'
    /\ timestamp = (match msg_timestamp obj with JNum t => t | _ => now end)
    /\ sample = Z.max 0 (now - timestamp)
    /\ latencyHistory c' = push_latency (latencyHistory c) sample
    /\ last (latencyHistory c') = Some sample
    /\ ((forall t, msg_timestamp obj <> JNum t) -> sample = 0)
    /\ (forall t, msg_timestamp obj = JNum t -> now < t -> sample = 0)
    /\ bufferSizeMs c' = buffer_for (latencyHistory c')
    /\ playbackQueue s'
       = foldl insertEvent (playbackQueue s)
               (scheduled_events (timestamp + bufferSizeMs c') obj)
    /\ playbackQueue s'
       ≡ₚ scheduled_events (timestamp + bufferSizeMs c') obj ++ playbackQueue s
    /\ (forall evt, head (scheduled_events (timestamp + bufferSizeMs c') obj) = Some evt ->
          playAt evt = timestamp + bufferSizeMs c')
    /\ (msg_type obj = JStr "noteOn" ->
        Event (timestamp + bufferSizeMs c')
              (EvNoteOn (js_or (msg_channel obj) (JInt 1)) (msg_note obj)
                        (js_or (msg_velocity obj) (JInt 100)))
        ∈ playbackQueue s')
    /\ (msg_type obj = JStr "noteOff" ->
        Event (timestamp + bufferSizeMs c')
              (EvNoteOff (js_or (msg_channel obj) (JInt 1)) (msg_note obj))
        ∈ playbackQueue s')
    /\ (msg_type obj = JStr "controlChange" ->
        Event (timestamp + bufferSizeMs c')
              (EvCc (js_or (msg_channel obj) (JInt 1)) (msg_control obj) (msg_value obj))
        ∈ playbackQueue s')
    /\ (msg_type obj = JStr "programChange" ->
        Event (timestamp + bufferSizeMs c')
              (EvProgram (js_or (msg_channel obj) (JInt 1)) (msg_program obj))
        ∈ playbackQueue s').
Proof.
  intros Hc. rewrite (handlePerformancePacket_parsed _ _ _ _ _ _ Hc).
  eexists _, _, _, _. split; [reflexivity|]. cbn [records playbackQueue].
  split; [apply lookup_insert_eq|]. cbn [latencyHistory bufferSizeMs].
  split; [reflexivity|]. split; [reflexivity|]. split; [reflexivity|].
  split; [apply push_latency_last|].
  fold (packet_timestamp obj now).
  set (p := packet_timestamp obj now + buffer_for _).
  destruct (scheduled_events_by_type p obj) as (Hon & Hoff & Hcc & Hpc).
  split_and!.
  - intros Hnot. unfold packet_timestamp.
    destruct (msg_timestamp obj) as [| | |t| |]; try lia. by destruct (Hnot t).
  - intros t Ht Hfut. unfold packet_timestamp. rewrite Ht. lia.
  - reflexivity.
  - reflexivity.
  - apply foldl_insertEvent_Permutation.
  - intros evt. apply head_scheduled_events_playAt.
  - intros Hty. apply scheduled_events_queued. rewrite (Hon Hty). apply list_elem_of_here.
  - intros Hty. apply scheduled_events_queued. rewrite (Hoff Hty). apply list_elem_of_here.
  - intros Hty. apply scheduled_events_queued. rewrite (Hcc Hty). apply list_elem_of_here.
  - intros Hty. apply scheduled_events_queued. rewrite (Hpc Hty). apply list_elem_of_here.
Qed.

(** ** C7: the buffer depth stays in [10, 300] *)

Lemma step_ids_below_next (s s' : state) (e : input) :
  ids_below_next s -> step s e = Some s' -> ids_below_next s'.
Proof.
  intros Hb Hstep.
  destruct e as [ws|i created data|ws|i|i seen now data|now|]; simpl in Hstep.
  - inversion Hstep; subst. unfold ensureClient.
    assert (Hnew : ids_below_next
              (State (midiOutput s) (S (nextClientId s))
                 (<[nextClientId s := Client (nextClientId s) false false [] (int 40) None]>
                    (records s))
                 ({[nextClientId s]} ∪ clients s) (playbackQueue s) (counters s) (sinkLog s))).
    { intros j c. simpl. rewrite lookup_insert. case_decide.
      - intros _. lia.
      - intros Hj. specialize (Hb j c Hj). lia. }
    by repeat case_match.
  - destruct (onMessage_frame _ _ _ _ _ Hstep) as (_ & _ & Hn & _).
    apply onMessage_unchanged in Hstep as [_ Hr]. intros j c' Hj.
    destruct (Hr j c' Hj) as (c & Hc & _). rewrite Hn. by apply (Hb j c).
  - inversion Hstep; subst. unfold onClose. by case_match.
  - inversion Hstep; subst.
    destruct (onDataChannel_unchanged i s) as (_ & _ & Hn & _ & _ & Hr). intros j c' Hj.
    destruct (Hr j c' Hj) as (c & Hc & _). rewrite Hn. by apply (Hb j c).
  - unfold handlePerformancePacket in Hstep.
    destruct (records s !! i) as [c|] eqn:Hc; [|by inversion Hstep; subst].
    destruct data as [| |obj]; [|done|].
    + inversion Hstep; subst. intros j c'. simpl. rewrite lookup_insert. case_decide.
      * intros _. subst j. by apply (Hb i c).
      * apply Hb.
    + inversion Hstep; subst. intros j c'. simpl.
      rewrite lookup_insert. case_decide.
      * intros _. subst j. by apply (Hb i c).
      * rewrite lookup_insert. case_decide; [done|]. apply Hb.
  - inversion Hstep; subst. unfold dispatcher_tick.
    destruct (dispatch_loop now (playbackQueue s) (sinkLog s)). done.
  - by inversion Hstep; subst.
Qed.

Lemma run_ids_below_next (midi : bool) (inputs : list input) (s : state) :
  run (initial_state midi) inputs = Some s -> ids_below_next s.
Proof.
  apply (run_invariant ids_below_next).
  - intros ? ? ?. apply step_ids_below_next.
  - intros i c. simpl. by rewrite lookup_empty.
Qed.

(** C7.  In every state the server reaches, every client record has
    [10 <= bufferSizeMs <= 300].  ensureClient either returns a registered
    client and changes nothing, or stores a new record, under an id no
    record had, with [bufferSizeMs = 40]. *)
Theorem buffer_depth_in_range (midi : bool) (inputs : list input) (s : state) :
  run (initial_state midi) inputs = Some s ->
  (forall i c, records s !! i = Some c -> int 10 <= bufferSizeMs c <= int 300)
  /\ (forall ws,
        (ensureClient ws s = ((ensureClient ws s).1, s)
         /\ (ensureClient ws s).1 ∈ clients s)
        \/ ((ensureClient ws s).1 = nextClientId s
            /\ records s !! nextClientId s = None
            /\ records (ensureClient ws s).2
               = <[nextClientId s := Client (nextClientId s) false false [] (int 40) None]>
                   (records s))).
Proof.
  intros Hrun. split; [exact (run_buffers _ _ _ Hrun)|].
  pose proof (run_ids_below_next _ _ _ Hrun) as Hids.
  assert (Hfresh : records s !! nextClientId s = None).
  { destruct (records s !! nextClientId s) as [c|] eqn:Hc; [|done].
    specialize (Hids _ _ Hc). lia. }
  intros ws. unfold ensureClient.
  destruct ws as [i|]; [|by right].
  destruct (negb (i =? 0)%nat && bool_decide (i ∈ clients s)) eqn:Hreg; [|by right].
  left. simpl. split; [done|].
  apply andb_true_iff in Hreg as [_ Hin]. by apply bool_decide_eq_true in Hin.
Qed.

(** ** C8: the immediate lane *)

(** A noteOn with velocity 0 reaches the sink with velocity 127, not with
    the velocity of the message. *)
Lemma velocity_zero_sent_as_127 :
  exists s',
    onMessage 1 false (Parsed (ws_noteOn (JInt 1) (JInt 60) (JInt 0))) connected
    = Some s'
    /\ map call (sinkLog s') = [sendNoteOn (JInt 1) (JInt 60) (JInt 127)]
    /\ sendNoteOn (JInt 1) (JInt 60) (JInt 127)
       <> sendNoteOn (msg_channel (ws_noteOn (JInt 1) (JInt 60) (JInt 0)))
                     (msg_note (ws_noteOn (JInt 1) (JInt 60) (JInt 0)))
                     (msg_velocity (ws_noteOn (JInt 1) (JInt 60) (JInt 0))).
Proof.
  eexists. split; [reflexivity|]. split; [vm_compute; reflexivity|]. simpl. unfold JInt.
  intros H. assert (Hv : int 127 = int 0) by congruence.
  apply int_inj in Hv. discriminate.
Qed.

Lemma truthy_JNum (n : number) : truthy (JNum n) = true <-> n <> 0.
Proof.
  simpl. rewrite negb_true_iff. split.
  - intros H. by apply Z.eqb_neq.
  - intros H. by apply Z.eqb_neq.
Qed.

Lemma truthy_JInt_0 : truthy (JInt 0) = false.
Proof. reflexivity. Qed.

(** C8 (amended).  A WebSocket message of type noteOn, on any socket,
    increments [wsImmediate] by one, leaves [rtcPerf], the client records
    and the playback queue as they are, and calls sendNoteOn once, at once,
    with the note of the message, with [channel || 1] and with
    [velocity || 127]: the channel and the velocity of the message where
    these are truthy (for a number: not 0), and 1 and 127 otherwise, that
    is, where the field is missing, null or 0.  A velocity of 0 is sent as
    127. *)
Theorem immediate_noteOn (i : nat) (created : bool) (message : message) (s : state) :
  msg_type message = JStr "noteOn" ->
  exists s' channel velocity,
    onMessage i created (Parsed message) s = Some s'
    /\ wsImmediate (counters s') = S (wsImmediate (counters s))
    /\ rtcPerf (counters s') = rtcPerf (counters s)
    /\ playbackQueue s' = playbackQueue s
    /\ records s' = records s
    /\ sinkLog s'
       = sinkLog s ++ [SinkEntry (sendNoteOn channel (msg_note message) velocity)
                                 Immediate (playbackQueue s)]
    /\ channel = (if truthy (msg_channel message) then msg_channel message else JInt 1)
    /\ velocity = (if truthy (msg_velocity message) then msg_velocity message else JInt 127)
    /\ (truthy (msg_channel message) = true -> channel = msg_channel message)
    /\ (msg_channel message = JUndefined -> channel = JInt 1)
    /\ (truthy (msg_velocity message) = true -> velocity = msg_velocity message)
    /\ (msg_velocity message = JUndefined -> velocity = JInt 127)
    /\ (forall n, msg_velocity message = JNum n -> n <> 0 -> velocity = JNum n)
    /\ (msg_velocity message = JInt 0 -> velocity = JInt 127).
Proof.
  intros Hty. unfold onMessage, is_type. rewrite Hty.
  rewrite bool_decide_eq_true_2 by done.
  eexists _, _, _. split; [reflexivity|]. simpl.
  split_and!; try done; unfold js_or.
  - by intros ->.
  - by intros ->.
  - by intros ->.
  - by intros ->.
  - intros n -> Hn. by rewrite (proj2 (truthy_JNum n) Hn).
  - intros ->. by rewrite truthy_JInt_0.
Qed.

(** ** C9: the queue has no size cap *)

Lemma run_app (inputs1 inputs2 : list input) (s : state) :
  run s (inputs1 ++ inputs2)
  = match run s inputs1 with
    | Some s1 => run s1 inputs2
    | None => None
    end.
Proof.
  revert s. induction inputs1 as [|e rest IH]; intros s; simpl; [done|].
  destruct (step s e); [apply IH|done].
Qed.

Lemma handlePerformancePacket_noteOn_length (i : nat) (seen now ts : number) (note : Z)
      (s : state) :
  is_Some (records s !! i) ->
  exists s',
    handlePerformancePacket i seen now (Parsed (perf_noteOn ts note)) s = Some s'
    /\ is_Some (records s' !! i)
    /\ length (playbackQueue s') = (2 + length (playbackQueue s))%nat.
Proof.
  intros [c Hc]. rewrite (handlePerformancePacket_parsed _ _ _ _ _ _ Hc).
  eexists. split; [reflexivity|]. split.
  - cbn [records]. rewrite lookup_insert_eq. by eexists.
  - cbn [playbackQueue]. rewrite foldl_insertEvent_Permutation, length_app. reflexivity.
Qed.

Lemma noteOn_packets_length (i : nat) (ahead : Z) (ks : list nat) (s : state) :
  is_Some (records s !! i) ->
  exists s',
    run s (map (fun k => DataChannelMessage i (int (Z.of_nat k)) (int (Z.of_nat k))
                           (Parsed (perf_noteOn (int (ahead + Z.of_nat k)) 60))) ks) = Some s'
    /\ length (playbackQueue s') = (2 * length ks + length (playbackQueue s))%nat.
Proof.
  revert s. induction ks as [|k ks IH]; intros s Hc; simpl.
  - by exists s.
  - destruct (handlePerformancePacket_noteOn_length i (int (Z.of_nat k)) (int (Z.of_nat k))
                (int (ahead + Z.of_nat k)) 60 s Hc) as (s1 & -> & Hc1 & Hlen1).
    destruct (IH s1 Hc1) as (s' & Hrun & Hlen). exists s'. split; [done|]. lia.
Qed.

Lemma noteOn_burst_length (n : nat) :
  exists s,
    run (initial_state true) (joined ++ noteOn_burst 1 3600000 n) = Some s
    /\ length (playbackQueue s) = (2 * n)%nat.
Proof.
  assert (Hjoin : run (initial_state true) joined = Some connected)
    by (vm_compute; reflexivity).
  assert (Hq : playbackQueue connected = []) by (vm_compute; reflexivity).
  destruct (noteOn_packets_length 1 3600000 (seq 0 n) connected) as (s & Hrun & Hlen).
  - exists new_client. vm_compute. reflexivity.
  - exists s. split.
    + rewrite run_app, Hjoin. exact Hrun.
    + rewrite Hlen, length_seq, Hq. simpl. lia.
Qed.

(** A client whose clock is an hour ahead sends 5001 noteOn packets, one per
    millisecond, none of them due for an hour: the queue then holds 10002
    events. *)
Lemma queue_exceeds_ten_thousand :
  exists s,
    run (initial_state true)
        (joined ++ noteOn_burst 1 3600000 (Z.to_nat 5001)) = Some s
    /\ Z.of_nat (length (playbackQueue s)) = 10002.
Proof.
  destruct (noteOn_burst_length (Z.to_nat 5001)) as (s & Hrun & Hlen).
  exists s. split; [exact Hrun|]. rewrite Hlen. lia.
Qed.

Lemma scheduled_events_length (p : number) (obj : message) :
  length (scheduled_events p obj)
  = (if is_type (msg_type obj) "noteOn" then 2
     else if is_type (msg_type obj) "noteOff" || is_type (msg_type obj) "controlChange"
             || is_type (msg_type obj) "programChange"
          then 1 else 0)%nat.
Proof. unfold scheduled_events. by repeat case_match. Qed.

(** Every turn of the event loop but the dispatcher's keeps every queued
    event. *)
Lemma step_queue_kept (s s' : state) (e : input) :
  step s e = Some s' ->
  (forall now, e <> DispatcherTick now) ->
  playbackQueue s ⊆+ playbackQueue s'.
Proof.
  intros Hstep Hno.
  destruct e as [ws|i created data|ws|i|i seen now data|now|]; simpl in Hstep.
  - inversion Hstep; subst. unfold ensureClient. by repeat case_match.
  - by destruct (onMessage_frame _ _ _ _ _ Hstep) as (-> & _).
  - inversion Hstep; subst. unfold onClose. by case_match.
  - inversion Hstep; subst. by destruct (onDataChannel_unchanged i s) as [-> _].
  - unfold handlePerformancePacket in Hstep.
    destruct (records s !! i) as [c|]; [|by inversion Hstep; subst].
    destruct data as [| |obj]; [by inversion Hstep; subst|done|].
    inversion Hstep; subst. simpl.
    rewrite foldl_insertEvent_Permutation. by apply submseteq_inserts_l.
  - by destruct (Hno now).
  - by inversion Hstep; subst.
Qed.

(** C9 (amended).  The queue has no cap.  insertEvent keeps every queued
    event and adds the new one, so the queue grows by exactly one event at
    each insertion; a performance packet grows it by the number of events
    it schedules (two for a noteOn, one for a noteOff, a controlChange or a
    programChange, none otherwise); no turn of the event loop other than a
    dispatcher tick removes an event, and a tick removes a prefix of due
    events; and for every bound there is a run of the server whose queue
    exceeds it. *)
Theorem queue_grows_without_cap :
  (forall q evt,
      insertEvent q evt ≡ₚ evt :: q /\ length (insertEvent q evt) = S (length q))
  /\ (forall q evts, length (foldl insertEvent q evts) = (length evts + length q)%nat)
  /\ (forall i seen now obj s c,
        records s !! i = Some c ->
        exists s' p,
          handlePerformancePacket i seen now (Parsed obj) s = Some s'
          /\ playbackQueue s' ≡ₚ scheduled_events p obj ++ playbackQueue s
          /\ length (playbackQueue s')
             = (length (scheduled_events p obj) + length (playbackQueue s))%nat
          /\ length (scheduled_events p obj)
             = (if is_type (msg_type obj) "noteOn" then 2
                else if is_type (msg_type obj) "noteOff"
                        || is_type (msg_type obj) "controlChange"
                        || is_type (msg_type obj) "programChange"
                     then 1 else 0)%nat)
  /\ (forall s e s',
        step s e = Some s' ->
        (forall now, e <> DispatcherTick now) ->
        playbackQueue s ⊆+ playbackQueue s')
  /\ (forall s now,
        exists popped,
          playbackQueue s = popped ++ playbackQueue (dispatcher_tick now s)
          /\ Forall (fun evt => playAt evt <= now) popped)
  /\ (forall n : nat,
        exists inputs s,
          run (initial_state true) inputs = Some s /\ (n < length (playbackQueue s))%nat).
Proof.
  split_and!.
  - intros q evt. split; [apply insertEvent_Permutation|apply insertEvent_length].
  - intros q evts. by rewrite foldl_insertEvent_Permutation, length_app.
  - intros i seen now obj s c Hc. rewrite (handlePerformancePacket_parsed _ _ _ _ _ _ Hc).
    eexists _, _. split; [reflexivity|]. cbn [playbackQueue].
    split; [apply foldl_insertEvent_Permutation|].
    split; [by rewrite foldl_insertEvent_Permutation, length_app|].
    apply scheduled_events_length.
  - intros s e s'. apply step_queue_kept.
  - intros s now.
    destruct (dispatcher_tick_spec now s) as (popped & entries & Hq & _ & Hdue & _).
    by exists popped.
  - intros n. destruct (noteOn_burst_length (S n)) as (s & Hrun & Hlen).
    exists (joined ++ noteOn_burst 1 3600000 (S n)), s.
    split; [exact Hrun|]. lia.
Qed.

(** ** C10: a datagram that is not JSON *)

(** C10.  When the payload of a datagram does not parse, the handler has
    counted it in [rtcPerf] and set the client's [lastSeen] to the clock;
    the latency window, the buffer depth and the other fields of the
    record, the playback queue, the other counter, the other records and
    the sink log are as before. *)
Theorem malformed_packet_effects (i : nat) (seen now : number) (s : state) (c : client) :
  records s !! i = Some c ->
  exists s' c',
    handlePerformancePacket i seen now SyntaxError s = Some s'
    /\ rtcPerf (counters s') = S (rtcPerf (counters s))
    /\ wsImmediate (counters s') = wsImmediate (counters s)
    /\ records s' !! i = Some c'
    /\ lastSeen c' = Some seen
    /\ latencyHistory c' = latencyHistory c
    /\ bufferSizeMs c' = bufferSizeMs c
    /\ id c' = id c /\ pc c' = pc c /\ dc c' = dc c
    /\ (forall j, j <> i -> records s' !! j = records s !! j)
    /\ playbackQueue s' = playbackQueue s
    /\ sinkLog s' = sinkLog s.
Proof.
  intros Hc. unfold handlePerformancePacket. rewrite Hc.
  eexists _, (Client (id c) (pc c) (dc c) (latencyHistory c) (bufferSizeMs c) (Some seen)).
  split; [reflexivity|]. simpl.
  repeat split; try done.
  - apply lookup_insert_eq.
  - intros j Hj. by rewrite lookup_insert_ne.
Qed.

(** ** C2: dispatch order *)

(** Timestamp order is not dispatch order, for two reasons.

    The buffer depth can grow between two arrivals.  A client sends three
    noteOn packets.  The first (timestamp 0) arrives 100 ms late.  The
    packet stamped 1020 arrives at 1020 and is scheduled with buffer depth
    15, for 1035; the packet stamped 1000 arrives after it, at 1030, raises
    the buffer depth to 45 and is scheduled for 1045.  Both are dispatched,
    the later-stamped one first.

    A packet can arrive after a later-stamped one has been dispatched.  The
    packet stamped 1000 arrives at 1000 and is scheduled with buffer depth
    15, for 1015, and dispatched by the tick at 1015.  The packet stamped
    990 arrives at 1016; the buffer depth is still 15, so its deadline,
    1005, is the earlier one.  It is dispatched by the tick at 1020, after
    the other. *)
Lemma timestamp_order_counterexample :
  (exists s,
      run (initial_state true)
          (joined
           ++ [ DataChannelMessage 1 (int 100) (int 100) (Parsed (perf_noteOn (int 0) 48));
                DispatcherTick (int 115);
                DispatcherTick (int 915);
                DataChannelMessage 1 (int 1020) (int 1020)
                                   (Parsed (perf_noteOn (int 1020) 62));
                DataChannelMessage 1 (int 1030) (int 1030)
                                   (Parsed (perf_noteOn (int 1000) 60));
                DispatcherTick (int 1035);
                DispatcherTick (int 1040);
                DispatcherTick (int 1045) ]) = Some s
      /\ packet_timestamp (perf_noteOn (int 1000) 60) (int 1030)
         <= packet_timestamp (perf_noteOn (int 1020) 62) (int 1020)
      /\ map (fun x => (call x, from x)) (sinkLog s)
         = [ (sendNoteOn (JInt 1) (JInt 48) (JInt 100), Dispatcher (int 115));
             (sendNoteOff (JInt 1) (JInt 48) (JInt 0), Dispatcher (int 915));
             (sendNoteOn (JInt 1) (JInt 62) (JInt 100), Dispatcher (int 1035));
             (sendNoteOn (JInt 1) (JInt 60) (JInt 100), Dispatcher (int 1045)) ]
      /\ int 1035 < int 1045)
  /\ (exists s_first s_second s,
        run (initial_state true)
            (joined
             ++ [ DataChannelMessage 1 (int 1000) (int 1000)
                                     (Parsed (perf_noteOn (int 1000) 62)) ])
        = Some s_first
        /\ run s_first
               [ DispatcherTick (int 1015);
                 DataChannelMessage 1 (int 1016) (int 1016)
                                    (Parsed (perf_noteOn (int 990) 60)) ]
           = Some s_second
        /\ run s_second [ DispatcherTick (int 1020) ] = Some s
        /\ packet_timestamp (perf_noteOn (int 990) 60) (int 1016)
           <= packet_timestamp (perf_noteOn (int 1000) 62) (int 1000)
        /\ head (playbackQueue s_first)
           = Some (Event (int 1015) (EvNoteOn (JInt 1) (JInt 62) (JInt 100)))
        /\ head (playbackQueue s_second)
           = Some (Event (int 1005) (EvNoteOn (JInt 1) (JInt 60) (JInt 100)))
        /\ map (fun x => (call x, from x)) (sinkLog s)
           = [ (sendNoteOn (JInt 1) (JInt 62) (JInt 100), Dispatcher (int 1015));
               (sendNoteOn (JInt 1) (JInt 60) (JInt 100), Dispatcher (int 1020)) ]).
Proof.
  split.
  - eexists. split; [vm_compute; reflexivity|].
    split; [vm_compute; discriminate|].
    split; [vm_compute; reflexivity|]. nlia.
  - eexists _, _, _. split; [vm_compute; reflexivity|].
    split; [vm_compute; reflexivity|]. split; [vm_compute; reflexivity|].
    split; [vm_compute; discriminate|].
    split; [vm_compute; reflexivity|]. split; [vm_compute; reflexivity|].
    vm_compute. reflexivity.
Qed.

(** The sink log only grows. *)
Lemma step_sinkLog (s s' : state) (e : input) :
  step s e = Some s' -> exists entries, sinkLog s' = sinkLog s ++ entries.
Proof.
  intros Hstep. assert (Hsame : exists entries, sinkLog s = sinkLog s ++ entries)
    by (exists []; by rewrite app_nil_r).
  destruct e as [ws|i created data|ws|i|i seen now data|now|]; simpl in Hstep.
  - inversion Hstep; subst. unfold ensureClient. by repeat case_match.
  - unfold onMessage, handleTransportControl in Hstep.
    destruct data as [| |m]; [by inversion Hstep; subst|done|].
    repeat case_match; inversion Hstep; subst; simpl; by eauto.
  - inversion Hstep; subst. unfold onClose. by case_match.
  - inversion Hstep; subst. by destruct (onDataChannel_unchanged i s) as (_&_&_&_& -> &_).
  - unfold handlePerformancePacket in Hstep.
    destruct (records s !! i) as [c|]; [|by inversion Hstep; subst].
    destruct data as [| |obj]; [by inversion Hstep; subst|done|by inversion Hstep; subst].
  - inversion Hstep; subst.
    destruct (dispatcher_tick_spec now s) as (_ & entries & _ & Hlog & _). by exists entries.
  - by inversion Hstep; subst.
Qed.

Lemma run_sinkLog (inputs : list input) (s s' : state) :
  run s inputs = Some s' -> exists entries, sinkLog s' = sinkLog s ++ entries.
Proof.
  revert s. induction inputs as [|e rest IH]; intros s Hrun; simpl in Hrun.
  - inversion Hrun; subst. exists []. by rewrite app_nil_r.
  - destruct (step s e) as [s1|] eqn:Hstep; [|done].
    destruct (step_sinkLog _ _ _ Hstep) as [l1 H1].
    destruct (IH _ Hrun) as [l2 H2].
    exists (l1 ++ l2). by rewrite H2, H1, app_assoc.
Qed.

(** An event that was queued and no longer is has been taken by a
    dispatcher tick in between. *)
Lemma run_event_leaves (later : list input) (s1 s2 : state) (e : event) :
  run s1 later = Some s2 ->
  e ∈ playbackQueue s1 ->
  (e ∈ playbackQueue s2)
  \/ (exists before t after sa,
        later = before ++ DispatcherTick t :: after
        /\ run s1 before = Some sa
        /\ e ∈ playbackQueue sa
        /\ (e ∉ playbackQueue (dispatcher_tick t sa))
        /\ run (dispatcher_tick t sa) after = Some s2).
Proof.
  revert s1. induction later as [|x rest IH]; intros s1 Hrun Hin; simpl in Hrun.
  - inversion Hrun; subst. by left.
  - destruct (step s1 x) as [s'|] eqn:Hstep; [|done].
    destruct (decide (e ∈ playbackQueue s')) as [Hin'|Hout].
    + destruct (IH s' Hrun Hin') as [?|(before & t & after & sa & -> & Hb & Hsa & Hgone & Ha)];
        [by left|].
      right. exists (x :: before), t, after, sa. simpl. rewrite Hstep. by split_and!.
    + right.
      assert (Htick : exists t, x = DispatcherTick t).
      { destruct x as [ws|i created data|ws|i|i seen now data|now|]; try (by eexists).
        all: exfalso; apply Hout;
          eapply elem_of_submseteq; [exact Hin|];
          by eapply step_queue_kept. }
      destruct Htick as [t ->]. simpl in Hstep. inversion Hstep; subst s'.
      exists [], t, rest, s1. by split_and!.
Qed.

(** What a tick takes off the queue was due, and reaches the sink unless it
    is more than 50 ms late. *)
Lemma dispatcher_tick_takes (t : number) (s : state) :
  exists entries,
    sinkLog (dispatcher_tick t s) = sinkLog s ++ entries
    /\ Forall (fun x => from x = Dispatcher t) entries
    /\ forall e,
         e ∈ playbackQueue s ->
         e ∉ playbackQueue (dispatcher_tick t s) ->
         playAt e <= t
         /\ (t <= playAt e + int 50 -> dispatch_call e ∈ map call entries).
Proof.
  destruct (dispatcher_tick_spec t s)
    as (popped & entries & Hq & Hlog & Hpop & Hhd & Hcalls & Hent).
  exists entries. split; [done|]. split.
  { eapply Forall_impl; [exact Hent|]. by intros x [Hx _]. }
  intros e Hin Hout. rewrite Hq in Hin. apply elem_of_app in Hin as [Hin|Hin]; [|done].
  rewrite Forall_forall in Hpop. split; [by apply Hpop|].
  intros Hlate. rewrite Hcalls. apply list_elem_of_fmap_2.
  apply list_elem_of_filter. split; [|done]. unfold not_late. nlia.
Qed.

(** On a sorted queue a tick takes every event that is due. *)
Lemma dispatcher_tick_takes_due (now : number) (s : state) (e : event) :
  queue_sorted (playbackQueue s) ->
  playAt e <= now ->
  e ∉ playbackQueue (dispatcher_tick now s).
Proof.
  intros Hs Hdue Hin.
  destruct (dispatcher_tick_spec now s) as (popped & entries & Hq & _ & _ & Hhd & _).
  assert (Hrest : Forall (fun evt => now < playAt evt) (playbackQueue (dispatcher_tick now s))).
  { apply head_not_due_sorted; [|done]. rewrite Hq in Hs. by eapply queue_sorted_suffix. }
  rewrite Forall_forall in Hrest. specialize (Hrest e Hin). lia.
Qed.

(** C2 (amended).  Take two performance packets, the first with a deadline
    (timestamp plus the buffer depth it was scheduled with) no later than
    the deadline of the second; with equal buffer depths this is the order
    of the timestamps.  If the event of the first was in the playback queue
    at some point (the packet had arrived) before the dispatcher tick at
    which the second is due and queued, then after that tick both events
    have left the queue; the second is passed to the sink in that tick
    unless it is more than 50 ms late; and the first has left the queue
    either in that same tick, at the same dispatch time, or in an earlier
    tick of the run, and was passed to the sink there unless it was more
    than 50 ms late, its sink call standing in the sink log before those of
    that tick.  So the first is dispatched no later than the second,
    whatever the order of arrival was. *)
Theorem deadline_order_dispatch (midi : bool) (arrived later : list input) (s1 s2 : state)
        (obj1 obj2 : message) (ts1 ts2 b1 b2 now : number) (e1 e2 : event) :
  run (initial_state midi) arrived = Some s1 ->
  head (scheduled_events (ts1 + b1) obj1) = Some e1 ->
  e1 ∈ playbackQueue s1 ->
  run s1 later = Some s2 ->
  head (scheduled_events (ts2 + b2) obj2) = Some e2 ->
  e2 ∈ playbackQueue s2 ->
  ts1 + b1 <= ts2 + b2 ->
  ts2 + b2 <= now ->
  exists entries,
    sinkLog (dispatcher_tick now s2) = sinkLog s2 ++ entries
    /\ Forall (fun x => from x = Dispatcher now) entries
    /\ (e1 ∉ playbackQueue (dispatcher_tick now s2))
    /\ (e2 ∉ playbackQueue (dispatcher_tick now s2))
    /\ (e1 ∈ playbackQueue s2 ->
        now <= ts1 + b1 + int 50 -> dispatch_call e1 ∈ map call entries)
    /\ (now <= ts2 + b2 + int 50 -> dispatch_call e2 ∈ map call entries)
    /\ ((e1 ∈ playbackQueue s2)
        \/ (exists before t after sa earlier between,
              later = before ++ DispatcherTick t :: after
              /\ run s1 before = Some sa
              /\ e1 ∈ playbackQueue sa
              /\ (e1 ∉ playbackQueue (dispatcher_tick t sa))
              /\ ts1 + b1 <= t
              /\ sinkLog (dispatcher_tick t sa) = sinkLog sa ++ earlier
              /\ Forall (fun x => from x = Dispatcher t) earlier
              /\ (t <= ts1 + b1 + int 50 -> dispatch_call e1 ∈ map call earlier)
              /\ sinkLog (dispatcher_tick now s2)
                 = sinkLog sa ++ earlier ++ between ++ entries)).
Proof.
  intros Hrun1 He1 Hin1 Hrun2 He2 Hin2 Hord Hdue.
  apply head_scheduled_events_playAt in He1, He2.
  assert (Hs : queue_sorted (playbackQueue s2)).
  { apply (run_sorted midi (arrived ++ later)). by rewrite run_app, Hrun1. }
  destruct (dispatcher_tick_takes now s2) as (entries & Hlog & Hfrom & Htake).
  assert (Hout1 : e1 ∉ playbackQueue (dispatcher_tick now s2))
    by (apply dispatcher_tick_takes_due; [done|lia]).
  assert (Hout2 : e2 ∉ playbackQueue (dispatcher_tick now s2))
    by (apply dispatcher_tick_takes_due; [done|lia]).
  exists entries. split_and!; try done.
  - intros Hin Hlate. apply (Htake e1 Hin Hout1). lia.
  - intros Hlate. apply (Htake e2 Hin2 Hout2). lia.
  - destruct (run_event_leaves later s1 s2 e1 Hrun2 Hin1)
      as [?|(before & t & after & sa & Hlater & Hb & Hsa & Hgone & Ha)]; [by left|].
    right.
    destruct (dispatcher_tick_takes t sa) as (earlier & Hlog' & Hfrom' & Htake').
    destruct (Htake' e1 Hsa Hgone) as [Hdue' Hcall'].
    destruct (run_sinkLog _ _ _ Ha) as [between Hbetween].
    exists before, t, after, sa, earlier, between. split_and!; try done.
    + lia.
    + intros Hlate. apply Hcall'. lia.
    + by rewrite Hlog, Hbetween, Hlog', <- !app_assoc.
Qed.

(** ** The scenarios of the specification, run on the model *)

Example s2_record :
  records s2_scheduled !! 1%nat = Some s2_client.
Proof. vm_compute. reflexivity. Qed.

Example s2_run : run (initial_state true) s2_inputs = Some s2_scheduled.
Proof. vm_compute. reflexivity. Qed.

Example s2_queue :
  playbackQueue s2_scheduled
  = [ Event (int 1045) (EvNoteOn (JInt 1) (JInt 60) (JInt 100));
      Event (int 1845) (EvNoteOff (JInt 1) (JInt 60)) ].
Proof. vm_compute. reflexivity. Qed.

(** Scenario S4: stamped 200 ms in the past with a window of small
    samples, the event is due at once, 160 ms late, and dropped. *)
Example s4_late_drop :
  let s := State true 2 {[ 1%nat := Client 1 true true [int 25] (int 40) None ]}
                 {[ 1%nat ]} [] (Counters 0 0) [] in
  exists s',
    handlePerformancePacket 1 (int 5000) (int 5000)
      (Parsed (Message (JStr "noteOff") (JInt 4800) (JInt 1) (JInt 60) JUndefined
                       JUndefined JUndefined JUndefined JUndefined)) s = Some s'
    /\ map playAt (playbackQueue s') = [int 4840]
    /\ playbackQueue (dispatcher_tick (int 5000) s') = []
    /\ sinkLog (dispatcher_tick (int 5000) s') = [].
Proof. eexists. split; [vm_compute; reflexivity|]. by vm_compute. Qed.

(** Scenario S5, then a tick at 1016 that dispatches the packet stamped
    1000, then the tick at 1035 at which the packet stamped 1020 is due. *)
Lemma deadline_order_dispatch_witness :
  exists entries,
    sinkLog (dispatcher_tick (int 1035) s5_ticked) = sinkLog s5_ticked ++ entries
    /\ Forall (fun x => from x = Dispatcher (int 1035)) entries
    /\ (s5_stamped_1000 ∉ playbackQueue (dispatcher_tick (int 1035) s5_ticked))
    /\ (s5_stamped_1020 ∉ playbackQueue (dispatcher_tick (int 1035) s5_ticked))
    /\ (s5_stamped_1000 ∈ playbackQueue s5_ticked ->
        (int 1035) <= (int 1000) + (int 15) + int 50 -> dispatch_call s5_stamped_1000 ∈ map call entries)
    /\ ((int 1035) <= (int 1020) + (int 15) + int 50 -> dispatch_call s5_stamped_1020 ∈ map call entries)
    /\ ((s5_stamped_1000 ∈ playbackQueue s5_ticked)
        \/ (exists before t after sa earlier between,
              ([DispatcherTick (int 1016)]) = before ++ DispatcherTick t :: after
              /\ run s5_queued before = Some sa
              /\ s5_stamped_1000 ∈ playbackQueue sa
              /\ (s5_stamped_1000 ∉ playbackQueue (dispatcher_tick t sa))
              /\ (int 1000) + (int 15) <= t
              /\ sinkLog (dispatcher_tick t sa) = sinkLog sa ++ earlier
              /\ Forall (fun x => from x = Dispatcher t) earlier
              /\ (t <= (int 1000) + (int 15) + int 50 -> dispatch_call s5_stamped_1000 ∈ map call earlier)
              /\ sinkLog (dispatcher_tick (int 1035) s5_ticked)
                 = sinkLog sa ++ earlier ++ between ++ entries)).
Proof.
  apply (deadline_order_dispatch true s5_inputs [DispatcherTick (int 1016)] s5_queued
           s5_ticked (perf_noteOn (int 1000) 60) (perf_noteOn (int 1020) 62)
           (int 1000) (int 1020) (int 15) (int 15) (int 1035)
           s5_stamped_1000 s5_stamped_1020).
  - vm_compute. reflexivity.
  - vm_compute. reflexivity.
  - apply (bool_decide_unpack _). vm_compute. exact I.
  - reflexivity.
  - vm_compute. reflexivity.
  - apply (bool_decide_unpack _). vm_compute. exact I.
  - vm_compute. discriminate.
  - vm_compute. discriminate.
Defined.

Lemma buffer_depth_after_sample_witness :
  exists s' c' sorted p95,
    handlePerformancePacket 1%nat (int 1030) (int 1030) (Parsed s2_packet) connected = Some s'
    /\ records s' !! 1%nat = Some c'
    /\ latencyHistory c'
       = push_latency (latencyHistory new_client) (Z.max 0 ((int 1030) - packet_timestamp s2_packet (int 1030)))
    /\ Sorted Z.le sorted
    /\ sorted ≡ₚ latencyHistory c'
    /\ sorted !! Z.to_nat (95 * (Z.of_nat (length sorted) - 1) / 100) = Some p95
    /\ Binary64.floor_percent_of 95 (Z.of_nat (length sorted) - 1)
       = 95 * (Z.of_nat (length sorted) - 1) / 100
    /\ p95 = percentile (latencyHistory c') 95
    /\ bufferSizeMs c' = clamp (Math_round (p95 + int 15)) (int 10) (int 300)
    /\ (forall sample, latencyHistory c' = [sample] ->
          p95 = sample
          /\ bufferSizeMs c' = clamp (Math_round (sample + int 15)) (int 10) (int 300)
          /\ (forall n, sample = int n ->
                bufferSizeMs c' = clamp (sample + int 15) (int 10) (int 300))).
Proof.
  apply (buffer_depth_after_sample 1 (int 1030) (int 1030) s2_packet connected new_client).
  vm_compute. reflexivity.
Defined.

Lemma insertEvent_sorted_stable_witness :
  queue_sorted (playbackQueue s2_scheduled)
  /\ queue_sorted (insertEvent (playbackQueue s2_scheduled) s2_tie)
  /\ (exists l1 l2,
        playbackQueue s2_scheduled = l1 ++ l2
        /\ insertEvent (playbackQueue s2_scheduled) s2_tie = l1 ++ s2_tie :: l2
        /\ Forall (fun x => playAt x <= playAt s2_tie) l1
        /\ Forall (fun x => playAt s2_tie < playAt x) l2)
  /\ (forall off : event,
        playAt s2_tie = playAt off ->
        exists l1 l2 l3,
          insertEvent (insertEvent (playbackQueue s2_scheduled) s2_tie) off
          = l1 ++ s2_tie :: l2 ++ off :: l3).
Proof.
  apply (insertEvent_sorted_stable true s2_inputs s2_scheduled s2_tie).
  vm_compute. reflexivity.
Defined.

Lemma noteOn_schedules_safety_noteOff_witness :
  exists s' playAt0 added,
    handlePerformancePacket 1%nat (int 1030) (int 1030) (Parsed s2_packet) connected = Some s'
    /\ added = scheduled_events playAt0 s2_packet
    /\ playbackQueue s' = foldl insertEvent (playbackQueue connected) added
    /\ playbackQueue s' ≡ₚ added ++ playbackQueue connected
    /\ (msg_type s2_packet = JStr "noteOn" ->
        added = [ Event playAt0
                    (EvNoteOn (js_or (msg_channel s2_packet) (JInt 1)) (msg_note s2_packet)
                              (js_or (msg_velocity s2_packet) (JInt 100)));
                  Event (playAt0 + int 800)
                    (EvNoteOff (js_or (msg_channel s2_packet) (JInt 1)) (msg_note s2_packet)) ])
    /\ (forall t channel note velocity,
          Event t (EvNoteOn channel note velocity) ∈ added ->
          t = playAt0 /\ Event (t + int 800) (EvNoteOff channel note) ∈ added).
Proof.
  apply (noteOn_schedules_safety_noteOff 1 (int 1030) (int 1030) s2_packet connected new_client).
  vm_compute. reflexivity.
Defined.

Lemma latency_sample_and_deadline_witness :
  exists s' c' timestamp sample,
    handlePerformancePacket 1%nat (int 1030) (int 1030) (Parsed s2_packet) connected = Some s'
    /\ records s' !! 1%nat = Some c'
    /\ timestamp = (match msg_timestamp s2_packet with JNum t => t | _ => (int 1030) end)
    /\ sample = Z.max 0 ((int 1030) - timestamp)
    /\ latencyHistory c' = push_latency (latencyHistory new_client) sample
    /\ last (latencyHistory c') = Some sample
    /\ ((forall t, msg_timestamp s2_packet <> JNum t) -> sample = 0)
    /\ (forall t, msg_timestamp s2_packet = JNum t -> (int 1030) < t -> sample = 0)
    /\ bufferSizeMs c' = buffer_for (latencyHistory c')
    /\ playbackQueue s'
       = foldl insertEvent (playbackQueue connected)
               (scheduled_events (timestamp + bufferSizeMs c') s2_packet)
    /\ playbackQueue s'
       ≡ₚ scheduled_events (timestamp + bufferSizeMs c') s2_packet ++ playbackQueue connected
    /\ (forall evt, head (scheduled_events (timestamp + bufferSizeMs c') s2_packet) = Some evt ->
          playAt evt = timestamp + bufferSizeMs c')
    /\ (msg_type s2_packet = JStr "noteOn" ->
        Event (timestamp + bufferSizeMs c')
              (EvNoteOn (js_or (msg_channel s2_packet) (JInt 1)) (msg_note s2_packet)
                        (js_or (msg_velocity s2_packet) (JInt 100)))
        ∈ playbackQueue s')
    /\ (msg_type s2_packet = JStr "noteOff" ->
        Event (timestamp + bufferSizeMs c')
              (EvNoteOff (js_or (msg_channel s2_packet) (JInt 1)) (msg_note s2_packet))
        ∈ playbackQueue s')
    /\ (msg_type s2_packet = JStr "controlChange" ->
        Event (timestamp + bufferSizeMs c')
              (EvCc (js_or (msg_channel s2_packet) (JInt 1)) (msg_control s2_packet) (msg_value s2_packet))
        ∈ playbackQueue s')
    /\ (msg_type s2_packet = JStr "programChange" ->
        Event (timestamp + bufferSizeMs c')
              (EvProgram (js_or (msg_channel s2_packet) (JInt 1)) (msg_program s2_packet))
        ∈ playbackQueue s').
Proof.
  apply (latency_sample_and_deadline 1 (int 1030) (int 1030) s2_packet connected new_client).
  vm_compute. reflexivity.
Defined.

Lemma buffer_depth_in_range_witness :
  (forall i c, records s2_scheduled !! i = Some c -> int 10 <= bufferSizeMs c <= int 300)
  /\ (forall ws,
        (ensureClient ws s2_scheduled = ((ensureClient ws s2_scheduled).1, s2_scheduled)
         /\ (ensureClient ws s2_scheduled).1 ∈ clients s2_scheduled)
        \/ ((ensureClient ws s2_scheduled).1 = nextClientId s2_scheduled
            /\ records s2_scheduled !! nextClientId s2_scheduled = None
            /\ records (ensureClient ws s2_scheduled).2
               = <[nextClientId s2_scheduled := Client (nextClientId s2_scheduled) false false [] (int 40) None]>
                   (records s2_scheduled))).
Proof.
  apply (buffer_depth_in_range true s2_inputs s2_scheduled).
  vm_compute. reflexivity.
Defined.

Lemma immediate_noteOn_witness :
  exists s' channel velocity,
    onMessage 1%nat false (Parsed s1_message) connected = Some s'
    /\ wsImmediate (counters s') = S (wsImmediate (counters connected))
    /\ rtcPerf (counters s') = rtcPerf (counters connected)
    /\ playbackQueue s' = playbackQueue connected
    /\ records s' = records connected
    /\ sinkLog s'
       = sinkLog connected ++ [SinkEntry (sendNoteOn channel (msg_note s1_message) velocity)
                                 Immediate (playbackQueue connected)]
    /\ channel = (if truthy (msg_channel s1_message) then msg_channel s1_message else JInt 1)
    /\ velocity = (if truthy (msg_velocity s1_message) then msg_velocity s1_message else JInt 127)
    /\ (truthy (msg_channel s1_message) = true -> channel = msg_channel s1_message)
    /\ (msg_channel s1_message = JUndefined -> channel = JInt 1)
    /\ (truthy (msg_velocity s1_message) = true -> velocity = msg_velocity s1_message)
    /\ (msg_velocity s1_message = JUndefined -> velocity = JInt 127)
    /\ (forall n, msg_velocity s1_message = JNum n -> n <> 0 -> velocity = JNum n)
    /\ (msg_velocity s1_message = JInt 0 -> velocity = JInt 127).
Proof.
  apply (immediate_noteOn 1 false s1_message connected).
  reflexivity.
Defined.

Lemma malformed_packet_effects_witness :
  exists s' c',
    handlePerformancePacket 1%nat (int 2000) (int 2000) SyntaxError s2_scheduled = Some s'
    /\ rtcPerf (counters s') = S (rtcPerf (counters s2_scheduled))
    /\ wsImmediate (counters s') = wsImmediate (counters s2_scheduled)
    /\ records s' !! 1%nat = Some c'
    /\ lastSeen c' = Some (int 2000)
    /\ latencyHistory c' = latencyHistory s2_client
    /\ bufferSizeMs c' = bufferSizeMs s2_client
    /\ id c' = id s2_client /\ pc c' = pc s2_client /\ dc c' = dc s2_client
    /\ (forall j, j <> 1%nat -> records s' !! j = records s2_scheduled !! j)
    /\ playbackQueue s' = playbackQueue s2_scheduled
    /\ sinkLog s' = sinkLog s2_scheduled.
Proof.
  apply (malformed_packet_effects 1 (int 2000) (int 2000) s2_scheduled s2_client).
  vm_compute. reflexivity.
Defined.


(** * Further properties of the server *)

(** ** Invariants of the client records *)

(** A property of the stored records that holds of a new record, does not
    depend on the [pc] and [dc] fields, and survives the two updates of
    handlePerformancePacket holds along every step. *)
Lemma step_records (P : nat -> client -> Prop) :
  (forall i, P i (Client i false false [] (int 40) None)) ->
  (forall i c c', P i c -> same_buffer_state c c' -> P i c') ->
  (forall i c seen,
      P i c ->
      P i (Client (id c) (pc c) (dc c) (latencyHistory c) (bufferSizeMs c) (Some seen))) ->
  (forall i c seen sample,
      0 <= sample -> P i c ->
      P i (Client (id c) (pc c) (dc c) (push_latency (latencyHistory c) sample)
                  (buffer_for (push_latency (latencyHistory c) sample)) (Some seen))) ->
  forall s e s',
    (forall i c, records s !! i = Some c -> P i c) ->
    step s e = Some s' ->
    forall i c, records s' !! i = Some c -> P i c.
Proof.
  intros Hnew Hpeer Hseen Hpush s e s' HP Hstep.
  destruct e as [ws|k created data|ws|k|k seen now data|now|]; simpl in Hstep.
  - inversion Hstep; subst. unfold ensureClient.
    assert (Hcreate : forall i c,
               <[nextClientId s := Client (nextClientId s) false false [] (int 40) None]>
                 (records s) !! i
               = Some c -> P i c).
    { intros i c. rewrite lookup_insert. case_decide.
      - intros [= <-]. subst i. apply Hnew.
      - apply HP. }
    by repeat case_match.
  - apply onMessage_unchanged in Hstep as [_ Hr]. intros i c' Hi.
    destruct (Hr i c' Hi) as (c & Hc & Hsame). by apply (Hpeer i c c'); [apply HP|].
  - inversion Hstep; subst. unfold onClose. by case_match.
  - inversion Hstep; subst. intros i c' Hi.
    destruct (onDataChannel_unchanged k s) as (_ & _ & _ & _ & _ & Hr).
    destruct (Hr i c' Hi) as (c & Hc & Hsame). by apply (Hpeer i c c'); [apply HP|].
  - unfold handlePerformancePacket in Hstep.
    destruct (records s !! k) as [c0|] eqn:Hc; [|by inversion Hstep; subst].
    destruct data as [| |obj]; [|done|].
    + inversion Hstep; subst. intros i c. simpl. rewrite lookup_insert. case_decide.
      * intros [= <-]. subst i. by apply Hseen, HP.
      * apply HP.
    + inversion Hstep; subst. intros i c. simpl.
      rewrite lookup_insert. case_decide.
      * intros [= <-]. subst i. apply Hpush; [lia|]. by apply HP.
      * rewrite lookup_insert. case_decide; [done|]. apply HP.
  - inversion Hstep; subst. unfold dispatcher_tick.
    destruct (dispatch_loop now (playbackQueue s) (sinkLog s)). done.
  - by inversion Hstep; subst.
Qed.

Lemma run_records (P : nat -> client -> Prop) :
  (forall i, P i (Client i false false [] (int 40) None)) ->
  (forall i c c', P i c -> same_buffer_state c c' -> P i c') ->
  (forall i c seen,
      P i c ->
      P i (Client (id c) (pc c) (dc c) (latencyHistory c) (bufferSizeMs c) (Some seen))) ->
  (forall i c seen sample,
      0 <= sample -> P i c ->
      P i (Client (id c) (pc c) (dc c) (push_latency (latencyHistory c) sample)
                  (buffer_for (push_latency (latencyHistory c) sample)) (Some seen))) ->
  forall midi inputs s,
    run (initial_state midi) inputs = Some s ->
    forall i c, records s !! i = Some c -> P i c.
Proof.
  intros Hnew Hpeer Hseen Hpush midi inputs s Hrun.
  apply (run_invariant (fun s => forall i c, records s !! i = Some c -> P i c))
    with (inputs := inputs) (s := initial_state midi);
    [|intros i c; simpl; by rewrite lookup_empty|done].
  intros s0 e s1 HP Hstep. by apply (step_records P Hnew Hpeer Hseen Hpush s0 e s1).
Qed.

(** The signaling turns allocate no record and free none. *)
Lemma onMessage_dom (i : nat) (created : bool) (data : parsed) (s s' : state) :
  onMessage i created data s = Some s' ->
  forall j, is_Some (records s' !! j) <-> is_Some (records s !! j).
Proof.
  intros H j.
  destruct (onMessage_frame _ _ _ _ _ H)
    as (_ & _ & _ & [->|(c & m & _ & _ & Hc & ->)]); [done|].
  rewrite lookup_insert. case_decide; [subst j; rewrite Hc; split; by eexists|done].
Qed.

Lemma onDataChannel_dom (i : nat) (s : state) :
  forall j, is_Some (records (onDataChannel i s) !! j) <-> is_Some (records s !! j).
Proof.
  intros j. unfold onDataChannel.
  destruct (records s !! i) as [c|] eqn:Hc; [|done]. simpl.
  rewrite lookup_insert. case_decide; [subst j; rewrite Hc; split; by eexists|done].
Qed.

Lemma run_record_ids (midi : bool) (inputs : list input) (s : state) :
  run (initial_state midi) inputs = Some s ->
  forall i c, records s !! i = Some c -> id c = i.
Proof.
  apply (run_records (fun i c => id c = i)); try done.
  intros i c c' Hc (Hid & _). by rewrite Hid.
Qed.

Lemma push_latency_nonneg (history : list number) (sample : number) :
  0 <= sample -> Forall (fun x => 0 <= x) history ->
  Forall (fun x => 0 <= x) (push_latency history sample).
Proof.
  intros Hs Hh. unfold push_latency.
  assert (Hall : Forall (fun x => 0 <= x) (history ++ [sample])).
  { apply Forall_app. split; [done|]. by repeat constructor. }
  case_match; [by apply Forall_drop|done].
Qed.

(** X1.  In every state the server reaches, the latency window of every
    client record holds at most 200 samples, none of them negative. *)
Theorem latency_window_bounded (midi : bool) (inputs : list input) (s : state) :
  run (initial_state midi) inputs = Some s ->
  forall i c,
    records s !! i = Some c ->
    (length (latencyHistory c) <= 200)%nat /\ Forall (fun x => 0 <= x) (latencyHistory c).
Proof.
  apply (run_records (fun _ c => (length (latencyHistory c) <= 200)%nat
                                 /\ Forall (fun x => 0 <= x) (latencyHistory c))).
  - intros i. simpl. split; [lia|constructor].
  - intros i c c' H (_ & -> & _). exact H.
  - intros i c seen H. exact H.
  - intros i c seen sample Hs [_ Hall]. simpl. split.
    + apply push_latency_length.
    + by apply push_latency_nonneg.
Qed.

(** A rounded value clamped to [10, 300] is an integer in that range. *)
Lemma clamp_round_int (x : number) :
  exists n, clamp (Math_round x) (int 10) (int 300) = int n /\ 10 <= n <= 300.
Proof.
  unfold clamp, Math_round.
  set (k := (x + half) / (2 * half)).
  destruct (int k <? int 10) eqn:Hlo; [exists 10; split; [done|lia]|].
  destruct (int 300 <? int k) eqn:Hhi; [exists 300; split; [done|lia]|].
  exists k. split; [done|]. apply Z.ltb_ge in Hlo, Hhi.
  rewrite int_le in Hlo, Hhi. lia.
Qed.

Lemma buffer_window_related (midi : bool) (inputs : list input) (s : state) :
  run (initial_state midi) inputs = Some s ->
  forall i c,
    records s !! i = Some c ->
    (latencyHistory c = [] /\ bufferSizeMs c = int 40)
    \/ (latencyHistory c <> []
        /\ bufferSizeMs c
           = clamp (Math_round (percentile (latencyHistory c) 95 + int 15)) (int 10) (int 300)).
Proof.
  apply (run_records (fun _ c =>
           (latencyHistory c = [] /\ bufferSizeMs c = int 40)
           \/ (latencyHistory c <> []
               /\ bufferSizeMs c
                  = clamp (Math_round (percentile (latencyHistory c) 95 + int 15))
                          (int 10) (int 300)))).
  - intros i. by left.
  - intros i c c' H (_ & -> & -> & _). exact H.
  - intros i c seen H. exact H.
  - intros i c seen sample _ _. right. simpl. split.
    + intros E. pose proof (push_latency_length (latencyHistory c) sample) as Hlen.
      rewrite E in Hlen. simpl in Hlen. lia.
    + unfold buffer_for, SAFETY_MARGIN_MS. apply clamp_max_min.
Qed.

(** X6.  In every state the server reaches, a record either has an empty
    window and the initial buffer depth 40, or a nonempty window and the
    buffer depth computed from exactly that window: the 95th percentile
    plus 15, rounded to the nearest integer and clamped to [10, 300].  The
    buffer depth is always a whole number of milliseconds. *)
Theorem buffer_matches_window (midi : bool) (inputs : list input) (s : state) :
  run (initial_state midi) inputs = Some s ->
  forall i c,
    records s !! i = Some c ->
    ((latencyHistory c = [] /\ bufferSizeMs c = int 40)
     \/ (latencyHistory c <> []
         /\ bufferSizeMs c
            = clamp (Math_round (percentile (latencyHistory c) 95 + int 15))
                    (int 10) (int 300)))
    /\ exists n, bufferSizeMs c = int n /\ 10 <= n <= 300.
Proof.
  intros Hrun i c Hc. split.
  - destruct (latencyHistory c) as [|x history] eqn:Hhist.
    + left. split; [done|].
      destruct (buffer_window_related midi inputs s Hrun i c Hc) as [[_ Hb]|[Hne _]]; [done|].
      by rewrite Hhist in Hne.
    + right. split; [done|].
      destruct (buffer_window_related midi inputs s Hrun i c Hc) as [[He _]|[_ Hb]].
      * by rewrite Hhist in He.
      * by rewrite Hhist in Hb.
  - destruct (buffer_window_related midi inputs s Hrun i c Hc) as [[_ ->]|[_ ->]].
    + exists 40. split; [done|lia].
    + apply clamp_round_int.
Qed.

(** ** The latency window and its percentile *)

Lemma push_latency_below_cap (history : list number) (sample : number) :
  (length history < 200)%nat -> push_latency history sample = history ++ [sample].
Proof.
  intros Hlen. unfold push_latency. rewrite length_app. simpl.
  case_match eqn:Hcmp; [|done]. apply Nat.ltb_lt in Hcmp. lia.
Qed.

Lemma push_latency_at_cap (history : list number) (sample : number) :
  length history = 200%nat -> push_latency history sample = drop 1 history ++ [sample].
Proof.
  intros Hlen. unfold push_latency. rewrite length_app. simpl.
  case_match eqn:Hcmp.
  - replace (length history + 1 - 200)%nat with 1%nat by lia.
    rewrite drop_app_le by lia. done.
  - apply Nat.ltb_ge in Hcmp. lia.
Qed.

(** X2.  A performance packet appends its sample at the end of the window;
    when the window already holds 200 samples, the oldest one (the first)
    is dropped, and the others keep their order. *)
Theorem latency_window_slides (i : nat) (seen now : number) (obj : message)
        (s : state) (c : client) :
  records s !! i = Some c ->
  exists s' c',
    handlePerformancePacket i seen now (Parsed obj) s = Some s'
    /\ records s' !! i = Some c'
    /\ ((length (latencyHistory c) < 200)%nat ->
        latencyHistory c'
        = latencyHistory c ++ [Z.max 0 (now - packet_timestamp obj now)])
    /\ (length (latencyHistory c) = 200%nat ->
        latencyHistory c'
        = drop 1 (latencyHistory c) ++ [Z.max 0 (now - packet_timestamp obj now)]).
Proof.
  intros Hc. rewrite (handlePerformancePacket_parsed _ _ _ _ _ _ Hc).
  eexists _, _. split; [reflexivity|]. cbn [records].
  split; [apply lookup_insert_eq|]. cbn [latencyHistory]. split.
  - apply push_latency_below_cap.
  - apply push_latency_at_cap.
Qed.

Lemma merge_sort_Z_unique (arr sorted : list number) :
  Sorted Z.le sorted -> sorted ≡ₚ arr -> merge_sort Z.le arr = sorted.
Proof.
  intros Hs Hp. apply (Sorted_unique Z.le).
  - apply (Sorted_merge_sort Z.le).
  - done.
  - by rewrite merge_sort_Permutation.
Qed.

Lemma percentile_Permutation (arr1 arr2 : list number) (p : Z) :
  arr1 ≡ₚ arr2 -> percentile arr1 p = percentile arr2 p.
Proof.
  intros Hp. unfold percentile.
  assert (Hsort : merge_sort Z.le arr1 = merge_sort Z.le arr2).
  { apply merge_sort_Z_unique; [apply (Sorted_merge_sort Z.le)|].
    by rewrite merge_sort_Permutation. }
  destruct arr1 as [|a1 arr1], arr2 as [|a2 arr2].
  - done.
  - by apply Permutation_nil_l in Hp.
  - by apply Permutation_nil_r in Hp.
  - by rewrite Hsort.
Qed.

(** X3.  [percentile] depends on the samples only, not on their order in
    the window. *)
Theorem percentile_order_independent (arr1 arr2 : list number) (p : Z) :
  arr1 ≡ₚ arr2 -> percentile arr1 p = percentile arr2 p.
Proof.
  intros Hp.
  assert (Hlen : length arr1 = length arr2) by (by rewrite Hp).
  assert (Hsort : merge_sort Z.le arr1 = merge_sort Z.le arr2).
  { apply (Sorted_unique Z.le).
    - apply (Sorted_merge_sort Z.le).
    - apply (Sorted_merge_sort Z.le).
    - by rewrite !merge_sort_Permutation. }
  unfold percentile. rewrite Hsort.
  destruct arr1, arr2; simpl in Hlen; congruence.
Qed.

(** X4.  The 95th percentile of an empty window is 0; that of a nonempty
    window is one of its samples, so it lies between the least and the
    greatest of them. *)
Theorem percentile_is_a_sample (arr : list number) :
  percentile [] 95 = 0
  /\ (arr <> [] ->
      percentile arr 95 ∈ arr
      /\ forall lo hi,
           Forall (fun x => lo <= x <= hi) arr -> lo <= percentile arr 95 <= hi).
Proof.
  split; [reflexivity|]. intros Hne.
  destruct (percentile_spec arr Hne) as (sorted & _ & Hperm & Hidx).
  assert (Hin : percentile arr 95 ∈ sorted) by (apply list_elem_of_lookup; eauto).
  rewrite Hperm in Hin.
  split; [done|]. intros lo hi Hall.
  rewrite Forall_forall in Hall. by apply Hall.
Qed.

Lemma percentile_index_small (n : nat) :
  (1 <= n <= 20)%nat -> percentile_index 95 (S n) = (n - 1)%nat.
Proof.
  intros Hn.
  assert (Hall : forallb (fun n => Nat.eqb (percentile_index 95 (S n)) (n - 1)) (seq 1 20)
                 = true) by (vm_compute; reflexivity).
  rewrite forallb_forall in Hall. apply Nat.eqb_eq, Hall, in_seq. lia.
Qed.

(** X5.  In a window of 2 to 21 samples the 95th percentile ignores the
    largest sample: when [big] is at least every other sample, the
    percentile is the greatest of the others, wherever [big] stands in the
    window.  One latency spike does not raise the buffer depth. *)
Theorem percentile_ignores_single_spike (window others : list number) (big : number) :
  window ≡ₚ big :: others ->
  (1 <= length others <= 20)%nat ->
  Forall (fun x => x <= big) others ->
  exists m,
    m ∈ others
    /\ Forall (fun x => x <= m) others
    /\ percentile window 95 = m.
Proof.
  intros Hperm Hlen Hbig.
  set (sorted := merge_sort Z.le others).
  assert (Hsorted : StronglySorted Z.le sorted).
  { apply (StronglySorted_merge_sort Z.le). }
  assert (Hp : sorted ≡ₚ others) by apply merge_sort_Permutation.
  assert (Hslen : length sorted = length others) by (by rewrite Hp).
  destruct (last sorted) as [m|] eqn:Hlast;
    [|apply last_None in Hlast; rewrite Hlast in Hslen; simpl in Hslen; lia].
  apply last_Some in Hlast as [front Hfront].
  exists m. split; [|split].
  - rewrite <- Hp, Hfront. apply elem_of_app. right. apply list_elem_of_here.
  - rewrite <- Hp, Hfront. rewrite Hfront in Hsorted.
    apply StronglySorted_app in Hsorted as (Hcross & _ & _).
    apply Forall_app. split; [|by repeat constructor].
    apply Forall_forall. intros x Hx. apply Hcross; [done|apply list_elem_of_here].
  - rewrite (percentile_Permutation window (sorted ++ [big]) 95).
    2:{ rewrite Hperm, Hp. by rewrite <- Permutation_cons_append. }
    unfold percentile.
    assert (Hms : merge_sort Z.le (sorted ++ [big]) = sorted ++ [big]).
    { apply merge_sort_Z_unique; [|done].
      apply StronglySorted_Sorted, StronglySorted_app. split; [|split].
      - intros x1 x2 Hx1 Hx2. apply list_elem_of_singleton in Hx2 as ->.
        rewrite Forall_forall in Hbig. apply Hbig. by rewrite <- Hp.
      - done.
      - by repeat constructor. }
    destruct (sorted ++ [big]) as [|z zs] eqn:Hz.
    { destruct sorted; discriminate. }
    rewrite <- Hz in *. rewrite Hms.
    rewrite length_app. simpl. replace (length sorted + 1)%nat with (S (length sorted)) by lia.
    rewrite percentile_index_small by lia.
    apply nth_lookup_Some. rewrite lookup_app_l by lia.
    rewrite Hfront, length_app. simpl.
    replace (length front + 1 - 1)%nat with (length front) by lia.
    by rewrite list_lookup_middle.
Qed.

(** ** Deadlines *)

Lemma scheduled_events_deadlines (p : number) (obj : message) :
  Forall (fun e => playAt e = p \/ playAt e = p + int 800) (scheduled_events p obj)
  /\ (forall e, head (scheduled_events p obj) = Some e -> playAt e = p).
Proof.
  split; [|intros e; apply head_scheduled_events_playAt].
  unfold scheduled_events.
  repeat case_match; repeat first [apply Forall_nil_2 | apply Forall_cons_2; [simpl; auto|]].
Qed.

(** X7.  Every event a performance packet schedules is due between 10 and
    300 ms after the packet's timestamp, except the safety NoteOff of a
    noteOn, due 800 ms later than that: nothing is scheduled before
    [timestamp + 10] or after [timestamp + 1100]. *)
Theorem deadline_within_buffer_bounds (i : nat) (seen now : number) (obj : message)
        (s : state) (c : client) :
  records s !! i = Some c ->
  exists s' added,
    handlePerformancePacket i seen now (Parsed obj) s = Some s'
    /\ playbackQueue s' ≡ₚ added ++ playbackQueue s
    /\ Forall (fun e => packet_timestamp obj now + int 10 <= playAt e
                        <= packet_timestamp obj now + int 1100) added
    /\ (forall e, head added = Some e ->
          packet_timestamp obj now + int 10 <= playAt e
          <= packet_timestamp obj now + int 300).
Proof.
  intros Hc. rewrite (handlePerformancePacket_parsed _ _ _ _ _ _ Hc).
  eexists _, _. split; [reflexivity|]. cbn [playbackQueue].
  split; [apply foldl_insertEvent_Permutation|].
  set (history := push_latency _ _).
  pose proof (buffer_for_range history) as Hb.
  destruct (scheduled_events_deadlines (packet_timestamp obj now + buffer_for history) obj)
    as [Hall Hhd].
  split.
  - eapply Forall_impl; [exact Hall|]. intros e [-> | ->]; nlia.
  - intros e He. rewrite (Hhd e He). nlia.
Qed.

(** The buffer depth a first sample gives. *)
Lemma buffer_for_first (sample : number) :
  0 <= sample ->
  buffer_for (push_latency [] sample) = Z.min (int 300) (Math_round (sample + int 15)).
Proof.
  intros Hs. change (push_latency [] sample) with [sample].
  unfold buffer_for. rewrite percentile_singleton.
  pose proof (Math_round_ge_int (sample + SAFETY_MARGIN_MS) 15 ltac:(nlia)). nlia.
Qed.

(** X8.  The first packet of a client (empty window) sets the buffer depth
    to its own latency plus 15, rounded to the nearest integer and capped
    at 300, and every event it schedules is in the queue, the first of them
    with the timestamp plus that buffer depth for its deadline.  When the
    packet is at most 285 ms old that deadline is within half a millisecond
    of 15 ms after the arrival, and exactly 15 ms after it when the latency
    is a whole number of milliseconds. *)
Theorem first_packet_deadline (i : nat) (seen now ts : number) (obj : message)
        (s : state) (c : client) :
  records s !! i = Some c ->
  latencyHistory c = [] ->
  msg_timestamp obj = JNum ts ->
  exists s' c',
    handlePerformancePacket i seen now (Parsed obj) s = Some s'
    /\ records s' !! i = Some c'
    /\ latencyHistory c' = [Z.max 0 (now - ts)]
    /\ bufferSizeMs c' = Z.min (int 300) (Math_round (Z.max 0 (now - ts) + int 15))
    /\ playbackQueue s'
       = foldl insertEvent (playbackQueue s) (scheduled_events (ts + bufferSizeMs c') obj)
    /\ (forall e, e ∈ scheduled_events (ts + bufferSizeMs c') obj -> e ∈ playbackQueue s')
    /\ (midi_type (msg_type obj) = true ->
        exists e, head (scheduled_events (ts + bufferSizeMs c') obj) = Some e
                  /\ playAt e = ts + bufferSizeMs c'
                  /\ e ∈ playbackQueue s')
    /\ (0 <= now - ts <= int 285 ->
        now + int 15 - half < ts + bufferSizeMs c' <= now + int 15 + half
        /\ (forall n, now - ts = int n -> ts + bufferSizeMs c' = now + int 15)).
Proof.
  intros Hc Hempty Hts. rewrite (handlePerformancePacket_parsed _ _ _ _ _ _ Hc).
  unfold packet_timestamp. rewrite Hts, Hempty.
  eexists _, _. split; [reflexivity|]. cbn [records playbackQueue].
  split; [apply lookup_insert_eq|]. cbn [latencyHistory bufferSizeMs].
  rewrite buffer_for_first by lia.
  set (sample := Z.max 0 (now - ts)).
  set (b := Z.min (int 300) (Math_round (sample + int 15))).
  split_and!; try done.
  - intros e He. by apply scheduled_events_queued.
  - intros Hm.
    destruct (scheduled_events (ts + b) obj) as [|e rest] eqn:Hev.
    + unfold scheduled_events, midi_type in *.
      repeat case_match; try discriminate. 
    + exists e. split; [done|]. split.
      * apply head_scheduled_events_playAt with (obj := obj). by rewrite Hev.
      * apply scheduled_events_queued. apply list_elem_of_here.
  - intros Hage.
    assert (Hsample : sample = now - ts) by (unfold sample; lia).
    pose proof (Math_round_bounds (sample + int 15)) as Hround.
    pose proof (Math_round_le_int (sample + int 15) 300 ltac:(nlia)) as Hcap.
    assert (Hb : b = Math_round (sample + int 15)) by (unfold b; lia).
    split; [nlia|].
    intros n Hn. rewrite Hb, Hsample, Hn.
    replace (int n + int 15) with (int (n + 15)) by nlia.
    rewrite Math_round_int. nlia.
Qed.

(** X9.  A packet that arrives more than 350 ms after its timestamp is
    never played: its event is queued, but in any tick that reads a clock
    not earlier than the arrival the dispatcher shifts it off the queue
    without a sink call. *)
Theorem stale_packet_is_dropped (i : nat) (seen now ts : number) (obj : message)
        (s : state) (c : client) :
  records s !! i = Some c ->
  msg_timestamp obj = JNum ts ->
  ts + int 350 < now ->
  exists s' c',
    handlePerformancePacket i seen now (Parsed obj) s = Some s'
    /\ records s' !! i = Some c'
    /\ forall e,
         head (scheduled_events (ts + bufferSizeMs c') obj) = Some e ->
         e ∈ playbackQueue s'
         /\ forall t rest log,
              now <= t -> dispatch_loop t (e :: rest) log = dispatch_loop t rest log.
Proof.
  intros Hc Hts Hstale. rewrite (handlePerformancePacket_parsed _ _ _ _ _ _ Hc).
  unfold packet_timestamp. rewrite Hts.
  eexists _, _. split; [reflexivity|]. cbn [records playbackQueue].
  split; [apply lookup_insert_eq|]. cbn [bufferSizeMs].
  set (history := push_latency _ _).
  pose proof (buffer_for_range history) as Hb.
  intros e He. split.
  - rewrite foldl_insertEvent_Permutation. apply elem_of_app. left.
    destruct (scheduled_events _ obj) as [|e0 rest]; [done|].
    simpl in He. inversion He; subst. apply list_elem_of_here.
  - intros t rest log Ht. apply head_scheduled_events_playAt in He.
    simpl.
    destruct (playAt e <=? t) eqn:Hdue; [|apply Z.leb_gt in Hdue; nlia].
    destruct (LATE_DROP_MS <? t - playAt e) eqn:Hlate; [done|].
    apply Z.ltb_ge in Hlate. nlia.
Qed.

(** ** The dispatcher, again *)

Lemma dispatch_loop_not_due (now : number) (q : list event) (log : list sink_entry) :
  head_not_due now q -> dispatch_loop now q log = (q, log).
Proof.
  destruct q as [|evt rest]; simpl; [done|]. intros Hhd.
  destruct (playAt evt <=? now) eqn:Hdue; [|done]. apply Z.leb_le in Hdue. lia.
Qed.

Lemma head_not_due_earlier (now now' : number) (q : list event) :
  now' <= now -> head_not_due now q -> head_not_due now' q.
Proof. destruct q; simpl; [done|]. lia. Qed.

(** X10.  A tick that reads a clock no later than the previous tick did
    changes nothing: the previous tick has left no event it could take. *)
Theorem dispatcher_tick_idempotent (now now' : number) (s : state) :
  now' <= now ->
  dispatcher_tick now' (dispatcher_tick now s) = dispatcher_tick now s.
Proof.
  intros Hle.
  destruct (dispatcher_tick_spec now s) as (_ & _ & _ & _ & _ & Hhd & _).
  apply (head_not_due_earlier now now') in Hhd; [|done].
  unfold dispatcher_tick at 1.
  rewrite (dispatch_loop_not_due now' _ _ Hhd).
  by destruct (dispatcher_tick now s).
Qed.

Lemma filter_all {A} (P : A -> Prop) `{!forall x, Decision (P x)} (l : list A) :
  Forall P l -> filter P l = l.
Proof.
  induction 1 as [|x l Hx _ IH]; [done|]. by rewrite filter_cons_True, IH.
Qed.

Lemma filter_none {A} (P : A -> Prop) `{!forall x, Decision (P x)} (l : list A) :
  Forall (fun x => ~ P x) l -> filter P l = [].
Proof.
  induction 1 as [|x l Hx _ IH]; [done|]. by rewrite filter_cons_False, IH.
Qed.

Lemma filter_ext_in {A} (P Q : A -> Prop)
      `{!forall x, Decision (P x), !forall x, Decision (Q x)} (l : list A) :
  (forall x, x ∈ l -> P x <-> Q x) -> filter P l = filter Q l.
Proof.
  induction l as [|x l IH]; intros Hext; [done|].
  assert (Hx : P x <-> Q x) by apply Hext, list_elem_of_here.
  assert (Hl : filter P l = filter Q l).
  { apply IH. intros y Hy. by apply Hext, list_elem_of_further. }
  destruct (decide (P x)) as [HP|HP].
  - rewrite !filter_cons_True by tauto. by rewrite Hl.
  - rewrite !filter_cons_False by tauto. done.
Qed.

(** X11.  In a state the server reaches, one tick removes from the queue
    exactly the events that are due ([playAt <= now]) and keeps the others
    in their order; the sink is called for exactly those due events that
    are at most 50 ms late, in queue order. *)
Theorem dispatcher_tick_closed_form (midi : bool) (inputs : list input) (s : state)
        (now : number) :
  run (initial_state midi) inputs = Some s ->
  exists entries,
    sinkLog (dispatcher_tick now s) = sinkLog s ++ entries
    /\ playbackQueue (dispatcher_tick now s)
       = filter (fun e => now < playAt e) (playbackQueue s)
    /\ map call entries
       = map dispatch_call
             (filter (fun e => playAt e <= now /\ now <= playAt e + int 50)
                     (playbackQueue s))
    /\ Forall (fun x => from x = Dispatcher now) entries.
Proof.
  intros Hrun. pose proof (run_sorted _ _ _ Hrun) as Hs.
  destruct (dispatcher_tick_spec now s)
    as (popped & entries & Hq & Hlog & Hpop & Hhd & Hcalls & Hent).
  set (q' := playbackQueue (dispatcher_tick now s)) in *.
  assert (Hrest : Forall (fun evt => now < playAt evt) q').
  { apply head_not_due_sorted; [|done]. rewrite Hq in Hs. by eapply queue_sorted_suffix. }
  exists entries. split; [done|]. split; [|split].
  - rewrite Hq, filter_app, (filter_all _ q' Hrest), filter_none; [done|].
    eapply Forall_impl; [exact Hpop|]. intros e He. simpl in *. lia.
  - rewrite Hcalls, Hq, filter_app. f_equal.
    rewrite (filter_none _ q'), app_nil_r.
    + apply filter_ext_in. intros e He.
      rewrite Forall_forall in Hpop. specialize (Hpop e He).
      unfold not_late. nlia.
    + eapply Forall_impl; [exact Hrest|]. intros e He. simpl in *. lia.
  - eapply Forall_impl; [exact Hent|]. by intros x [Hx _].
Qed.


(** ** The queue, again *)

(** On a sorted queue insertEvent is the split by deadline. *)
Lemma insertEvent_closed_form (q : list event) (evt : event) :
  queue_sorted q ->
  insertEvent q evt
  = filter (fun x => playAt x <= playAt evt) q
    ++ evt :: filter (fun x => playAt evt < playAt x) q.
Proof.
  intros Hs.
  destruct (insertEvent_split_sorted q evt Hs) as (l1 & l2 & -> & -> & Hl1 & Hl2).
  rewrite !filter_app.
  rewrite (filter_all _ l1 Hl1), (filter_all _ l2 Hl2).
  rewrite (filter_none (fun x => playAt x <= playAt evt) l2),
          (filter_none (fun x => playAt evt < playAt x) l1).
  - by rewrite app_nil_r.
  - eapply Forall_impl; [exact Hl1|]. intros x Hx. simpl in *. lia.
  - eapply Forall_impl; [exact Hl2|]. intros x Hx. simpl in *. lia.
Qed.

Lemma insertEvent_swap_lt (q : list event) (a b : event) :
  queue_sorted q ->
  playAt a < playAt b ->
  insertEvent (insertEvent q a) b = insertEvent (insertEvent q b) a.
Proof.
  intros Hs Hlt.
  rewrite (insertEvent_closed_form (insertEvent q a) b) by (by apply insertEvent_sorted).
  rewrite (insertEvent_closed_form (insertEvent q b) a) by (by apply insertEvent_sorted).
  rewrite !(insertEvent_closed_form q) by done.
  rewrite !filter_app, !filter_cons.
  repeat case_decide; try lia.
  rewrite (list_filter_filter_r (fun x => playAt x <= playAt b)
                                (fun x => playAt x <= playAt a)) by (intros; lia).
  rewrite (list_filter_filter_l (fun x => playAt b < playAt x)
                                (fun x => playAt a < playAt x)) by (intros; lia).
  rewrite (list_filter_filter_l (fun x => playAt x <= playAt a)
                                (fun x => playAt x <= playAt b)) by (intros; lia).
  rewrite (list_filter_filter_r (fun x => playAt a < playAt x)
                                (fun x => playAt b < playAt x)) by (intros; lia).
  rewrite (filter_none (fun x => playAt b < playAt x)
                       (filter (fun x => playAt x <= playAt a) q)).
  2:{ apply Forall_forall. intros x Hx. apply list_elem_of_filter in Hx as [Hx _]. lia. }
  rewrite (filter_none (fun x => playAt x <= playAt a)
                       (filter (fun x => playAt b < playAt x) q)).
  2:{ apply Forall_forall. intros x Hx. apply list_elem_of_filter in Hx as [Hx _]. lia. }
  rewrite !list_filter_filter. simpl. rewrite <- app_assoc, app_nil_r. simpl.
  rewrite (list_filter_iff (fun x => playAt x <= playAt b /\ playAt a < playAt x)
                           (fun x => playAt a < playAt x <= playAt b) q); [done|].
  intros x. tauto.
Qed.

(** X12.  On the queue of a state the server reaches, inserting two events
    with different deadlines gives the same queue whichever is inserted
    first: the order in which two such packets arrive leaves no trace. *)
Theorem insertEvent_order_independent (midi : bool) (inputs : list input) (s : state)
        (a b : event) :
  run (initial_state midi) inputs = Some s ->
  playAt a <> playAt b ->
  insertEvent (insertEvent (playbackQueue s) a) b
  = insertEvent (insertEvent (playbackQueue s) b) a.
Proof.
  intros Hrun Hne. pose proof (run_sorted _ _ _ Hrun) as Hs.
  destruct (Z.lt_total (playAt a) (playAt b)) as [Hlt|[Heq|Hgt]]; [|done|].
  - by apply insertEvent_swap_lt.
  - symmetry. by apply insertEvent_swap_lt.
Qed.

Lemma insertEvent_keeps_earlier_ahead (q : list event) (a b : event) :
  queue_sorted q ->
  playAt a <= playAt b ->
  exists l1 l2 l3, insertEvent (insertEvent q a) b = l1 ++ a :: l2 ++ b :: l3.
Proof.
  intros Hs Hle.
  pose proof (insertEvent_sorted q a Hs) as Hs1.
  pose proof (insertEvent_Permutation q a) as Hperm.
  destruct (insertEvent_split_sorted (insertEvent q a) b Hs1)
    as (m1 & m2 & Hq1 & -> & Hm1 & Hm2).
  assert (Ha : a ∈ m1 ++ m2) by (rewrite <- Hq1, Hperm; apply list_elem_of_here).
  apply elem_of_app in Ha as [Ha|Ha].
  - apply list_elem_of_split in Ha as (l1 & l2 & ->).
    exists l1, l2, m2. by rewrite <- app_assoc.
  - rewrite Forall_forall in Hm2. specialize (Hm2 a Ha). lia.
Qed.

(** X13.  In a state the server reaches, a noteOn packet leaves its NoteOn
    in the queue ahead of its own safety NoteOff, so the dispatcher, which
    works from the front, never reaches the NoteOff first. *)
Theorem noteOn_ahead_of_safety_noteOff (midi : bool) (inputs : list input) (s : state)
        (i : nat) (seen now : number) (obj : message) (c : client) :
  run (initial_state midi) inputs = Some s ->
  records s !! i = Some c ->
  msg_type obj = JStr "noteOn" ->
  exists s' p l1 l2 l3,
    handlePerformancePacket i seen now (Parsed obj) s = Some s'
    /\ playbackQueue s'
       = l1 ++ Event p (EvNoteOn (js_or (msg_channel obj) (JInt 1)) (msg_note obj)
                                 (js_or (msg_velocity obj) (JInt 100)))
            :: l2 ++ Event (p + int 800)
                       (EvNoteOff (js_or (msg_channel obj) (JInt 1)) (msg_note obj))
            :: l3.
Proof.
  intros Hrun Hc Hty. pose proof (run_sorted _ _ _ Hrun) as Hs.
  rewrite (handlePerformancePacket_parsed _ _ _ _ _ _ Hc).
  set (p := packet_timestamp obj now + buffer_for _).
  assert (Hev : scheduled_events p obj
                = [ Event p (EvNoteOn (js_or (msg_channel obj) (JInt 1)) (msg_note obj)
                                      (js_or (msg_velocity obj) (JInt 100)));
                    Event (p + int 800)
                          (EvNoteOff (js_or (msg_channel obj) (JInt 1)) (msg_note obj)) ]).
  { unfold scheduled_events, is_type. rewrite Hty. by rewrite bool_decide_eq_true_2. }
  rewrite Hev. cbn [foldl].
  edestruct (insertEvent_keeps_earlier_ahead (playbackQueue s)) as (l1 & l2 & l3 & Hq);
    [exact Hs| |].
  2:{ eexists _, p, l1, l2, l3. split; [reflexivity|]. cbn [playbackQueue]. exact Hq. }
  simpl. nlia.
Qed.

(** ** The immediate lane *)

(** The sink calls and the counters of one frame. *)
Lemma onMessage_sinkLog (i : nat) (created : bool) (data : parsed) (s s' : state) :
  onMessage i created data s = Some s' ->
  rtcPerf (counters s') = rtcPerf (counters s)
  /\ exists entries,
       sinkLog s' = sinkLog s ++ entries
       /\ (length entries <= 1)%nat
       /\ Forall (fun x => from x = Immediate /\ queue_at_call x = playbackQueue s) entries.
Proof.
  intros H.
  assert (Hone : forall f,
             exists entries,
               sinkLog s ++ [SinkEntry f Immediate (playbackQueue s)] = sinkLog s ++ entries
               /\ (length entries <= 1)%nat
               /\ Forall (fun x => from x = Immediate /\ queue_at_call x = playbackQueue s)
                         entries).
  { intros f. eexists [_]. split; [done|]. split; [simpl; lia|]. by repeat constructor. }
  assert (Hnone : exists entries,
             sinkLog s = sinkLog s ++ entries
             /\ (length entries <= 1)%nat
             /\ Forall (fun x => from x = Immediate /\ queue_at_call x = playbackQueue s)
                       entries).
  { exists []. rewrite app_nil_r. split; [done|]. split; [simpl; lia|constructor]. }
  unfold onMessage in H.
  destruct data as [| |m]; [by inversion H; subst|done|].
  destruct (is_type (msg_type m) "noteOn"); [inversion H; subst; simpl; by split|].
  destruct (is_type (msg_type m) "noteOff"); [inversion H; subst; simpl; by split|].
  destruct (is_type (msg_type m) "controlChange"); [inversion H; subst; simpl; by split|].
  destruct (is_type (msg_type m) "programChange"); [inversion H; subst; simpl; by split|].
  destruct (is_type (msg_type m) "transport").
  { unfold handleTransportControl in H.
    repeat case_match; inversion H; subst; simpl; by split. }
  destruct (is_type (msg_type m) "webrtc-offer"); [|by inversion H; subst].
  destruct (records s !! i); by inversion H; subst.
Qed.

Lemma setupPeerForClient_handles (c : client) (created : bool) :
  pc (setupPeerForClient c created) = created
  /\ dc (setupPeerForClient c created) = negb (pc c) && dc c.
Proof. unfold setupPeerForClient. by destruct (pc c) eqn:Hpc, created. Qed.

(** X14.  Whatever arrives on a WebSocket, the handler leaves the playback
    queue, the registry and [rtcPerf] as they are, and in every client
    record the id, the latency window, the buffer depth and [lastSeen]; it
    makes at most one sink call, at once, with the queue untouched.  The
    only frame that changes a record is a webrtc-offer: setupPeerForClient
    then stores the new peer connection in the record of that socket
    (leaving [pc] null when the connection cannot be made) and forgets the
    data channel of a peer connection it replaces. *)
Theorem immediate_lane_leaves_schedule_alone (i : nat) (created : bool) (data : parsed)
        (s s' : state) :
  onMessage i created data s = Some s' ->
  playbackQueue s' = playbackQueue s
  /\ clients s' = clients s
  /\ nextClientId s' = nextClientId s
  /\ rtcPerf (counters s') = rtcPerf (counters s)
  /\ (forall j, j <> i -> records s' !! j = records s !! j)
  /\ (forall j c', records s' !! j = Some c' ->
        exists c, records s !! j = Some c /\ same_buffer_state c c')
  /\ ((forall message, data = Parsed message -> msg_type message <> JStr "webrtc-offer") ->
      records s' = records s)
  /\ (forall message c,
        data = Parsed message ->
        msg_type message = JStr "webrtc-offer" ->
        records s !! i = Some c ->
        exists c',
          records s' !! i = Some c'
          /\ pc c' = created
          /\ dc c' = negb (pc c) && dc c)
  /\ exists entries,
       sinkLog s' = sinkLog s ++ entries
       /\ (length entries <= 1)%nat
       /\ Forall (fun x => from x = Immediate /\ queue_at_call x = playbackQueue s) entries.
Proof.
  intros H.
  destruct (onMessage_frame _ _ _ _ _ H) as (Hq & Hcl & Hn & Hr).
  destruct (onMessage_sinkLog _ _ _ _ _ H) as (Hrtc & Hlog).
  destruct (onMessage_unchanged _ _ _ _ _ H) as (_ & Hfields).
  split_and!; try done.
  - intros j Hj. destruct Hr as [->|(c & m & _ & _ & _ & ->)]; [done|].
    by rewrite lookup_insert_ne.
  - intros Hno. destruct Hr as [Hr|(c & m & -> & Hty & _)]; [done|].
    by destruct (Hno m).
  - intros m c Hdata Hty Hc.
    subst data. unfold onMessage in H. rewrite Hty in H.
    rewrite (is_type_other "webrtc-offer" "noteOn"),
            (is_type_other "webrtc-offer" "noteOff"),
            (is_type_other "webrtc-offer" "controlChange"),
            (is_type_other "webrtc-offer" "programChange"),
            (is_type_other "webrtc-offer" "transport"),
            (is_type_true _ "webrtc-offer"), Hc in H by done.
    inversion H; subst s'. simpl.
    exists (setupPeerForClient c created). split; [apply lookup_insert_eq|].
    apply setupPeerForClient_handles.
Qed.

(** X15.  The other three MIDI messages of the immediate lane.  A noteOff
    is passed to the sink with velocity 0; a controlChange with the
    controller and the value of the message as they are (no default is
    applied to them, a value of 0 stays 0); a programChange with the
    program of the message.  In each, a missing or zero channel becomes 1,
    [wsImmediate] grows by one and the call is the only new entry of the
    sink log. *)
Theorem immediate_noteOff_controlChange_programChange (i : nat) (created : bool)
        (message : message) (s : state) :
  exists s',
    onMessage i created (Parsed message) s = Some s'
    /\ (msg_type message = JStr "noteOff" ->
        sinkLog s'
        = sinkLog s ++ [SinkEntry (sendNoteOff (js_or (msg_channel message) (JInt 1))
                                               (msg_note message) (JInt 0))
                                  Immediate (playbackQueue s)]
        /\ wsImmediate (counters s') = S (wsImmediate (counters s)))
    /\ (msg_type message = JStr "controlChange" ->
        sinkLog s'
        = sinkLog s ++ [SinkEntry (sendControlChange (js_or (msg_channel message) (JInt 1))
                                                     (msg_control message) (msg_value message))
                                  Immediate (playbackQueue s)]
        /\ wsImmediate (counters s') = S (wsImmediate (counters s)))
    /\ (msg_type message = JStr "programChange" ->
        sinkLog s'
        = sinkLog s ++ [SinkEntry (sendProgramChange (js_or (msg_channel message) (JInt 1))
                                                     (msg_program message))
                                  Immediate (playbackQueue s)]
        /\ wsImmediate (counters s') = S (wsImmediate (counters s))).
Proof.
  destruct (onMessage i created (Parsed message) s) as [s'|] eqn:Hs'.
  2:{ unfold onMessage in Hs'. repeat case_match; discriminate. }
  exists s'. split; [done|]. unfold onMessage in Hs'.
  split; [|split]; intros Hty; rewrite Hty in Hs'.
  - rewrite (is_type_other "noteOff" "noteOn"), (is_type_true _ "noteOff") in Hs' by done.
    by inversion Hs'.
  - rewrite (is_type_other "controlChange" "noteOn"), (is_type_other "controlChange" "noteOff"),
            (is_type_true _ "controlChange") in Hs' by done.
    by inversion Hs'.
  - rewrite (is_type_other "programChange" "noteOn"), (is_type_other "programChange" "noteOff"),
            (is_type_other "programChange" "controlChange"),
            (is_type_true _ "programChange") in Hs' by done.
    by inversion Hs'.
Qed.

Lemma midi_type_cases (t : jsval) :
  midi_type t = true
  <-> t = JStr "noteOn" \/ t = JStr "noteOff"
      \/ t = JStr "controlChange" \/ t = JStr "programChange".
Proof.
  unfold midi_type, is_type. rewrite !orb_true_iff, !bool_decide_eq_true. tauto.
Qed.

Lemma onMessage_counters (i : nat) (created : bool)
        (message : message) (s : state) :
  exists s',
    onMessage i created (Parsed message) s = Some s'
    /\ rtcPerf (counters s') = rtcPerf (counters s)
    /\ wsImmediate (counters s')
       = (if midi_type (msg_type message) then S (wsImmediate (counters s))
          else wsImmediate (counters s)).
Proof.
  unfold onMessage, midi_type, handleTransportControl.
  destruct (is_type (msg_type message) "noteOn"); simpl; [by eexists|].
  destruct (is_type (msg_type message) "noteOff"); simpl; [by eexists|].
  destruct (is_type (msg_type message) "controlChange"); simpl; [by eexists|].
  destruct (is_type (msg_type message) "programChange"); simpl; [by eexists|].
  repeat case_match; by eexists.
Qed.

(** X16.  [wsImmediate] counts the WebSocket messages of type noteOn,
    noteOff, controlChange and programChange and nothing else: a frame that
    is not JSON, a transport message, a signaling message or a message of
    unknown type leaves both counters as they are. *)
Theorem wsImmediate_counts_midi_messages_only (i : nat) (created : bool)
        (data : parsed) (s s' : state) :
  onMessage i created data s = Some s' ->
  rtcPerf (counters s') = rtcPerf (counters s)
  /\ ((exists message,
         data = Parsed message
         /\ (msg_type message = JStr "noteOn" \/ msg_type message = JStr "noteOff"
             \/ msg_type message = JStr "controlChange"
             \/ msg_type message = JStr "programChange"))
      -> wsImmediate (counters s') = S (wsImmediate (counters s)))
  /\ (~ (exists message,
           data = Parsed message
           /\ (msg_type message = JStr "noteOn" \/ msg_type message = JStr "noteOff"
               \/ msg_type message = JStr "controlChange"
               \/ msg_type message = JStr "programChange"))
      -> wsImmediate (counters s') = wsImmediate (counters s)).
Proof.
  intros H. destruct data as [| |message].
  - inversion H; subst. split; [done|]. split; [|done].
    intros (m & Hm & _). discriminate.
  - done.
  - destruct (onMessage_counters i created message s) as (s1 & Hs1 & Hr & Hw).
    rewrite H in Hs1. inversion Hs1; subst s1. split; [done|]. split.
    + intros (m & [= <-] & Hm). apply midi_type_cases in Hm. by rewrite Hm in Hw.
    + intros Hno. destruct (midi_type (msg_type message)) eqn:Hm; [|done].
      destruct Hno. exists message. split; [done|]. by apply midi_type_cases.
Qed.

(** X17.  A transport message is not counted and never touches the queue.
    With no MIDI output attached it does nothing at all.  With one, play,
    stop and pause hand start, stop and continue to the device, record is
    sent as control change 119 with value 127 on channel 1, and any other
    action does nothing. *)
Theorem transport_message_effects (i : nat) (created : bool)
        (message : message) (s : state) :
  msg_type message = JStr "transport" ->
  exists s',
    onMessage i created (Parsed message) s = Some s'
    /\ counters s' = counters s
    /\ playbackQueue s' = playbackQueue s
    /\ (midiOutput s = false -> s' = s)
    /\ (midiOutput s = true ->
        (msg_action message = JStr "play" ->
         sinkLog s' = sinkLog s ++ [SinkEntry (sendTransport "start") Immediate (playbackQueue s)])
        /\ (msg_action message = JStr "stop" ->
            sinkLog s' = sinkLog s ++ [SinkEntry (sendTransport "stop") Immediate (playbackQueue s)])
        /\ (msg_action message = JStr "pause" ->
            sinkLog s'
            = sinkLog s ++ [SinkEntry (sendTransport "continue") Immediate (playbackQueue s)])
        /\ (msg_action message = JStr "record" ->
            sinkLog s'
            = sinkLog s ++ [SinkEntry (sendControlChange (JInt 1) (JInt 119) (JInt 127))
                                      Immediate (playbackQueue s)])
        /\ (msg_action message <> JStr "play" -> msg_action message <> JStr "stop" ->
            msg_action message <> JStr "pause" -> msg_action message <> JStr "record" ->
            s' = s)).
Proof.
  intros Hty. unfold onMessage. rewrite Hty.
  rewrite (is_type_other "transport" "noteOn"), (is_type_other "transport" "noteOff"),
          (is_type_other "transport" "controlChange"),
          (is_type_other "transport" "programChange"),
          (is_type_true _ "transport") by done.
  eexists. split; [reflexivity|]. unfold handleTransportControl.
  destruct (midiOutput s) eqn:Hmidi; simpl.
  2:{ repeat split; try done. }
  assert (Hkeep : forall f, counters (invoke Immediate f s) = counters s
                            /\ playbackQueue (invoke Immediate f s) = playbackQueue s)
    by done.
  split; [by repeat case_match|]. split; [by repeat case_match|].
  split; [done|]. intros _.
  split; [|split; [|split; [|split]]].
  - intros Ha. rewrite Ha. by rewrite (is_type_true _ "play").
  - intros Ha. rewrite Ha.
    by rewrite (is_type_other "stop" "play"), (is_type_true _ "stop").
  - intros Ha. rewrite Ha.
    by rewrite (is_type_other "pause" "play"), (is_type_other "pause" "stop"),
               (is_type_true _ "pause").
  - intros Ha. rewrite Ha.
    by rewrite (is_type_other "record" "play"), (is_type_other "record" "stop"),
               (is_type_other "record" "pause"), (is_type_true _ "record").
  - intros H1 H2 H3 H4. unfold is_type.
    by rewrite !bool_decide_eq_false_2.
Qed.

(** ** The performance lane, again *)

(** X18.  handlePerformancePacket never calls the sink and never touches
    [wsImmediate], the registry or a record other than the one the packet
    arrived for, whatever the payload. *)
Theorem performance_lane_never_calls_sink (i : nat) (seen now : number) (data : parsed)
        (s s' : state) :
  handlePerformancePacket i seen now data s = Some s' ->
  sinkLog s' = sinkLog s
  /\ wsImmediate (counters s') = wsImmediate (counters s)
  /\ clients s' = clients s
  /\ nextClientId s' = nextClientId s
  /\ (forall j, j <> i -> records s' !! j = records s !! j).
Proof.
  unfold handlePerformancePacket. intros H.
  destruct (records s !! i) as [c|]; [|by inversion H; subst].
  destruct data as [| |obj]; [|done|]; inversion H; subst; simpl.
  - repeat split; try done. intros j Hj. by rewrite lookup_insert_ne.
  - repeat split; try done. intros j Hj. by rewrite !lookup_insert_ne.
Qed.

Lemma scheduled_events_other_type (p : number) (obj : message) :
  midi_type (msg_type obj) = false -> scheduled_events p obj = [].
Proof.
  unfold midi_type, scheduled_events. rewrite !orb_false_iff.
  intros [[[-> ->] ->] ->]. done.
Qed.

(** X19.  A datagram whose payload parses to a value other than null and
    whose type is none of noteOn, noteOff, controlChange, programChange (or
    that has no type at all) schedules nothing, yet it is counted and its
    latency sample still enters the window and resizes the buffer.  A
    payload that parses to null makes the read of its timestamp throw a
    TypeError: the exception leaves the handler before a sample is taken,
    and ends the run. *)
Theorem untyped_packet_feeds_estimator_only (i : nat) (seen now : number) (obj : message)
        (s : state) (c : client) :
  records s !! i = Some c ->
  msg_type obj <> JStr "noteOn" -> msg_type obj <> JStr "noteOff" ->
  msg_type obj <> JStr "controlChange" -> msg_type obj <> JStr "programChange" ->
  (exists s' c',
      handlePerformancePacket i seen now (Parsed obj) s = Some s'
      /\ playbackQueue s' = playbackQueue s
      /\ rtcPerf (counters s') = S (rtcPerf (counters s))
      /\ records s' !! i = Some c'
      /\ lastSeen c' = Some seen
      /\ last (latencyHistory c') = Some (Z.max 0 (now - packet_timestamp obj now))
      /\ bufferSizeMs c' = buffer_for (latencyHistory c'))
  /\ handlePerformancePacket i seen now ParsedNull s = None
  /\ (forall rest, run s (DataChannelMessage i seen now ParsedNull :: rest) = None).
Proof.
  intros Hc H1 H2 H3 H4. split; [|split].
  - rewrite (handlePerformancePacket_parsed _ _ _ _ _ _ Hc).
    rewrite scheduled_events_other_type.
    2:{ unfold midi_type, is_type. by rewrite !bool_decide_eq_false_2. }
    eexists _, _. split; [reflexivity|]. simpl.
    split; [done|]. split; [done|]. split; [apply lookup_insert_eq|]. simpl.
    split; [done|]. split; [apply push_latency_last|done].
  - unfold handlePerformancePacket. by rewrite Hc.
  - intros rest. simpl. unfold handlePerformancePacket. by rewrite Hc.
Qed.

(** ** The lane counters along a run *)

Lemma step_counts (s s' : state) (e : input) :
  step s e = Some s' ->
  plain_traffic e = true ->
  (forall i, is_Some (records s' !! i) <-> is_Some (records s !! i))
  /\ rtcPerf (counters s')
     = (rtcPerf (counters s) + (if counts_as_rtcPerf (records s) e then 1 else 0))%nat
  /\ wsImmediate (counters s')
     = (wsImmediate (counters s) + (if counts_as_wsImmediate e then 1 else 0))%nat.
Proof.
  intros Hstep Hplain.
  destruct e as [ws|i created data|ws|i|i seen now data|now|]; simpl in *; try discriminate.
  - pose proof (onMessage_dom _ _ _ _ _ Hstep) as Hdom.
    destruct data as [| |message].
    + inversion Hstep; subst. split; [done|]. split; lia.
    + done.
    + destruct (onMessage_counters i created message s) as (s1 & Hs1 & Hr & Hw).
      rewrite Hstep in Hs1. inversion Hs1; subst s1.
      split; [done|]. rewrite Hr, Hw.
      destruct (midi_type (msg_type message)); split; lia.
  - inversion Hstep; subst. unfold onClose. case_match; simpl; (split; [done|split; lia]).
  - inversion Hstep; subst.
    destruct (onDataChannel_unchanged i s) as (_ & _ & _ & -> & _ & _).
    split; [apply onDataChannel_dom|split; lia].
  - unfold handlePerformancePacket in Hstep.
    destruct (records s !! i) as [c|] eqn:Hc.
    + rewrite bool_decide_eq_true_2 by (by eexists).
      assert (Hdom : forall (c1 c2 : client) j,
                 is_Some (<[i := c2]> (<[i := c1]> (records s)) !! j)
                 <-> is_Some (records s !! j)).
      { intros c1 c2 j. destruct (decide (i = j)) as [<-|Hne].
        - rewrite lookup_insert_eq, Hc. split; by eexists.
        - by rewrite !lookup_insert_ne. }
      assert (Hdom1 : forall (c1 : client) j,
                 is_Some (<[i := c1]> (records s) !! j) <-> is_Some (records s !! j)).
      { intros c1 j. destruct (decide (i = j)) as [<-|Hne].
        - rewrite lookup_insert_eq, Hc. split; by eexists.
        - by rewrite !lookup_insert_ne. }
      destruct data as [| |obj]; [|done|]; inversion Hstep; subst; simpl.
      * split; [apply Hdom1|]. split; lia.
      * split; [apply Hdom|]. split; lia.
    + rewrite bool_decide_eq_false_2 by (intros [? ?]; congruence).
      inversion Hstep; subst. split; [done|]. split; lia.
  - inversion Hstep; subst. unfold dispatcher_tick.
    destruct (dispatch_loop now (playbackQueue s) (sinkLog s)). simpl.
    split; [done|]. split; lia.
Qed.

Lemma counts_as_rtcPerf_dom (r1 r2 : gmap nat client) (e : input) :
  (forall i, is_Some (r1 !! i) <-> is_Some (r2 !! i)) ->
  counts_as_rtcPerf r1 e = counts_as_rtcPerf r2 e.
Proof.
  intros Hdom. destruct e; simpl; try done. by apply bool_decide_ext.
Qed.

Lemma run_counts (inputs : list input) :
  forall s s',
    run s inputs = Some s' ->
    forallb plain_traffic inputs = true ->
    rtcPerf (counters s')
    = (rtcPerf (counters s) + length (List.filter (counts_as_rtcPerf (records s)) inputs))%nat
    /\ wsImmediate (counters s')
       = (wsImmediate (counters s) + length (List.filter counts_as_wsImmediate inputs))%nat.
Proof.
  induction inputs as [|e rest IH]; intros s s' Hrun Hplain; simpl in *.
  - inversion Hrun; subst. split; lia.
  - apply andb_true_iff in Hplain as [He Hrest].
    destruct (step s e) as [s1|] eqn:Hstep; [|done].
    destruct (step_counts s s1 e Hstep He) as (Hdom & Hr & Hw).
    destruct (IH s1 s' Hrun Hrest) as [Hr' Hw'].
    rewrite Hr', Hw', Hr, Hw.
    rewrite (List.filter_ext (counts_as_rtcPerf (records s1)) (counts_as_rtcPerf (records s)))
      by (intros e'; by apply counts_as_rtcPerf_dom).
    destruct (counts_as_rtcPerf (records s) e), (counts_as_wsImmediate e); simpl; split; lia.
Qed.

(** X20.  After the 5 s summary has reset the counters, and as long as no
    new client connects, [rtcPerf] is the number of datagrams received
    since on the data channels of existing clients, whether they parsed or
    not, and [wsImmediate] is the number of noteOn, noteOff, controlChange
    and programChange messages received on the WebSockets. *)
Theorem lane_counters_count_traffic (s s' : state) (inputs : list input) :
  run s (SummaryTick :: inputs) = Some s' ->
  forallb plain_traffic inputs = true ->
  rtcPerf (counters s') = length (List.filter (counts_as_rtcPerf (records s)) inputs)
  /\ wsImmediate (counters s') = length (List.filter counts_as_wsImmediate inputs).
Proof.
  intros Hrun Hplain. cbn [run step] in Hrun.
  destruct (run_counts inputs (summary_tick s) s' Hrun Hplain) as [Hr Hw].
  by rewrite Hr, Hw.
Qed.


(** ** The registry *)

Lemma step_registry_ok (s s' : state) (e : input) :
  registry_ok s -> step s e = Some s' -> registry_ok s'.
Proof.
  intros (Hnext & Hpos & Hreg) Hstep.
  destruct e as [ws|i created data|ws|i|i seen now data|now|]; simpl in Hstep.
  - inversion Hstep; subst. unfold ensureClient.
    assert (Hnew : registry_ok
              (State (midiOutput s) (S (nextClientId s))
                 (<[nextClientId s := Client (nextClientId s) false false [] (int 40) None]>
                    (records s))
                 ({[nextClientId s]} ∪ clients s) (playbackQueue s) (counters s) (sinkLog s))).
    { split; [simpl; lia|]. split; simpl.
      - intros j c. rewrite lookup_insert. case_decide; [intros _; lia|apply Hpos].
      - intros j Hj. rewrite lookup_insert. case_decide; [by eexists|].
        apply Hreg. apply elem_of_union in Hj as [Hj|Hj]; [|done].
        apply elem_of_singleton in Hj. congruence. }
    by repeat case_match.
  - destruct (onMessage_frame _ _ _ _ _ Hstep) as (_ & Hc & Hn & _).
    pose proof (onMessage_dom _ _ _ _ _ Hstep) as Hdom.
    unfold registry_ok. rewrite Hc, Hn. split; [done|]. split.
    + intros j c' Hj. assert (Hsome : is_Some (records s !! j)) by (apply Hdom; by eexists).
      destruct Hsome as [c Hcj]. by apply (Hpos j c).
    + intros j Hj. apply Hdom. by apply Hreg.
  - inversion Hstep; subst. unfold onClose. case_match; [|done].
    split; [done|]. split; [done|]. simpl. intros j Hj. apply Hreg.
    by apply elem_of_difference in Hj as [Hj _].
  - inversion Hstep; subst.
    destruct (onDataChannel_unchanged i s) as (_ & Hc & Hn & _ & _ & _).
    pose proof (onDataChannel_dom i s) as Hdom.
    unfold registry_ok. rewrite Hc, Hn. split; [done|]. split.
    + intros j c' Hj. assert (Hsome : is_Some (records s !! j)) by (apply Hdom; by eexists).
      destruct Hsome as [c Hcj]. by apply (Hpos j c).
    + intros j Hj. apply Hdom. by apply Hreg.
  - unfold handlePerformancePacket in Hstep.
    destruct (records s !! i) as [c|] eqn:Hc; [|by inversion Hstep; subst].
    assert (Hkeep : forall (r : gmap nat client) (c1 : client),
               (forall j cj, r !! j = Some cj -> (1 <= j)%nat) ->
               (forall j, j ∈ clients s -> is_Some (r !! j)) ->
               (forall j cj, <[i := c1]> r !! j = Some cj -> (1 <= j)%nat)
               /\ (forall j, j ∈ clients s -> is_Some (<[i := c1]> r !! j))).
    { intros r c1 Hp Hr. split.
      - intros j cj. rewrite lookup_insert. case_decide; [|apply Hp].
        intros _. subst j. by apply (Hpos i c).
      - intros j Hj. rewrite lookup_insert. case_decide; [by eexists|by apply Hr]. }
    destruct data as [| |obj]; [|done|]; inversion Hstep; subst; simpl.
    + split; [done|]. by apply Hkeep.
    + split; [done|]. simpl. apply Hkeep; by apply Hkeep.
  - inversion Hstep; subst. unfold dispatcher_tick.
    destruct (dispatch_loop now (playbackQueue s) (sinkLog s)). done.
  - by inversion Hstep; subst.
Qed.


Lemma run_registry_ok (midi : bool) (inputs : list input) (s : state) :
  run (initial_state midi) inputs = Some s -> registry_ok s.
Proof.
  apply (run_invariant registry_ok).
  - intros ? ? ?. apply step_registry_ok.
  - split; [simpl; lia|]. split; simpl.
    + intros i c. by rewrite lookup_empty.
    + intros i Hi. by apply elem_of_empty in Hi.
Qed.

(** X21.  In every state the server reaches, a record is stored under its
    own [id], the ids are at least 1 and below [nextClientId] (so the next
    id is new), and every registered client has its record. *)
Theorem client_ids_consistent (midi : bool) (inputs : list input) (s : state) :
  run (initial_state midi) inputs = Some s ->
  (forall i c, records s !! i = Some c -> id c = i /\ (1 <= i < nextClientId s)%nat)
  /\ (forall i, i ∈ clients s -> exists c, clients_get s i = Some c /\ id c = i).
Proof.
  intros Hrun.
  destruct (run_registry_ok _ _ _ Hrun) as (Hnext & Hpos & Hreg).
  pose proof (run_ids_below_next _ _ _ Hrun) as Hbelow.
  pose proof (run_record_ids _ _ _ Hrun) as Hid.
  split.
  - intros i c Hc. split; [by apply Hid|]. split; [by eapply Hpos|by eapply Hbelow].
  - intros i Hi. destruct (Hreg i Hi) as [c Hc]. exists c.
    unfold clients_get. rewrite decide_True by done. split; [done|by apply Hid].
Qed.

(** X22.  For a socket whose client is registered, ensureClient returns
    that client and changes nothing.  Once the socket is closed the id is
    gone for good: ensureClient on the same socket then allocates the next
    id, different from the old one, and the old record stays as it was,
    unregistered. *)
Theorem ensureClient_idempotent_and_never_reuses (midi : bool) (inputs : list input)
        (s : state) (i : nat) :
  run (initial_state midi) inputs = Some s ->
  i ∈ clients s ->
  ensureClient (Some i) s = (i, s)
  /\ (ensureClient (Some i) (onClose (Some i) s)).1 = nextClientId s
  /\ nextClientId s <> i
  /\ records (ensureClient (Some i) (onClose (Some i) s)).2 !! i = records s !! i
  /\ (i ∉ clients (ensureClient (Some i) (onClose (Some i) s)).2)
  /\ (nextClientId s ∈ clients (ensureClient (Some i) (onClose (Some i) s)).2).
Proof.
  intros Hrun Hi.
  destruct (run_registry_ok _ _ _ Hrun) as (Hnext & Hpos & Hreg).
  pose proof (run_ids_below_next _ _ _ Hrun) as Hbelow.
  destruct (Hreg i Hi) as [c Hc].
  pose proof (Hpos i c Hc) as Hi1. pose proof (Hbelow i c Hc) as Hi2.
  assert (Hnz : (i =? 0)%nat = false) by (apply Nat.eqb_neq; lia).
  split.
  { unfold ensureClient. rewrite Hnz. simpl. by rewrite bool_decide_eq_true_2. }
  assert (Hgone : bool_decide (i ∈ clients (onClose (Some i) s)) = false).
  { apply bool_decide_eq_false_2. simpl. intros Hin.
    apply elem_of_difference in Hin as [_ Hn]. by apply Hn, elem_of_singleton. }
  unfold ensureClient. rewrite Hnz, Hgone. simpl.
  split; [done|]. split; [lia|]. split.
  - rewrite lookup_insert_ne by lia. done.
  - split.
    + intros Hin. apply elem_of_union in Hin as [Hin|Hin].
      * apply elem_of_singleton in Hin. lia.
      * apply elem_of_difference in Hin as [_ Hn]. by apply Hn, elem_of_singleton.
    + apply elem_of_union. left. by apply elem_of_singleton.
Qed.

(** ** connectMIDI *)

Lemma connect_preferred_None (opens : nat -> bool) (outputs : list string) :
  forall k,
    connect_preferred opens k outputs = None
    <-> (forall j name, outputs !! j = Some name ->
                        preferred_output name = true -> opens (k + j)%nat = false).
Proof.
  induction outputs as [|o rest IH]; intros k; simpl.
  - split; [|done]. intros _ j name Hj. by rewrite lookup_nil in Hj.
  - destruct (preferred_output o && opens k) eqn:Hhere.
    + split; [done|]. intros Hall. apply andb_true_iff in Hhere as [Hp Ho].
      specialize (Hall 0%nat o eq_refl Hp). rewrite Nat.add_0_r in Hall. congruence.
    + rewrite IH. split.
      * intros Hall [|j] name Hj Hp; simpl in Hj.
        -- inversion Hj; subst. rewrite Nat.add_0_r.
           rewrite Hp in Hhere. by simpl in Hhere.
        -- replace (k + S j)%nat with (S k + j)%nat by lia. by eapply Hall.
      * intros Hall j name Hj Hp.
        replace (S k + j)%nat with (k + S j)%nat by lia. by apply (Hall (S j) name).
Qed.

Lemma connect_preferred_Some (opens : nat -> bool) (outputs : list string) (port : midi_port) :
  forall k,
    connect_preferred opens k outputs = Some port ->
    exists j name,
      port = ExistingOutput name
      /\ outputs !! j = Some name
      /\ preferred_output name = true
      /\ opens (k + j)%nat = true
      /\ (forall j' name', (j' < j)%nat -> outputs !! j' = Some name' ->
                           preferred_output name' = true -> opens (k + j')%nat = false).
Proof.
  induction outputs as [|o rest IH]; intros k; simpl; [done|].
  destruct (preferred_output o && opens k) eqn:Hhere.
  - intros [= <-]. apply andb_true_iff in Hhere as [Hp Ho].
    exists 0%nat, o. rewrite Nat.add_0_r. repeat split; try done. intros; lia.
  - intros Hrest. destruct (IH (S k) Hrest) as (j & name & -> & Hj & Hp & Ho & Hbefore).
    exists (S j), name. replace (k + S j)%nat with (S k + j)%nat by lia.
    repeat split; try done.
    intros [|j'] name' Hlt Hj' Hp'; simpl in Hj'.
    + inversion Hj'; subst. rewrite Nat.add_0_r.
      rewrite Hp' in Hhere. by simpl in Hhere.
    + replace (k + S j')%nat with (S k + j')%nat by lia.
      apply (Hbefore j' name'); [lia|done|done].
Qed.

(** X23.  When some enumerated output whose name contains loopMIDI,
    MIDI Controller, Virtual or IAC can be opened, connectMIDI binds the
    first such output in enumeration order, whether or not a virtual port
    could have been created; outputs with other names are passed over. *)
Theorem connectMIDI_binds_first_preferred (outputs : list string) (opens : nat -> bool)
        (virtual_opens fallback_opens : bool) (j : nat) (name : string) :
  outputs !! j = Some name ->
  preferred_output name = true ->
  opens j = true ->
  exists j0 name0,
    connectMIDI outputs opens virtual_opens fallback_opens = Some (ExistingOutput name0)
    /\ outputs !! j0 = Some name0
    /\ preferred_output name0 = true
    /\ opens j0 = true
    /\ (j0 <= j)%nat
    /\ (forall j' name', (j' < j0)%nat -> outputs !! j' = Some name' ->
                         preferred_output name' = true -> opens j' = false).
Proof.
  intros Hj Hp Ho. unfold connectMIDI.
  destruct (connect_preferred opens 0 outputs) as [port|] eqn:Hloop.
  - destruct (connect_preferred_Some _ _ _ _ Hloop) as (j0 & name0 & -> & Hj0 & Hp0 & Ho0 & Hbefore).
    simpl in *. exists j0, name0. repeat split; try done.
    destruct (decide (j0 <= j)%nat) as [|Hgt]; [done|].
    assert (opens j = false) by (apply (Hbefore j name); [lia|done|done]). congruence.
  - pose proof (proj1 (connect_preferred_None opens outputs 0) Hloop j name Hj Hp) as Hno.
    simpl in Hno. congruence.
Qed.

(** X24.  connectMIDI fails (returns false, [midiOutput] stays null)
    exactly when no preferred output can be opened, the virtual port
    cannot be created, and there is no enumerated output or the first one
    cannot be opened.  An output without a preferred name is bound only as
    that last resort, and then it is the first enumerated output. *)
Theorem connectMIDI_failure_and_fallback (outputs : list string) (opens : nat -> bool)
        (virtual_opens fallback_opens : bool) :
  (connectMIDI outputs opens virtual_opens fallback_opens = None
   <-> (forall j name, outputs !! j = Some name ->
                       preferred_output name = true -> opens j = false)
       /\ virtual_opens = false
       /\ (outputs = [] \/ fallback_opens = false))
  /\ (forall name,
        connectMIDI outputs opens virtual_opens fallback_opens = Some (ExistingOutput name) ->
        preferred_output name = false ->
        virtual_opens = false /\ fallback_opens = true /\ head outputs = Some name)
  /\ (forall name,
        connectMIDI outputs opens virtual_opens fallback_opens = Some (VirtualOutput name) ->
        name = "Web MIDI Controller"
        /\ forall j n, outputs !! j = Some n -> preferred_output n = true -> opens j = false).
Proof.
  unfold connectMIDI.
  destruct (connect_preferred opens 0 outputs) as [port|] eqn:Hloop.
  - destruct (connect_preferred_Some _ _ _ _ Hloop) as (j0 & name0 & -> & Hj0 & Hp0 & Ho0 & _).
    simpl in Ho0. split; [|split].
    + split; [done|]. intros (Hall & _). specialize (Hall j0 name0 Hj0 Hp0). congruence.
    + intros name [= <-] Hnp. congruence.
    + intros name [=].
  - pose proof (proj1 (connect_preferred_None opens outputs 0) Hloop) as Hnone. simpl in Hnone.
    split; [|split].
    + destruct virtual_opens; [split; [done|by intros (_ & ? & _)]|].
      destruct outputs as [|first rest]; [split; [by auto|done]|].
      destruct fallback_opens; [split; [done|]|split; [by auto|done]].
      intros (_ & _ & [?|?]); done.
    + intros name Hres Hnp. destruct virtual_opens; [done|].
      destruct outputs as [|first rest]; [done|].
      destruct fallback_opens; [|done]. by inversion Hres.
    + intros name Hres. destruct virtual_opens.
      * inversion Hres. done.
      * destruct outputs as [|first rest]; [done|]. by destruct fallback_opens.
Qed.

(** ** getLocalIP *)

Lemma first_external_Some (nets : list net_address) (a : string) :
  first_external nets = Some a ->
  exists net, net ∈ nets /\ family net = "IPv4" /\ internal net = false /\ address net = a.
Proof.
  induction nets as [|net rest IH]; simpl; [done|].
  destruct (external_ipv4 net) eqn:Hext.
  - intros [= <-]. exists net. split; [apply list_elem_of_here|].
    unfold external_ipv4 in Hext. apply andb_true_iff in Hext as [Hf Hi].
    apply bool_decide_eq_true in Hf. apply negb_true_iff in Hi. done.
  - intros Hrest. destruct (IH Hrest) as (n & Hin & Hn). exists n.
    split; [by apply list_elem_of_further|done].
Qed.

Lemma first_external_None (nets : list net_address) :
  first_external nets = None <-> Forall (fun net => external_ipv4 net = false) nets.
Proof.
  induction nets as [|net rest IH]; simpl; [split; [constructor|done]|].
  destruct (external_ipv4 net) eqn:Hext.
  - split; [done|]. intros Hall. apply Forall_cons in Hall as [? _]. congruence.
  - rewrite IH. split; [by constructor|]. by intros [_ ?]%Forall_cons.
Qed.

(** X25.  getLocalIP returns the address of an IPv4 address entry that is
    not internal whenever some interface has one, and the name localhost
    when none has; it never returns an internal or a non-IPv4 address. *)
Theorem getLocalIP_external_or_localhost (interfaces : list (string * list net_address)) :
  ((exists name nets net,
       (name, nets) ∈ interfaces /\ net ∈ nets /\ external_ipv4 net = true)
   -> exists name nets net,
        (name, nets) ∈ interfaces /\ net ∈ nets
        /\ family net = "IPv4" /\ internal net = false
        /\ getLocalIP interfaces = address net)
  /\ ((forall name nets net,
         (name, nets) ∈ interfaces -> net ∈ nets -> external_ipv4 net = false)
      -> getLocalIP interfaces = "localhost").
Proof.
  induction interfaces as [|[name0 nets0] rest [IHsome IHnone]]; simpl.
  - split; [|done]. intros (name & nets & net & Hin & _). by apply elem_of_nil in Hin.
  - destruct (first_external nets0) as [a|] eqn:Hfirst.
    + split.
      * intros _. destruct (first_external_Some _ _ Hfirst) as (net & Hin & Hf & Hi & Ha).
        exists name0, nets0, net. split; [apply list_elem_of_here|]. by rewrite Ha.
      * intros Hall. destruct (first_external_Some _ _ Hfirst) as (net & Hin & Hf & Hi & Ha).
        assert (Hext : external_ipv4 net = false)
          by (apply (Hall name0 nets0); [apply list_elem_of_here|done]).
        unfold external_ipv4 in Hext. rewrite Hi, Hf in Hext.
        rewrite bool_decide_eq_true_2 in Hext by done. discriminate.
    + apply first_external_None in Hfirst. rewrite Forall_forall in Hfirst. split.
      * intros (name & nets & net & Hin & Hnet & Hext).
        apply elem_of_cons in Hin as [Heq|Hin].
        -- inversion Heq; subst. specialize (Hfirst net Hnet). congruence.
        -- destruct IHsome as (n1 & ns1 & net1 & Hin1 & Hrest1); [by eauto 6|].
           exists n1, ns1, net1. split; [by apply list_elem_of_further|done].
      * intros Hall. apply IHnone. intros name nets net Hin Hnet.
        apply (Hall name nets); [by apply list_elem_of_further|done].
Qed.


(** ** The stats broadcast *)

Lemma omap_records_ids (s : state) (l : list nat) :
  (forall i c, records s !! i = Some c -> id c = i) ->
  Forall (fun i => is_Some (records s !! i) /\ i ∈ clients s) l ->
  map id (omap (fun i => records s !! i) l) = l
  /\ Forall (fun c => records s !! id c = Some c /\ id c ∈ clients s)
            (omap (fun i => records s !! i) l).
Proof.
  intros Hid Hall.
  induction Hall as [|i l [[c Hc] Hi] _ [IH1 IH2]]; [split; [done|constructor]|].
  assert (Hstep : omap (fun i => records s !! i) (i :: l)
                  = c :: omap (fun i => records s !! i) l).
  { change (omap (fun i => records s !! i) (i :: l))
      with (match records s !! i with
            | Some y => y :: omap (fun i => records s !! i) l
            | None => omap (fun i => records s !! i) l
            end).
    by rewrite Hc. }
  rewrite Hstep. simpl. rewrite (Hid i c Hc), IH1. split; [done|].
  constructor; [|done]. by rewrite (Hid i c Hc).
Qed.

Lemma clients_values_ids (s : state) :
  registry_ok s ->
  (forall i c, records s !! i = Some c -> id c = i) ->
  map id (clients_values s) = merge_sort Nat.le (elements (clients s))
  /\ Forall (fun c => records s !! id c = Some c /\ id c ∈ clients s) (clients_values s).
Proof.
  intros (_ & _ & Hreg) Hid. unfold clients_values.
  apply omap_records_ids; [done|].
  apply Forall_forall. intros i Hi. rewrite merge_sort_Permutation in Hi.
  apply elem_of_elements in Hi. split; [by apply Hreg|done].
Qed.

Lemma strictly_sorted_of_NoDup (l : list nat) :
  StronglySorted Nat.le l -> NoDup l -> StronglySorted lt l.
Proof.
  induction l as [|x l IH]; intros Hs Hnd; [constructor|].
  apply StronglySorted_cons in Hs as [Hx Hs].
  apply NoDup_cons in Hnd as [Hnotin Hnd].
  constructor; [by apply IH|].
  apply Forall_forall. intros y Hy. rewrite Forall_forall in Hx.
  specialize (Hx y Hy). assert (x <> y) by (by intros ->). lia.
Qed.

(** X26.  The [clients] array of a stats frame lists every registered
    client exactly once, in ascending order of the ids, and nobody else
    (a client whose socket has closed is gone from it). *)
Theorem snapshot_lists_registered_clients (midi : bool) (inputs : list input) (s : state)
        (now : number) :
  run (initial_state midi) inputs = Some s ->
  Sorted lt (map stat_id (stat_clients (snapshot now s)))
  /\ (forall i, i ∈ map stat_id (stat_clients (snapshot now s)) <-> i ∈ clients s)
  /\ queueLength (snapshot now s) = length (playbackQueue s)
  /\ laneCounters (snapshot now s) = counters s.
Proof.
  intros Hrun.
  pose proof (run_registry_ok _ _ _ Hrun) as Hreg.
  pose proof (run_record_ids _ _ _ Hrun) as Hid.
  destruct (clients_values_ids s Hreg Hid) as [Hids _].
  assert (Hmap : map stat_id (stat_clients (snapshot now s))
                 = merge_sort Nat.le (elements (clients s))).
  { simpl. rewrite <- Hids. rewrite map_map. done. }
  rewrite Hmap. split; [|split; [|done]].
  - assert (Hnd : NoDup (merge_sort Nat.le (elements (clients s)))).
    { rewrite merge_sort_Permutation. apply NoDup_elements. }
    assert (Hs : StronglySorted Nat.le (merge_sort Nat.le (elements (clients s)))).
    { apply (StronglySorted_merge_sort Nat.le). }
    apply StronglySorted_Sorted. by apply strictly_sorted_of_NoDup.
  - intros i. rewrite merge_sort_Permutation. apply elem_of_elements.
Qed.

Lemma slice_last_suffix (n : nat) (arr : list number) :
  arr = take (length arr - n) arr ++ slice_last n arr
  /\ length (slice_last n arr) = Nat.min n (length arr).
Proof.
  unfold slice_last. split; [by rewrite take_drop|]. rewrite length_drop. lia.
Qed.

(** X27.  Every entry of a stats frame describes a registered client's
    record faithfully: the reported buffer depth is the record's (never
    the 0 that stands for a missing one) and lies in [10, 300]; when the
    window is not empty the reported buffer depth is the reported p95
    plus 15, rounded to the nearest integer and clamped; the reported
    history is the last 50 samples of the window (all of it when shorter),
    in order. *)
Theorem snapshot_entry_consistent (midi : bool) (inputs : list input) (s : state)
        (now : number) (entry : client_stats) :
  run (initial_state midi) inputs = Some s ->
  entry ∈ stat_clients (snapshot now s) ->
  exists c,
    clients_get s (stat_id entry) = Some c
    /\ stat_bufferSizeMs entry = bufferSizeMs c
    /\ int 10 <= stat_bufferSizeMs entry <= int 300
    /\ stat_rttP95 entry = percentile (latencyHistory c) 95
    /\ (latencyHistory c <> [] ->
        stat_bufferSizeMs entry
        = clamp (Math_round (stat_rttP95 entry + int 15)) (int 10) (int 300))
    /\ (exists older, latencyHistory c = older ++ stat_latencyHistory entry)
    /\ length (stat_latencyHistory entry) = Nat.min 50 (length (latencyHistory c)).
Proof.
  intros Hrun Hin.
  pose proof (run_registry_ok _ _ _ Hrun) as Hreg.
  pose proof (run_record_ids _ _ _ Hrun) as Hid.
  destruct (clients_values_ids s Hreg Hid) as [_ Hvals].
  simpl in Hin. apply list_elem_of_fmap in Hin as (c & -> & Hc).
  rewrite Forall_forall in Hvals. destruct (Hvals c Hc) as [Hrec Hregd].
  pose proof (run_buffers _ _ _ Hrun _ _ Hrec) as Hrange.
  exists c. simpl.
  assert (Hbuf : (if bufferSizeMs c =? 0 then 0 else bufferSizeMs c) = bufferSizeMs c).
  { destruct (bufferSizeMs c =? 0) eqn:E; [apply Z.eqb_eq in E; nlia|done]. }
  rewrite Hbuf. split.
  { unfold clients_get. by rewrite decide_True. }
  split; [done|]. split; [done|]. split; [done|]. split.
  - intros Hne.
    destruct (buffer_window_related midi inputs s Hrun _ _ Hrec) as [[He _]|[_ Hb]]; done.
  - destruct (slice_last_suffix 50 (latencyHistory c)) as [Hsuf Hlen].
    split; [by eexists|done].
Qed.


(** ** The client *)

(** X28.  How sendMIDI routes a message.  A performance message goes to
    the data channel, stamped with the client's clock, when the channel is
    open and the send returns; otherwise it is queued or dropped, and it
    reaches the WebSocket only if [allowWSFallback] is set, then without a
    timestamp.  Any other message goes to the WebSocket, or nowhere when
    the socket is not open, and never touches the queue. *)
Theorem sendMIDI_routing (env : client_env) (now : number) (msg : message)
        (pending : list message) :
  (midi_type (msg_type msg) = true ->
   (dc_open env = true -> dc_send_returns env = true ->
    sendMIDI env now msg pending = (SentRTC (with_timestamp now msg), pending))
   /\ (forall sent, (sendMIDI env now msg pending).1 = SentWS sent ->
                    allowWSFallback env = true /\ sent = msg)
   /\ (allowWSFallback env = false ->
       dc_open env && dc_send_returns env = false ->
       (sendMIDI env now msg pending).1 = Queued (with_timestamp now msg)
       \/ (sendMIDI env now msg pending).1 = DroppedQueueFull (with_timestamp now msg)))
  /\ (midi_type (msg_type msg) = false ->
      sendMIDI env now msg pending
      = (if ws_ready env then SentWS msg else NotSent msg, pending)).
Proof.
  unfold sendMIDI, safeSend, rtcOnly. split.
  - intros ->. split; [|split].
    + intros -> ->. done.
    + intros sent. destruct (dc_open env && dc_send_returns env); simpl; [done|].
      destruct (allowWSFallback env); simpl.
      * destruct (ws_ready env); simpl; [|done]. by intros [= <-].
      * by destruct (length pending <? 256)%nat.
    + intros -> ->. simpl. destruct (length pending <? 256)%nat; [by left|by right].
  - by intros ->.
Qed.

(** X29.  Over any sequence of calls of sendMIDI, starting with at most
    256 queued packets, the queue of pending performance packets never
    holds more than 256; it only grows at its end, and only by performance
    packets stamped with the client's clock. *)
Theorem sendMIDI_pending_bounded (calls : list (client_env * number * message))
        (pending : list message) :
  (length pending <= 256)%nat ->
  (length (sendMIDI_calls calls pending).2 <= 256)%nat
  /\ exists added,
       (sendMIDI_calls calls pending).2 = pending ++ added
       /\ Forall (fun packet => midi_type (msg_type packet) = true
                                /\ exists t, msg_timestamp packet = JNum t) added.
Proof.
  revert pending.
  induction calls as [|[[env now] msg] rest IH]; intros pending Hlen; simpl.
  - split; [done|]. exists []. by rewrite app_nil_r.
  - destruct (sendMIDI env now msg pending) as [action pending1] eqn:Hcall.
    assert (Hone : (length pending1 <= 256)%nat
                   /\ (pending1 = pending
                       \/ (pending1 = pending ++ [with_timestamp now msg]
                           /\ midi_type (msg_type msg) = true))).
    { unfold sendMIDI in Hcall.
      destruct (midi_type (msg_type msg)) eqn:Hm; [|inversion Hcall; subst; auto].
      destruct (dc_open env && dc_send_returns env); [inversion Hcall; subst; auto|].
      destruct (rtcOnly && negb (allowWSFallback env)); [|inversion Hcall; subst; auto].
      destruct (length pending <? 256)%nat eqn:Hcap; inversion Hcall; subst; [|auto].
      apply Nat.ltb_lt in Hcap. rewrite length_app. simpl. split; [lia|auto]. }
    destruct Hone as [Hlen1 Hgrow].
    destruct (sendMIDI_calls rest pending1) as [actions pending2] eqn:Hrest.
    specialize (IH pending1 Hlen1). rewrite Hrest in IH. simpl in *.
    destruct IH as [Hlen2 (added & -> & Hadded)]. split; [done|].
    destruct Hgrow as [->|[-> Hm]].
    + by exists added.
    + exists (with_timestamp now msg :: added). rewrite <- app_assoc. split; [done|].
      constructor; [|done]. split; [done|]. by exists now.
Qed.

(** X30.  Client and server together.  A performance message that sendMIDI
    puts on the open data channel at client time [t], once the server
    handles it at server time [now], adds the sample [max(0, now - t)] to
    the window and schedules the events of the message as the client
    wrote it, at [t] plus the new buffer depth: there is at least one,
    the first of them has that very deadline, and each of them is in the
    playback queue afterwards, next to everything that was queued before.
    The server's default for a missing timestamp never applies to what this
    client sends. *)
Theorem sendMIDI_then_handlePerformancePacket (env : client_env) (t : number) (msg : message)
        (pending : list message) (i : nat) (seen now : number) (s : state) (c : client) :
  midi_type (msg_type msg) = true ->
  dc_open env = true ->
  dc_send_returns env = true ->
  records s !! i = Some c ->
  exists packet s' c',
    sendMIDI env t msg pending = (SentRTC packet, pending)
    /\ handlePerformancePacket i seen now (Parsed packet) s = Some s'
    /\ records s' !! i = Some c'
    /\ last (latencyHistory c') = Some (Z.max 0 (now - t))
    /\ playbackQueue s'
       = foldl insertEvent (playbackQueue s) (scheduled_events (t + bufferSizeMs c') msg)
    /\ playbackQueue s'
       ≡ₚ scheduled_events (t + bufferSizeMs c') msg ++ playbackQueue s
    /\ (exists first,
          head (scheduled_events (t + bufferSizeMs c') msg) = Some first
          /\ playAt first = t + bufferSizeMs c'
          /\ first ∈ playbackQueue s')
    /\ (forall e, e ∈ scheduled_events (t + bufferSizeMs c') msg -> e ∈ playbackQueue s')
    /\ (forall e, e ∈ playbackQueue s -> e ∈ playbackQueue s').
Proof.
  intros Hm Hopen Hret Hc.
  unfold sendMIDI. rewrite Hm, Hopen, Hret. simpl.
  eexists _, _, _. split; [reflexivity|].
  rewrite (handlePerformancePacket_parsed _ _ _ _ _ _ Hc).
  split; [reflexivity|]. cbn [records playbackQueue].
  split; [apply lookup_insert_eq|]. cbn [latencyHistory bufferSizeMs].
  split; [apply push_latency_last|]. split; [done|].
  set (p := t + buffer_for _).
  change (foldl insertEvent (playbackQueue s) (scheduled_events _ (with_timestamp t msg)))
    with (foldl insertEvent (playbackQueue s) (scheduled_events p msg)).
  split; [apply foldl_insertEvent_Permutation|].
  split.
  - assert (Hfirst : exists first rest, scheduled_events p msg = first :: rest).
    { unfold scheduled_events. unfold midi_type in Hm.
      repeat case_match; try done; by eexists _, _. }
    destruct Hfirst as (first & rest & Hevts).
    exists first. split; [by rewrite Hevts|].
    pose proof (head_scheduled_events_playAt p msg first) as Hp.
    rewrite Hevts in Hp. split; [by apply Hp|].
    apply scheduled_events_queued. rewrite Hevts. apply list_elem_of_here.
  - split; intros e He.
    + by apply scheduled_events_queued.
    + rewrite foldl_insertEvent_Permutation. apply elem_of_app. by right.
Qed.

(** ** The properties above on the scenarios *)

Lemma latency_window_bounded_witness :
  (length (latencyHistory s2_client) <= 200)%nat /\ Forall (fun x => 0 <= x) (latencyHistory s2_client).
Proof.
  apply (latency_window_bounded true s2_inputs s2_scheduled ltac:(vm_compute; reflexivity) 1%nat).
  vm_compute. reflexivity.
Defined.

Lemma buffer_matches_window_witness :
  ((latencyHistory s2_client = [] /\ bufferSizeMs s2_client = int 40)
     \/ (latencyHistory s2_client <> []
         /\ bufferSizeMs s2_client
            = clamp (Math_round (percentile (latencyHistory s2_client) 95 + int 15))
                    (int 10) (int 300)))
    /\ exists n, bufferSizeMs s2_client = int n /\ 10 <= n <= 300.
Proof.
  apply (buffer_matches_window true s2_inputs s2_scheduled ltac:(vm_compute; reflexivity) 1%nat).
  vm_compute. reflexivity.
Defined.

Lemma latency_window_slides_witness :
  exists s' c',
    handlePerformancePacket 1%nat (int 1100) (int 1100) (Parsed s2_packet) s2_scheduled = Some s'
    /\ records s' !! 1%nat = Some c'
    /\ ((length (latencyHistory s2_client) < 200)%nat ->
        latencyHistory c'
        = latencyHistory s2_client ++ [Z.max 0 ((int 1100) - packet_timestamp s2_packet (int 1100))])
    /\ (length (latencyHistory s2_client) = 200%nat ->
        latencyHistory c'
        = drop 1 (latencyHistory s2_client) ++ [Z.max 0 ((int 1100) - packet_timestamp s2_packet (int 1100))]).
Proof.
  apply (latency_window_slides 1 (int 1100) (int 1100) s2_packet s2_scheduled s2_client).
  vm_compute. reflexivity.
Defined.

Lemma percentile_order_independent_witness :
  percentile spiked_window 95 = percentile (int 900 :: calm_samples) 95.
Proof.
  apply (percentile_order_independent spiked_window (int 900 :: calm_samples) 95).
  apply (bool_decide_unpack _). vm_compute. exact I.
Defined.

Lemma percentile_is_a_sample_witness :
  percentile [] 95 = 0
  /\ (spiked_window <> [] ->
      percentile spiked_window 95 ∈ spiked_window
      /\ forall lo hi,
           Forall (fun x => lo <= x <= hi) spiked_window -> lo <= percentile spiked_window 95 <= hi).
Proof.
  apply (percentile_is_a_sample spiked_window).
Defined.

Lemma percentile_ignores_single_spike_witness :
  exists m,
    m ∈ calm_samples
    /\ Forall (fun x => x <= m) calm_samples
    /\ percentile spiked_window 95 = m.
Proof.
  apply (percentile_ignores_single_spike spiked_window calm_samples (int 900)).
  - apply (bool_decide_unpack _). vm_compute. exact I.
  - simpl. lia.
  - repeat constructor; vm_compute; discriminate.
Defined.

Lemma deadline_within_buffer_bounds_witness :
  exists s' added,
    handlePerformancePacket 1%nat (int 1030) (int 1030) (Parsed s2_packet) connected = Some s'
    /\ playbackQueue s' ≡ₚ added ++ playbackQueue connected
    /\ Forall (fun e => packet_timestamp s2_packet (int 1030) + int 10 <= playAt e
                        <= packet_timestamp s2_packet (int 1030) + int 1100) added
    /\ (forall e, head added = Some e ->
          packet_timestamp s2_packet (int 1030) + int 10 <= playAt e
          <= packet_timestamp s2_packet (int 1030) + int 300).
Proof.
  apply (deadline_within_buffer_bounds 1 (int 1030) (int 1030) s2_packet connected new_client).
  vm_compute. reflexivity.
Defined.

Lemma first_packet_deadline_witness :
  exists s' c',
    handlePerformancePacket 1%nat (int 1030) (int 1030) (Parsed s2_packet) connected = Some s'
    /\ records s' !! 1%nat = Some c'
    /\ latencyHistory c' = [Z.max 0 ((int 1030) - (int 1000))]
    /\ bufferSizeMs c' = Z.min (int 300) (Math_round (Z.max 0 ((int 1030) - (int 1000)) + int 15))
    /\ playbackQueue s'
       = foldl insertEvent (playbackQueue connected) (scheduled_events ((int 1000) + bufferSizeMs c') s2_packet)
    /\ (forall e, e ∈ scheduled_events ((int 1000) + bufferSizeMs c') s2_packet -> e ∈ playbackQueue s')
    /\ (midi_type (msg_type s2_packet) = true ->
        exists e, head (scheduled_events ((int 1000) + bufferSizeMs c') s2_packet) = Some e
                  /\ playAt e = (int 1000) + bufferSizeMs c'
                  /\ e ∈ playbackQueue s')
    /\ (0 <= (int 1030) - (int 1000) <= int 285 ->
        (int 1030) + int 15 - half < (int 1000) + bufferSizeMs c' <= (int 1030) + int 15 + half
        /\ (forall n, (int 1030) - (int 1000) = int n -> (int 1000) + bufferSizeMs c' = (int 1030) + int 15)).
Proof.
  apply (first_packet_deadline 1 (int 1030) (int 1030) (int 1000) s2_packet connected
           new_client).
  - vm_compute. reflexivity.
  - reflexivity.
  - reflexivity.
Defined.

Lemma stale_packet_is_dropped_witness :
  exists s' c',
    handlePerformancePacket 1%nat (int 5000) (int 5000) (Parsed s2_packet) connected = Some s'
    /\ records s' !! 1%nat = Some c'
    /\ forall e,
         head (scheduled_events ((int 1000) + bufferSizeMs c') s2_packet) = Some e ->
         e ∈ playbackQueue s'
         /\ forall t rest log,
              (int 5000) <= t -> dispatch_loop t (e :: rest) log = dispatch_loop t rest log.
Proof.
  apply (stale_packet_is_dropped 1 (int 5000) (int 5000) (int 1000) s2_packet connected
           new_client).
  - vm_compute. reflexivity.
  - reflexivity.
  - vm_compute. reflexivity.
Defined.

Lemma dispatcher_tick_idempotent_witness :
  dispatcher_tick (int 1040) (dispatcher_tick (int 1045) s2_scheduled) = dispatcher_tick (int 1045) s2_scheduled.
Proof.
  apply (dispatcher_tick_idempotent (int 1045) (int 1040) s2_scheduled).
  vm_compute. discriminate.
Defined.

Lemma dispatcher_tick_closed_form_witness :
  exists entries,
    sinkLog (dispatcher_tick (int 1045) s2_scheduled) = sinkLog s2_scheduled ++ entries
    /\ playbackQueue (dispatcher_tick (int 1045) s2_scheduled)
       = filter (fun e => (int 1045) < playAt e) (playbackQueue s2_scheduled)
    /\ map call entries
       = map dispatch_call
             (filter (fun e => playAt e <= (int 1045) /\ (int 1045) <= playAt e + int 50)
                     (playbackQueue s2_scheduled))
    /\ Forall (fun x => from x = Dispatcher (int 1045)) entries.
Proof.
  apply (dispatcher_tick_closed_form true s2_inputs s2_scheduled (int 1045)).
  vm_compute. reflexivity.
Defined.

Lemma insertEvent_order_independent_witness :
  insertEvent (insertEvent (playbackQueue s2_scheduled) (Event (int 1500) (EvNoteOff (JInt 1) (JInt 60)))) (Event (int 1040) (EvProgram (JInt 1) (JInt 5)))
  = insertEvent (insertEvent (playbackQueue s2_scheduled) (Event (int 1040) (EvProgram (JInt 1) (JInt 5)))) (Event (int 1500) (EvNoteOff (JInt 1) (JInt 60))).
Proof.
  apply (insertEvent_order_independent true s2_inputs s2_scheduled
           (Event (int 1500) (EvNoteOff (JInt 1) (JInt 60)))
           (Event (int 1040) (EvProgram (JInt 1) (JInt 5)))).
  - vm_compute. reflexivity.
  - vm_compute. discriminate.
Defined.

Lemma noteOn_ahead_of_safety_noteOff_witness :
  exists s' p l1 l2 l3,
    handlePerformancePacket 1%nat (int 1100) (int 1100) (Parsed s2_packet) s2_scheduled = Some s'
    /\ playbackQueue s'
       = l1 ++ Event p (EvNoteOn (js_or (msg_channel s2_packet) (JInt 1)) (msg_note s2_packet)
                                 (js_or (msg_velocity s2_packet) (JInt 100)))
            :: l2 ++ Event (p + int 800)
                       (EvNoteOff (js_or (msg_channel s2_packet) (JInt 1)) (msg_note s2_packet))
            :: l3.
Proof.
  apply (noteOn_ahead_of_safety_noteOff true s2_inputs s2_scheduled 1 (int 1100) (int 1100)
           s2_packet s2_client).
  - vm_compute. reflexivity.
  - vm_compute. reflexivity.
  - reflexivity.
Defined.

Lemma immediate_lane_leaves_schedule_alone_witness :
  playbackQueue s2_offered = playbackQueue s2_scheduled
  /\ clients s2_offered = clients s2_scheduled
  /\ nextClientId s2_offered = nextClientId s2_scheduled
  /\ rtcPerf (counters s2_offered) = rtcPerf (counters s2_scheduled)
  /\ (forall j, j <> 1%nat -> records s2_offered !! j = records s2_scheduled !! j)
  /\ (forall j c', records s2_offered !! j = Some c' ->
        exists c, records s2_scheduled !! j = Some c /\ same_buffer_state c c')
  /\ ((forall message, (Parsed webrtc_offer) = Parsed message -> msg_type message <> JStr "webrtc-offer") ->
      records s2_offered = records s2_scheduled)
  /\ (forall message c,
        (Parsed webrtc_offer) = Parsed message ->
        msg_type message = JStr "webrtc-offer" ->
        records s2_scheduled !! 1%nat = Some c ->
        exists c',
          records s2_offered !! 1%nat = Some c'
          /\ pc c' = true
          /\ dc c' = negb (pc c) && dc c)
  /\ exists entries,
       sinkLog s2_offered = sinkLog s2_scheduled ++ entries
       /\ (length entries <= 1)%nat
       /\ Forall (fun x => from x = Immediate /\ queue_at_call x = playbackQueue s2_scheduled) entries.
Proof.
  apply (immediate_lane_leaves_schedule_alone 1 true (Parsed webrtc_offer) s2_scheduled
           s2_offered).
  vm_compute. reflexivity.
Defined.

Lemma wsImmediate_counts_midi_messages_only_witness :
  rtcPerf (counters connected) = rtcPerf (counters connected)
  /\ ((exists message,
         (Parsed client_hello) = Parsed message
         /\ (msg_type message = JStr "noteOn" \/ msg_type message = JStr "noteOff"
             \/ msg_type message = JStr "controlChange"
             \/ msg_type message = JStr "programChange"))
      -> wsImmediate (counters connected) = S (wsImmediate (counters connected)))
  /\ (~ (exists message,
           (Parsed client_hello) = Parsed message
           /\ (msg_type message = JStr "noteOn" \/ msg_type message = JStr "noteOff"
               \/ msg_type message = JStr "controlChange"
               \/ msg_type message = JStr "programChange"))
      -> wsImmediate (counters connected) = wsImmediate (counters connected)).
Proof.
  apply (wsImmediate_counts_midi_messages_only 1 false (Parsed client_hello) connected
           connected).
  reflexivity.
Defined.

Lemma transport_message_effects_witness :
  exists s',
    onMessage 1%nat false (Parsed transport_pause) connected = Some s'
    /\ counters s' = counters connected
    /\ playbackQueue s' = playbackQueue connected
    /\ (midiOutput connected = false -> s' = connected)
    /\ (midiOutput connected = true ->
        (msg_action transport_pause = JStr "play" ->
         sinkLog s' = sinkLog connected ++ [SinkEntry (sendTransport "start") Immediate (playbackQueue connected)])
        /\ (msg_action transport_pause = JStr "stop" ->
            sinkLog s' = sinkLog connected ++ [SinkEntry (sendTransport "stop") Immediate (playbackQueue connected)])
        /\ (msg_action transport_pause = JStr "pause" ->
            sinkLog s'
            = sinkLog connected ++ [SinkEntry (sendTransport "continue") Immediate (playbackQueue connected)])
        /\ (msg_action transport_pause = JStr "record" ->
            sinkLog s'
            = sinkLog connected ++ [SinkEntry (sendControlChange (JInt 1) (JInt 119) (JInt 127))
                                      Immediate (playbackQueue connected)])
        /\ (msg_action transport_pause <> JStr "play" -> msg_action transport_pause <> JStr "stop" ->
            msg_action transport_pause <> JStr "pause" -> msg_action transport_pause <> JStr "record" ->
            s' = connected)).
Proof.
  apply (transport_message_effects 1 false transport_pause connected).
  reflexivity.
Defined.

Lemma performance_lane_never_calls_sink_witness :
  sinkLog s2_scheduled = sinkLog connected
  /\ wsImmediate (counters s2_scheduled) = wsImmediate (counters connected)
  /\ clients s2_scheduled = clients connected
  /\ nextClientId s2_scheduled = nextClientId connected
  /\ (forall j, j <> 1%nat -> records s2_scheduled !! j = records connected !! j).
Proof.
  apply (performance_lane_never_calls_sink 1 (int 1030) (int 1030) (Parsed s2_packet)
           connected s2_scheduled).
  vm_compute. reflexivity.
Defined.

Lemma untyped_packet_feeds_estimator_only_witness :
  (exists s' c',
      handlePerformancePacket 1%nat (int 1030) (int 1030) (Parsed untyped_packet) connected = Some s'
      /\ playbackQueue s' = playbackQueue connected
      /\ rtcPerf (counters s') = S (rtcPerf (counters connected))
      /\ records s' !! 1%nat = Some c'
      /\ lastSeen c' = Some (int 1030)
      /\ last (latencyHistory c') = Some (Z.max 0 ((int 1030) - packet_timestamp untyped_packet (int 1030)))
      /\ bufferSizeMs c' = buffer_for (latencyHistory c'))
  /\ handlePerformancePacket 1%nat (int 1030) (int 1030) ParsedNull connected = None
  /\ (forall rest, run connected (DataChannelMessage 1%nat (int 1030) (int 1030) ParsedNull :: rest) = None).
Proof.
  apply (untyped_packet_feeds_estimator_only 1 (int 1030) (int 1030) untyped_packet
           connected new_client).
  - vm_compute. reflexivity.
  - simpl. discriminate.
  - simpl. discriminate.
  - simpl. discriminate.
  - simpl. discriminate.
Defined.

Lemma lane_counters_count_traffic_witness :
  rtcPerf (counters s2_after_traffic) = length (List.filter (counts_as_rtcPerf (records s2_scheduled)) s2_traffic)
  /\ wsImmediate (counters s2_after_traffic) = length (List.filter counts_as_wsImmediate s2_traffic).
Proof.
  apply (lane_counters_count_traffic s2_scheduled s2_after_traffic s2_traffic).
  - vm_compute. reflexivity.
  - reflexivity.
Defined.

Lemma client_ids_consistent_witness :
  (forall i c, records s2_scheduled !! i = Some c -> id c = i /\ (1 <= i < nextClientId s2_scheduled)%nat)
  /\ (forall i, i ∈ clients s2_scheduled -> exists c, clients_get s2_scheduled i = Some c /\ id c = i).
Proof.
  apply (client_ids_consistent true s2_inputs s2_scheduled).
  vm_compute. reflexivity.
Defined.

Lemma ensureClient_idempotent_and_never_reuses_witness :
  ensureClient (Some 1%nat) s2_scheduled = (1%nat, s2_scheduled)
  /\ (ensureClient (Some 1%nat) (onClose (Some 1%nat) s2_scheduled)).1 = nextClientId s2_scheduled
  /\ nextClientId s2_scheduled <> 1%nat
  /\ records (ensureClient (Some 1%nat) (onClose (Some 1%nat) s2_scheduled)).2 !! 1%nat = records s2_scheduled !! 1%nat
  /\ (1%nat ∉ clients (ensureClient (Some 1%nat) (onClose (Some 1%nat) s2_scheduled)).2)
  /\ (nextClientId s2_scheduled ∈ clients (ensureClient (Some 1%nat) (onClose (Some 1%nat) s2_scheduled)).2).
Proof.
  apply (ensureClient_idempotent_and_never_reuses true s2_inputs s2_scheduled 1).
  - vm_compute. reflexivity.
  - apply (bool_decide_unpack _). vm_compute. exact I.
Defined.

Lemma connectMIDI_binds_first_preferred_witness :
  exists j0 name0,
    connectMIDI midi_outputs second_busy true true = Some (ExistingOutput name0)
    /\ midi_outputs !! j0 = Some name0
    /\ preferred_output name0 = true
    /\ second_busy j0 = true
    /\ (j0 <= 2%nat)%nat
    /\ (forall j' name', (j' < j0)%nat -> midi_outputs !! j' = Some name' ->
                         preferred_output name' = true -> second_busy j' = false).
Proof.
  apply (connectMIDI_binds_first_preferred midi_outputs second_busy true true 2
           "IAC Driver Bus 1").
  - reflexivity.
  - vm_compute. reflexivity.
  - reflexivity.
Defined.

Lemma snapshot_lists_registered_clients_witness :
  Sorted lt (map stat_id (stat_clients (snapshot (int 3000) s2_scheduled)))
  /\ (forall i, i ∈ map stat_id (stat_clients (snapshot (int 3000) s2_scheduled)) <-> i ∈ clients s2_scheduled)
  /\ queueLength (snapshot (int 3000) s2_scheduled) = length (playbackQueue s2_scheduled)
  /\ laneCounters (snapshot (int 3000) s2_scheduled) = counters s2_scheduled.
Proof.
  apply (snapshot_lists_registered_clients true s2_inputs s2_scheduled (int 3000)).
  vm_compute. reflexivity.
Defined.

Lemma snapshot_entry_consistent_witness :
  exists c,
    clients_get s2_scheduled (stat_id s2_entry) = Some c
    /\ stat_bufferSizeMs s2_entry = bufferSizeMs c
    /\ int 10 <= stat_bufferSizeMs s2_entry <= int 300
    /\ stat_rttP95 s2_entry = percentile (latencyHistory c) 95
    /\ (latencyHistory c <> [] ->
        stat_bufferSizeMs s2_entry
        = clamp (Math_round (stat_rttP95 s2_entry + int 15)) (int 10) (int 300))
    /\ (exists older, latencyHistory c = older ++ stat_latencyHistory s2_entry)
    /\ length (stat_latencyHistory s2_entry) = Nat.min 50 (length (latencyHistory c)).
Proof.
  apply (snapshot_entry_consistent true s2_inputs s2_scheduled (int 3000) s2_entry).
  - vm_compute. reflexivity.
  - vm_compute. apply list_elem_of_here.
Defined.

Lemma sendMIDI_pending_bounded_witness :
  (length (sendMIDI_calls calls_before_open ([])).2 <= 256)%nat
  /\ exists added,
       (sendMIDI_calls calls_before_open ([])).2 = ([]) ++ added
       /\ Forall (fun packet => midi_type (msg_type packet) = true
                                /\ exists t, msg_timestamp packet = JNum t) added.
Proof.
  apply (sendMIDI_pending_bounded calls_before_open []).
  simpl. lia.
Defined.

Lemma sendMIDI_then_handlePerformancePacket_witness :
  exists packet s' c',
    sendMIDI rtc_env (int 1000) s1_message ([]) = (SentRTC packet, ([]))
    /\ handlePerformancePacket 1%nat (int 1030) (int 1030) (Parsed packet) connected = Some s'
    /\ records s' !! 1%nat = Some c'
    /\ last (latencyHistory c') = Some (Z.max 0 ((int 1030) - (int 1000)))
    /\ playbackQueue s'
       = foldl insertEvent (playbackQueue connected) (scheduled_events ((int 1000) + bufferSizeMs c') s1_message)
    /\ playbackQueue s'
       ≡ₚ scheduled_events ((int 1000) + bufferSizeMs c') s1_message ++ playbackQueue connected
    /\ (exists first,
          head (scheduled_events ((int 1000) + bufferSizeMs c') s1_message) = Some first
          /\ playAt first = (int 1000) + bufferSizeMs c'
          /\ first ∈ playbackQueue s')
    /\ (forall e, e ∈ scheduled_events ((int 1000) + bufferSizeMs c') s1_message -> e ∈ playbackQueue s')
    /\ (forall e, e ∈ playbackQueue connected -> e ∈ playbackQueue s').
Proof.
  apply (sendMIDI_then_handlePerformancePacket rtc_env (int 1000) s1_message [] 1
           (int 1030) (int 1030) connected new_client).
  - reflexivity.
  - reflexivity.
  - reflexivity.
  - vm_compute. reflexivity.
Defined.

